(** * teltech/platform: messaging runtime

    A shallow embedding of the subscription multiplexer
    ([amqp/subscriber.go]), the correlation router ([router.go]) and the
    handler execution wrapper (courier, heartbeat courier, service), with
    the properties of the design document stated and settled against the
    embedded code.

    A goroutine is embedded as a function of its state and of a script of
    what its environment does: the errors the broker answers with, the
    case each [select] takes, the deliveries another goroutine handles in
    the meantime.  Where two goroutines of the program race, both are
    steps of one transition function and a schedule interleaves them.
    Channels are their buffers, oldest element first, next to their
    capacity. *)

From Stdlib Require Import ZArith Lia Strings.Byte Strings.String.
From stdpp Require Import base option list strings gmap pretty.

Open Scope string_scope.
Open Scope list_scope.

(** Go's [[]byte]. *)
Abbreviation bytes := (list Byte.byte).

Global Instance byte_eq_dec : EqDecision Byte.byte := Byte.byte_eq_dec.

(** Go's [error] values as far as the code compares or creates them:
    [errors.New] allocates a value that is only equal to itself, so the
    sentinel [subscriberClosed] is a constructor of its own and every
    other error carries its message. *)
Inductive error : Type :=
| subscriberClosed
| errors_New (msg : string).

Global Instance error_eq_dec : EqDecision error.
Proof. solve_decision. Defined.

(** ** amqp/subscriber.go *)
Module amqp.

(** streadway/amqp's [Delivery], as far as the multiplexer looks at it. *)
Record Delivery : Type := mkDelivery {
  RoutingKey : string;
  Body : bytes
}.

Global Instance Delivery_eq_dec : EqDecision Delivery.
Proof. solve_decision. Defined.

(** Modelled from the spec: the [subscription] type is declared outside
    the files at hand.  The design document describes it as a topic, a
    handler and a bounded inbox; [subscriber.go] uses the [topic] field
    and sends on [deliveries].  The inbox is a buffered channel: its
    pending deliveries (oldest first) and its capacity. *)
Record subscription : Type := mkSubscription {
  topic : string;
  deliveries : list Delivery;
  capacity : nat
}.

(** What the multiplexer asks of the broker, in program order. *)
Inductive action : Type :=
| Dial
| GetChannelInterface
| QueueDeclare (queue : string) (durable autoDelete exclusive noWait : bool)
| QueueBind (queue topic exchange : string) (noWait : bool)
| Consume (queue consumer : string) (autoAck exclusive noLocal noWait : bool)
| CloseStarted
| Reject (msg : Delivery) (requeue : bool).

Record Subscriber : Type := mkSubscriber {
  subscriptions : list subscription;
  started : bool;          (* [s.started != nil] *)
  closed : bool;
  queue : string;
  exclusive : bool;
  autoDelete : bool
}.

(** The case a [select] of the dispatch loop takes in one iteration. *)
Inductive select_case : Type :=
| case_msg (msg : Delivery)     (* [case msg := <-msgs] *)
| case_connectionClosed         (* [case err := <-connectionClosed] *)
| case_channelInterfaceClosed   (* [case err := <-channelInterfaceClosed] *)
| case_quit.                    (* [case <-s.quit] *)

(** The broker's side of one dial-and-bind cycle: the error, if any, of
    each fallible call, and the cases the dispatch [select] takes. *)
Record cycle : Type := mkCycle {
  dial_err : option string;
  channel_err : option string;
  declare_err : option string;
  bind_err : string -> option string;   (* by topic *)
  consume_err : option string;
  selects : list select_case
}.

(** How far [run] got on a cycle: it returned, or the script ended while
    it was blocked in the dispatch [select]. *)
Inductive run_result : Type :=
| returned (err : option error)
| blocked.

Section Dispatch.
(** [subscription.canHandle] is defined with the [subscription] type,
    outside the files at hand. *)
Variable canHandle : subscription -> Delivery -> bool.

(** [select { case subscription.deliveries <- msg: ...; default: }] *)
Definition try_send (sub : subscription) (msg : Delivery) : option subscription :=
  if decide (length (deliveries sub) < capacity sub)
  then Some (mkSubscription (topic sub) (deliveries sub ++ [msg]) (capacity sub))
  else None.

(** The inner [for _, subscription := range s.subscriptions] of the
    dispatch loop, threading [handled]. *)
Fixpoint offer (msg : Delivery) (subs : list subscription) (handled : bool)
  : list subscription * bool :=
  match subs with
  | [] => ([], handled)
  | sub :: rest =>
      if canHandle sub msg then
        match try_send sub msg with
        | Some sub' =>
            let '(rest', h) := offer msg rest true in (sub' :: rest', h)
        | None =>
            let '(rest', h) := offer msg rest handled in (sub :: rest', h)
        end
      else
        let '(rest', h) := offer msg rest handled in (sub :: rest', h)
  end.

(** The body of [case msg := <-msgs]. *)
Definition dispatch (msg : Delivery) (subs : list subscription)
  : list subscription * list action :=
  let '(subs', handled) := offer msg subs false in
  (subs', if handled then [] else [Reject msg true]).

(** [for iterate { select { ... } }] *)
Fixpoint dispatch_loop (subs : list subscription) (script : list select_case)
  : list subscription * list action * run_result :=
  match script with
  | [] => (subs, [], blocked)
  | case_msg msg :: script' =>
      let '(subs1, acts1) := dispatch msg subs in
      let '(subs2, acts2, r) := dispatch_loop subs1 script' in
      (subs2, acts1 ++ acts2, r)
  | case_connectionClosed :: _ => (subs, [], returned None)
  | case_channelInterfaceClosed :: _ => (subs, [], returned None)
  | case_quit :: _ => (subs, [], returned (Some subscriberClosed))
  end.

(** The [for _, subscription := range s.subscriptions] that binds. *)
Fixpoint bind_all (q : string) (berr : string -> option string)
    (subs : list subscription) : list action * option string :=
  match subs with
  | [] => ([], None)
  | sub :: rest =>
      let a := QueueBind q (topic sub) "amq.topic" false in
      match berr (topic sub) with
      | Some e => ([a], Some e)
      | None => let '(acts, r) := bind_all q berr rest in (a :: acts, r)
      end
  end.

Definition with_subscriptions (s : Subscriber) (subs : list subscription) : Subscriber :=
  mkSubscriber subs (started s) (closed s) (queue s) (exclusive s) (autoDelete s).

Definition clear_started (s : Subscriber) : Subscriber :=
  mkSubscriber (subscriptions s) false (closed s) (queue s) (exclusive s) (autoDelete s).

(** [func (s *Subscriber) run() error] *)
Definition run (s : Subscriber) (c : cycle) : Subscriber * list action * run_result :=
  match dial_err c with
  | Some e => (s, [Dial], returned (Some (errors_New e)))
  | None =>
  match channel_err c with
  | Some e => (s, [Dial; GetChannelInterface], returned (Some (errors_New e)))
  | None =>
  let durable := if exclusive s then false else true in
  let autoDelete' := if autoDelete s then true else false in
  let declare := QueueDeclare (queue s) durable autoDelete' (exclusive s) false in
  match declare_err c with
  | Some e => (s, [Dial; GetChannelInterface; declare], returned (Some (errors_New e)))
  | None =>
  let '(binds, berr) := bind_all (queue s) (bind_err c) (subscriptions s) in
  let setup := [Dial; GetChannelInterface; declare] ++ binds in
  match berr with
  | Some e => (s, setup, returned (Some (errors_New e)))
  | None =>
  let consume := Consume (queue s) "" false (exclusive s) false true in
  match consume_err c with
  | Some e => (s, setup ++ [consume], returned (Some (errors_New e)))
  | None =>
  let signal := if started s then [CloseStarted] else [] in
  let '(subs', acts, r) := dispatch_loop (subscriptions s) (selects c) in
  (with_subscriptions (clear_started s) subs', setup ++ [consume] ++ signal ++ acts, r)
  end end end end end.

(** How the goroutine of [Run] stands after a script of cycles. *)
Inductive loop_status : Type :=
| stopped      (* [return]: the goroutine is gone *)
| in_cycle     (* inside [run], blocked in its [select] *)
| retrying.    (* at the head of [for], about to call [run] again *)

(** The goroutine of [func (s *Subscriber) Run()]: [for { if err :=
    s.run(); err != nil { if err == subscriberClosed { return };
    continue } }], on a script of cycles.  The result also counts the
    calls of [run]. *)
Fixpoint Run_loop (s : Subscriber) (cycles : list cycle)
  : Subscriber * list action * nat * loop_status :=
  match cycles with
  | [] => (s, [], 0, retrying)
  | c :: rest =>
      let '(s1, acts1, r) := run s c in
      match r with
      | blocked => (s1, acts1, 1, in_cycle)
      | returned (Some err) =>
          if decide (err = subscriberClosed) then (s1, acts1, 1, stopped)
          else
            let '(s2, acts2, n, st) := Run_loop s1 rest in
            (s2, acts1 ++ acts2, S n, st)
      | returned None =>
          let '(s2, acts2, n, st) := Run_loop s1 rest in
          (s2, acts1 ++ acts2, S n, st)
      end
  end.

(** [func (s *Subscriber) Run()]: [s.started] is made before the
    goroutine starts; the caller is released by the first cycle that gets
    to [close(s.started)]. *)
Definition Run (s : Subscriber) (cycles : list cycle)
  : Subscriber * list action * nat * loop_status :=
  Run_loop
    (mkSubscriber (subscriptions s) true (closed s) (queue s) (exclusive s) (autoDelete s))
    cycles.

(** *** Reading the multiplexer's behaviour off the script *)

(** The inbox of [sub] can take one more delivery. *)
Definition has_room (sub : subscription) : bool :=
  bool_decide (length (deliveries sub) < capacity sub).

(** What one subscription looks like after [msg] was offered to it. *)
Definition accept (msg : Delivery) (sub : subscription) : subscription :=
  if canHandle sub msg then default sub (try_send sub msg) else sub.

(** The positions whose inbox differs between [subs] and [subs']. *)
Definition recipients (subs subs' : list subscription) : list nat :=
  filter (fun i => deliveries <$> subs !! i ≠ deliveries <$> subs' !! i)
         (seq 0 (length subs)).

(** The first subscription, in registration order, whose filter
    accepts [msg]. *)
Definition first_match (msg : Delivery) (subs : list subscription) : option nat :=
  fst <$> list_find (fun sub => canHandle sub msg = true) subs.

(** Dispatch to the first match only, as the design document words it. *)
Definition first_match_only (msg : Delivery) (subs : list subscription) : Prop :=
  let '(subs', acts) := dispatch msg subs in
  (forall i, i ∈ recipients subs subs' -> first_match msg subs = Some i) /\
  (first_match msg subs = None -> acts = [Reject msg true]).

(** Some step of the dial-and-bind sequence of cycle [c] fails. *)
Definition setup_fails (s : Subscriber) (c : cycle) : Prop :=
  is_Some (dial_err c) \/ is_Some (channel_err c) \/ is_Some (declare_err c) \/
  (exists sub, sub ∈ subscriptions s /\ is_Some (bind_err c (topic sub))) \/
  is_Some (consume_err c).

(** The case that ends the dispatch loop on a script, if any. *)
Fixpoint first_exit (script : list select_case) : option select_case :=
  match script with
  | [] => None
  | case_msg _ :: script' => first_exit script'
  | c :: _ => Some c
  end.

(** [func (s *Subscriber) Subscribe(topic, handler)]; the inbox comes
    from [newSubscription], whose capacity is the parameter [cap]. *)
Definition Subscribe (cap : nat) (s : Subscriber) (t : string) : Subscriber :=
  with_subscriptions s (subscriptions s ++ [mkSubscription t [] cap]).

End Dispatch.

Definition NewSubscriber (q : string) : Subscriber := mkSubscriber [] false false q false false.
Definition NewExclusiveSubscriber (q : string) : Subscriber := mkSubscriber [] false false q true false.
Definition NewAutoDeleteSubscriber (q : string) : Subscriber := mkSubscriber [] false false q false true.

(** *** Concrete subscriptions for the examples *)

(** A topic filter for the examples: the wildcard ["#"] accepts every
    routing key, any other topic accepts the key equal to it. *)
Definition hash_or_exact (sub : subscription) (msg : Delivery) : bool :=
  bool_decide (topic sub = "#") || bool_decide (topic sub = RoutingKey msg).

Definition msg_a1 : Delivery := mkDelivery "a.1" [].
Definition sub_a1 : subscription := mkSubscription "a.1" [] 1.
Definition sub_all : subscription := mkSubscription "#" [] 1.
Definition sub_b1 : subscription := mkSubscription "b.1" [] 1.

(** A multiplexer with two registered topics, and broker scripts: a
    cycle whose dial fails, one that loses its connection after one
    message, and one that is closed by [Close]. *)
Definition two_topics : Subscriber :=
  Subscribe 1 (Subscribe 1 (NewSubscriber "q") "a.1") "#".
Definition healthy (script : list select_case) : cycle :=
  mkCycle None None None (fun _ => None) None script.
Definition dial_refused : cycle :=
  mkCycle (Some "connection refused") None None (fun _ => None) None [].
Definition connection_lost : cycle := healthy [case_msg msg_a1; case_connectionClosed].
Definition closed_by_quit : cycle := healthy [case_quit; case_msg msg_a1].

(** *** The multiplexer over whole runs *)

(** The registered topics, in registration order. *)
Definition topics (s : Subscriber) : list string := topic <$> subscriptions s.

(** The requests a multiplexer with the queue, the flags and the topics
    of [s] makes of the broker. *)
Definition permitted (s : Subscriber) (a : action) : Prop :=
  match a with
  | Dial | GetChannelInterface | CloseStarted => True
  | QueueDeclare q durable ad ex noWait =>
      q = queue s /\ durable = negb (exclusive s) /\ ad = autoDelete s /\
      ex = exclusive s /\ noWait = false
  | QueueBind q t exchange noWait =>
      q = queue s /\ t ∈ topics s /\ exchange = "amq.topic" /\ noWait = false
  | Consume q tag autoAck ex noLocal noWait =>
      q = queue s /\ tag = "" /\ autoAck = false /\ ex = exclusive s /\
      noLocal = false /\ noWait = true
  | Reject _ requeue => requeue = true
  end.

(** [s'] has the queue, the flags and the topics of [s]. *)
Definition same_registration (s s' : Subscriber) : Prop :=
  queue s' = queue s /\ exclusive s' = exclusive s /\ autoDelete s' = autoDelete s /\
  closed s' = closed s /\ topics s' = topics s.

(** The deliveries a script of [select] cases carries. *)
Definition messages (script : list select_case) : list Delivery :=
  omap (fun c => match c with case_msg msg => Some msg | _ => None end) script.

(** [sub'] is [sub] with some of the deliveries [ms], in their order,
    added behind what its inbox held. *)
Definition grows (ms : list Delivery) (sub sub' : subscription) : Prop :=
  topic sub' = topic sub /\ capacity sub' = capacity sub /\
  (exists new, deliveries sub' = deliveries sub ++ new /\ new `sublist_of` ms) /\
  (length (deliveries sub) <= capacity sub -> length (deliveries sub') <= capacity sub).

Definition is_CloseStarted (a : action) : bool :=
  match a with CloseStarted => true | _ => false end.
(** How often a trace releases the caller of [Run]. *)
Definition releases (acts : list action) : nat :=
  length (filter (fun a => is_CloseStarted a = true) acts).

(** The setup of a cycle on which nothing fails, as [run] issues it. *)
Definition setup_of (s : Subscriber) : list action :=
  [Dial; GetChannelInterface;
   QueueDeclare (queue s) (negb (exclusive s)) (autoDelete s) (exclusive s) false] ++
  ((fun t => QueueBind (queue s) t "amq.topic" false) <$> topics s) ++
  [Consume (queue s) "" false (exclusive s) false true].

(** *** Close *)

(** A multiplexer together with its channel [quit], which is made open
    and is only ever closed. *)
Record handle : Type := mkHandle {
  subscriber : Subscriber;
  quit_closed : bool
}.

(** What [Close] does to the channels it owns. *)
Inductive close_action : Type :=
| close_subscription (t : string)   (* [s.subscriptions[i].Close()] *)
| close_quit.                       (* [close(s.quit)] *)

(** [func (s *Subscriber) Close() error]; it returns [nil] wherever it
    returns.  [None] when it panics: [close] of a closed channel does. *)
Definition Close (h : handle) : option (handle * list close_action) :=
  let s := subscriber h in
  if closed s then Some (h, [])
  else if quit_closed h then None
  else Some (mkHandle (mkSubscriber (subscriptions s) (started s) true (queue s)
                         (exclusive s) (autoDelete s)) true,
             (close_subscription <$> topics s) ++ [close_quit]).

(** The calls a user makes on a multiplexer. *)
Inductive call : Type :=
| call_Subscribe (cap : nat) (t : string)
| call_Close.

Fixpoint calls (cs : list call) (h : handle) : option (handle * list close_action) :=
  match cs with
  | [] => Some (h, [])
  | call_Subscribe cap t :: cs' =>
      calls cs' (mkHandle (Subscribe cap (subscriber h) t) (quit_closed h))
  | call_Close :: cs' =>
      match Close h with
      | Some (h', acts) =>
          match calls cs' h' with
          | Some (h'', acts') => Some (h'', acts ++ acts')
          | None => None
          end
      | None => None
      end
  end.

(** A multiplexer with two registered topics on which [Close] has
    run. *)
Definition closed_two_topics : handle :=
  mkHandle (mkSubscriber (subscriptions two_topics) false true "q" false false) true.

(** An explicit close is terminal for the loop of [Run], as the design
    document words it: once [quit] is closed, the loop runs no cycle
    beyond the one that finds it closed, whatever the broker does. *)
Definition close_is_terminal (canHandle : subscription -> Delivery -> bool)
    (h : handle) (cycles : list cycle) : Prop :=
  quit_closed h = true ->
  let '(_, _, n, _) := Run_loop canHandle (subscriber h) cycles in n <= 1.

(** The bind that [run] asks for on behalf of a subscription. *)
Definition bind_of (q : string) (sub : subscription) : action :=
  QueueBind q (topic sub) "amq.topic" false.

Definition is_close_quit (a : close_action) : bool :=
  match a with close_quit => true | _ => false end.
Definition is_call_Close (c : call) : bool :=
  match c with call_Close => true | _ => false end.

End amqp.

(** ** router.go *)
Module router.

(** Modelled from the spec: the [RoutedMessage] type is declared outside
    the files at hand.  [router.go] sets [Id] and [ReplyTopic] (both
    optional strings behind [String(...)]), reads [GetId()], and prints
    [GetMethod()] and [GetResource()] with [%d]; the design document
    calls them the identifier, the reply destination and the declared
    method and resource of the envelope, next to an opaque payload. *)
Record RoutedMessage : Type := mkRoutedMessage {
  Id : option string;
  ReplyTopic : option string;
  Method : Z;
  Resource : Z;
  Body : bytes
}.

Definition GetId (m : RoutedMessage) : string := default "" (Id m).
Definition GetMethod (m : RoutedMessage) : Z := Method m.
Definition GetResource (m : RoutedMessage) : Z := Resource m.

(** [StandardRouter].  A waiter is the channel [make(chan *RoutedMessage,
    1)] that [Route] allocates; it is referenced from its entry of
    [pendingRequests] and from the local [responseChan] of the call that
    made it only, so the table maps an identifier to the buffer of its
    channel.  [publisher] records what the publisher was asked to
    publish, oldest first. *)
Record StandardRouter : Type := mkStandardRouter {
  publisher : list (string * bytes);
  topic : string;
  pendingRequests : gmap string (list RoutedMessage)
}.

(** What a call of [Route] comes to: it returns its pair, or it never
    returns. *)
Inductive route_result : Type :=
| route_returns (response : option RoutedMessage) (err : option error)
| route_hangs.

(** One step of the goroutine that runs the reply subscription. *)
Inductive respawn_event : Type :=
| ev_Run
| ev_Sleep (seconds : Z)
| ev_panic (msg : string).

Global Instance respawn_event_eq_dec : EqDecision respawn_event.
Proof. solve_decision. Defined.

Section Router.
(** [Marshal] and [Unmarshal] belong to the serialization collaborator;
    [None] stands for a non-nil error. *)
Variable Marshal : RoutedMessage -> option bytes.
Variable Unmarshal : bytes -> option RoutedMessage.

Definition with_pending (sr : StandardRouter)
    (pending : gmap string (list RoutedMessage)) : StandardRouter :=
  mkStandardRouter (publisher sr) (topic sr) pending.

Definition Publish (sr : StandardRouter) (t : string) (body : bytes) : StandardRouter :=
  mkStandardRouter (publisher sr ++ [(t, body)]) (topic sr) (pendingRequests sr).

(** The [ConsumerHandlerFunc] that [NewStandardRouter] subscribes on the
    router's topic: the router afterwards and the error it returns.
    [None] when the handler blocks in [replyChan <- routedMessage] on a
    full channel, which it does with the mutex held. *)
Definition reply_handler (body : bytes) (sr : StandardRouter)
  : option (StandardRouter * option error) :=
  match Unmarshal body with
  | None => Some (sr, None)
  | Some routedMessage =>
      match pendingRequests sr !! GetId routedMessage with
      | Some replyChan =>
          if decide (length replyChan < 1)
          then Some (with_pending sr
                       (<[GetId routedMessage := replyChan ++ [routedMessage]]>
                          (pendingRequests sr)), None)
          else None
      | None => Some (sr, None)
      end
  end.

(** The handler on a run of deliveries, one after the other. *)
Fixpoint deliver_all (bodies : list bytes) (sr : StandardRouter) : option StandardRouter :=
  match bodies with
  | [] => Some sr
  | body :: rest =>
      match reply_handler body sr with
      | Some (sr', _) => deliver_all rest sr'
      | None => None
      end
  end.

(** The handler returns from every delivery of the script: none of its
    sends finds the channel of a waiter full. *)
Definition handler_returns (bodies : list bytes) (sr : StandardRouter) : Prop :=
  is_Some (deliver_all bodies sr).

(** No delivery of the script decodes to a message with identifier
    [uuid]. *)
Definition no_reply_for (uuid : string) (bodies : list bytes) : Prop :=
  Forall (fun body => forall m, Unmarshal body = Some m -> GetId m <> uuid) bodies.

(** [msg.Id = String(uuid); msg.ReplyTopic = String(sr.topic)] *)
Definition stamp (sr : StandardRouter) (uuid : string) (msg : RoutedMessage) : RoutedMessage :=
  mkRoutedMessage (Some uuid) (Some (topic sr)) (Method msg) (Resource msg) (Body msg).

(** [fmt.Sprintf("%d_%d", msg.GetMethod(), msg.GetResource())] *)
Definition request_topic (msg : RoutedMessage) : string :=
  pretty (GetMethod msg) +:+ "_" +:+ pretty (GetResource msg).

(** The [select] of [Route] on a script of deliveries that the reply
    handler gets to run while the timer is pending: the call takes the
    reply as soon as its channel holds one and hands back the deliveries
    it did not wait for; when the script ends with the channel still
    empty the timer fires.  [None] when the handler blocks. *)
Fixpoint await (uuid : string) (within : list bytes) (sr : StandardRouter)
  : option (StandardRouter * option RoutedMessage * option error * list bytes) :=
  match pendingRequests sr !! uuid with
  | Some (response :: buffered) =>
      Some (with_pending sr (<[uuid := buffered]> (pendingRequests sr)),
            Some response, None, within)
  | _ =>
      match within with
      | [] => Some (sr, None, Some (errors_New "TIMEOUT"), [])
      | body :: rest =>
          match reply_handler body sr with
          | Some (sr', _) => await uuid rest sr'
          | None => None
          end
      end
  end.

(** The part of [Route] between a successful [Marshal] and the
    [select]: the waiter is put into the table under the mutex and the
    payload is published. *)
Definition issue (sr : StandardRouter) (msg : RoutedMessage) (payload : bytes)
  : StandardRouter :=
  let responseChan : list RoutedMessage := [] in
  let sr := with_pending sr (<[GetId msg := responseChan]> (pendingRequests sr)) in
  Publish sr (request_topic msg) payload.

(** [func (sr *StandardRouter) Route(msg, timeout)].  [uuid] is what
    [CreateUUID()] returns.  The call takes the mutex twice, and the
    reply handler, which sends with the mutex held, runs next to it:
    [before] are the deliveries the handler runs on until the call
    takes the mutex for its insert, [within] those it runs on before the
    timer fires, [late] those it runs on between the [select] and the
    [Lock] of the final [delete].  The result is the router afterwards,
    the message as the caller sees it afterwards ([msg] is a pointer),
    and what the call comes to.  When the handler blocks in its send,
    the mutex is never released: a call that has not yet taken it for
    the insert blocks in its first [Lock], with nothing inserted or
    published, and a call that is past its [select] never gets to its
    [delete]. *)
Definition Route (sr : StandardRouter) (msg : RoutedMessage) (uuid : string)
    (before within late : list bytes) : StandardRouter * RoutedMessage * route_result :=
  let msg := stamp sr uuid msg in
  match Marshal msg with
  | None => (sr, msg, route_returns None (Some (errors_New "MARSHAL ERROR")))
  | Some payload =>
      match deliver_all before sr with
      | None => (sr, msg, route_hangs)
      | Some sr =>
          let sr := issue sr msg payload in
          match await (GetId msg) within sr with
          | None => (sr, msg, route_hangs)
          | Some (sr, response, err, unseen) =>
              match deliver_all (unseen ++ late) sr with
              | None => (sr, msg, route_hangs)
              | Some sr =>
                  let sr := with_pending sr (delete (GetId msg) (pendingRequests sr)) in
                  (sr, msg, route_returns response err)
              end
          end
      end
  end.

(** [NewStandardRouter] up to the subscription. *)
Definition NewStandardRouter (uuid : string) : StandardRouter :=
  mkStandardRouter [] ("router_" +:+ uuid) ∅.

(** The goroutine of [NewStandardRouter]: [for i := 0; i <= 100; i++ {
    subscription.Run(); time.Sleep(time.Duration(i%5) * time.Second) }]
    and the [panic] behind the loop.  [comes_back i] tells whether the
    call of [Run] in iteration [i] returns; the trace ends where the
    goroutine panics or stays in [Run].  [None] when [fuel] iterations
    did not get to the end of the loop. *)
Fixpoint respawn_loop (comes_back : Z -> bool) (fuel : nat) (i : Z)
  : option (list respawn_event) :=
  match fuel with
  | 0 => None
  | S fuel' =>
      if (i <=? 100)%Z then
        if comes_back i then
          trace ← respawn_loop comes_back fuel' (i + 1)%Z;
          Some (ev_Run :: ev_Sleep (i `rem` 5)%Z :: trace)
        else Some [ev_Run]
      else Some [ev_panic "Final connection died. Respawning..."]
  end.

Definition respawn (comes_back : Z -> bool) (fuel : nat) : option (list respawn_event) :=
  respawn_loop comes_back fuel 0.

(** How often a trace calls [subscription.Run]. *)
Definition Run_calls (trace : list respawn_event) : nat :=
  length (filter (fun e => e = ev_Run) trace).
End Router.

(** *** A codec and a router for the examples *)

(** The codec of the examples carries the identifier only: a message is
    encoded as the bytes of its identifier, and the empty body does not
    decode. *)
Definition id_Marshal (m : RoutedMessage) : option bytes :=
  Some (String.list_byte_of_string (GetId m)).
Definition id_Unmarshal (body : bytes) : option RoutedMessage :=
  match body with
  | [] => None
  | _ => Some (mkRoutedMessage (Some (String.string_of_list_byte body)) None 0 0 [])
  end.
(** A codec that cannot encode anything. *)
Definition no_Marshal (m : RoutedMessage) : option bytes := None.

Definition request_7_3 : RoutedMessage := mkRoutedMessage None None 7 3 [].
Definition reply_for (id : string) : bytes := String.list_byte_of_string id.
(** A router with one call outstanding under the identifier ["u0"]. *)
Definition busy_router : StandardRouter :=
  mkStandardRouter [] "router_r" {["u0" := []]}.

(** Every waiter's channel holds at most the one reply it has room
    for. *)
Definition single_slot (sr : StandardRouter) : Prop :=
  forall id buf, pendingRequests sr !! id = Some buf -> length buf <= 1.

End router.

(** ** The envelope (platform.proto) *)
Module proto.

Inductive Version : Type := V4 | V6.

Record IpAddress : Type := mkIpAddress {
  address : option string;
  version : option Version
}.

Record Route : Type := mkRoute {
  uri : option string;
  ip_address : option IpAddress
}.

Record Routing : Type := mkRouting {
  route_to : list Route;
  route_from : list Route
}.

Record Trace : Type := mkTrace {
  trace_uuid : option string;
  trace_name : option string;
  span_uuid : option string;
  parent_span_uuid : option string;
  start_time : option string;
  end_time : option string
}.

(** The generated Go struct holds [Routing] and [Trace] behind pointers
    that may be [nil]. *)
Record Request : Type := mkRequest {
  uuid : option string;
  routing : option Routing;
  context : bytes;
  payload : bytes;
  completed : option bool;
  trace : option Trace
}.

Record Error : Type := mkError {
  message : option string
}.

Definition GetUuid (r : Request) : string := default "" (uuid r).
Definition GetCompleted (r : Request) : bool := default false (completed r).
Definition GetUri (r : Route) : string := default "" (uri r).

(** [response.Routing.RouteTo = stack], on a response whose [Routing] is
    [rt]. *)
Definition set_RouteTo (response : Request) (rt : Routing) (stack : list Route) : Request :=
  mkRequest (uuid response) (Some (mkRouting stack (route_from rt)))
    (context response) (payload response) (completed response) (trace response).

End proto.

(** ** The courier, the heartbeat courier and the service *)
Module service.
Import proto.

(** Where a piece of Go code ends up from a state: it returns, it panics
    with a value (the state is what it had written by then), or it blocks
    on a channel. *)
Inductive final (S : Type) : Type :=
| returns (s : S)
| panics (r : string) (s : S)
| blocks.
Arguments returns {S} s.
Arguments panics {S} r s.
Arguments blocks {S}.

Definition and_then {S : Type} (f : final S) (k : S -> final S) : final S :=
  match f with
  | returns s => k s
  | panics r s => panics r s
  | blocks => blocks
  end.

(** The interface [ResponseSender]: its one method [Send], on the state
    behind the receiver. *)
Definition ResponseSender (S : Type) : Type := Request -> S -> final S.

(** The lines the courier logs. *)
Inductive log_line : Type :=
| log_sending (final_reply : bool) (id dest : string)   (* [Courier.Send] *)
| log_publishing (response : Request)
| log_marshal_failed
| log_published.

(** What the courier and its goroutine work on: the channel [responses]
    ([make(chan *Request, 10)], oldest first), what the publisher was
    asked to publish, and the log.  The channel carries pointers; here
    each entry is the response as it is when it is sent, which is what
    [Send] and a single turn of the goroutine see.  Runs of several
    turns, where an earlier turn's assignment to a shared [Routing]
    object shows in a later one, are on [CourierMemory] below. *)
Record Courier : Type := mkCourier {
  responses : list Request;
  published : list (string * bytes);
  logged : list log_line
}.

Definition index_out_of_range : string := "runtime error: index out of range".
Definition nil_dereference : string :=
  "runtime error: invalid memory address or nil pointer dereference".

Section Courier.
(** [Marshal] of the serialization collaborator, on a [Request]. *)
Variable Marshal : Request -> option bytes.

(** [func (c *Courier) Send(response *Request)]: both log lines evaluate
    [response.Routing.RouteTo[0].GetUri()]. *)
Definition Courier_Send : ResponseSender Courier := fun response c =>
  match routing response with
  | None => panics nil_dereference c
  | Some rt =>
      match route_to rt with
      | [] => panics index_out_of_range c
      | first :: _ =>
          let c := mkCourier (responses c) (published c)
                     (logged c ++ [log_sending (GetCompleted response)
                                     (GetUuid response) (GetUri first)]) in
          if decide (length (responses c) < 10)
          then returns (mkCourier (responses c ++ [response]) (published c) (logged c))
          else blocks
      end
  end.

(** One turn of [for response := range responses] in the goroutine of
    [NewCourier]. *)
Definition courier_turn (c : Courier) : final Courier :=
  match responses c with
  | [] => blocks
  | response :: waiting =>
      let c := mkCourier waiting (published c) (logged c ++ [log_publishing response]) in
      match routing response with
      | None => panics nil_dereference c
      | Some rt =>
          let destinationRouteIndex := (Z.of_nat (length (route_to rt)) - 1)%Z in
          if decide (destinationRouteIndex < 0)%Z then panics index_out_of_range c
          else
            match route_to rt !! Z.to_nat destinationRouteIndex with
            | None => panics index_out_of_range c
            | Some destinationRoute =>
                let response :=
                  set_RouteTo response rt
                    (take (Z.to_nat destinationRouteIndex) (route_to rt)) in
                match Marshal response with
                | None =>
                    returns (mkCourier (responses c) (published c)
                               (logged c ++ [log_marshal_failed]))
                | Some body =>
                    returns (mkCourier (responses c)
                               (published c ++ [(GetUri destinationRoute, body)])
                               (logged c ++ [log_published]))
                end
            end
      end
  end.

(** [NewCourier(publisher)] *)
Definition NewCourier : Courier := mkCourier [] [] [].
End Courier.

(** The courier treats an empty destination stack as the design document
    words it: [Send] returns, and the goroutine's turn on the response
    returns without having published anything. *)
Definition skips_empty_stack (Marshal : Request -> option bytes)
    (response : Request) (c : Courier) : Prop :=
  (exists c', Courier_Send response c = returns c') /\
  (exists c', courier_turn Marshal
                (mkCourier (response :: responses c) (published c) (logged c))
              = returns c' /\ published c' = published c).

(** *** Responses and codecs for the examples *)

Definition reply_to (stack : list string) : Request :=
  mkRequest (Some "u1") (Some (mkRouting ((fun u => mkRoute (Some u) None) <$> stack) []))
    [] [] (Some true) None.
(** The codec of the examples encodes a request as the bytes of its
    identifier followed by the URIs left on its destination stack. *)
Definition stack_Marshal (r : Request) : option bytes :=
  Some (String.list_byte_of_string
          (GetUuid r +:+ String.concat ""
             ((fun x => ">" +:+ GetUri x) <$> from_option route_to [] (routing r)))).
Definition never_Marshal (r : Request) : option bytes := None.

(** *** The heartbeat courier *)

(** [RequestHeartbeatCourier] on a parent with state [S]: the state behind
    [parent] and the channel [quit] ([make(chan bool, 1)]). *)
Record RequestHeartbeatCourier (S : Type) : Type := mkRHC {
  parent : S;
  quit : list bool
}.
Arguments mkRHC {S} parent quit.
Arguments parent {S} r.
Arguments quit {S} r.

(** Who handed a response to the parent. *)
Inductive origin : Type := by_emitter | by_handler.

(** Where the goroutine of [NewRequestHeartbeatCourier] stands. *)
Inductive emitter : Type :=
| at_select            (* in [select], or about to enter it *)
| timer_fired          (* took [case <-time.After(...)], has not sent yet *)
| emitter_returned     (* took [case <-quit] *)
| emitter_panicked.    (* its [parent.Send] panicked *)

(** One handler invocation: the heartbeat courier, its goroutine, the
    call of [RequestHeartbeatCourier.Send] that is between its two steps,
    if any, and the responses handed to the parent so far, oldest first. *)
Record invocation (S : Type) : Type := mkInvocation {
  rhc : RequestHeartbeatCourier S;
  emitter_pc : emitter;
  sending : option Request;
  handed : list (origin * Request)
}.
Arguments mkInvocation {S} rhc emitter_pc sending handed.
Arguments rhc {S} i.
Arguments emitter_pc {S} i.
Arguments sending {S} i.
Arguments handed {S} i.

(** The steps of the two goroutines of an invocation. *)
Inductive step : Type :=
| timer (elapsed_ms : Z)       (* emitter: [case <-time.After(500 * time.Millisecond)] *)
| beat                         (* emitter: [parent.Send(GenerateResponse(...))] *)
| take_quit                    (* emitter: [case <-quit: return] *)
| signal (response : Request)  (* handler: [Send] up to [rhc.quit <- true] *)
| forward.                     (* handler: [rhc.parent.Send(response)] *)

Definition heartbeat_interval_ms : Z := 500.

Section Heartbeat.
Context {S : Type}.
(** [rhc.parent.Send] *)
Variable parent_Send : ResponseSender S.
(** [GenerateResponse] and [RouteToUri] are helpers of the package that
    are defined outside the files at hand. *)
Variable GenerateResponse : Request -> Request -> Request.
Variable RouteToUri : string -> Routing.

(** [if response.GetCompleted() { rhc.quit <- true }] *)
Definition rhc_signal (response : Request) (h : RequestHeartbeatCourier S)
  : final (RequestHeartbeatCourier S) :=
  if GetCompleted response then
    if decide (length (quit h) < 1)
    then returns (mkRHC (parent h) (quit h ++ [true]))
    else blocks
  else returns h.

(** [rhc.parent.Send(response)] *)
Definition rhc_forward (response : Request) (h : RequestHeartbeatCourier S)
  : final (RequestHeartbeatCourier S) :=
  match parent_Send response (parent h) with
  | returns p => returns (mkRHC p (quit h))
  | panics r p => panics r (mkRHC p (quit h))
  | blocks => blocks
  end.

(** [func (rhc *RequestHeartbeatCourier) Send(response *Request)] *)
Definition RequestHeartbeatCourier_Send : ResponseSender (RequestHeartbeatCourier S) :=
  fun response h => and_then (rhc_signal response h) (rhc_forward response).

(** The response of a heartbeat: [GenerateResponse(request, &Request{
    Routing: RouteToUri("resource:///heartbeat")})]. *)
Definition heartbeat (request : Request) : Request :=
  GenerateResponse request
    (mkRequest None (Some (RouteToUri "resource:///heartbeat")) [] [] None None).

(** [NewRequestHeartbeatCourier(parent, request)]: the courier and its
    goroutine, which is about to enter its [select]. *)
Definition NewRequestHeartbeatCourier (p : S) : invocation S :=
  mkInvocation (mkRHC p []) at_select None [].

(** One step of an invocation for [request]; [None] when the step cannot
    be taken in this state.  A timer is armed when the goroutine enters
    its [select], so the timer case is taken out of a [select] that found
    [quit] empty, and not before the interval has passed. *)
Definition take_step (request : Request) (e : step) (i : invocation S)
  : option (invocation S) :=
  match e with
  | timer elapsed_ms =>
      match emitter_pc i, quit (rhc i) with
      | at_select, [] =>
          if decide (heartbeat_interval_ms <= elapsed_ms)%Z
          then Some (mkInvocation (rhc i) timer_fired (sending i) (handed i))
          else None
      | _, _ => None
      end
  | beat =>
      match emitter_pc i with
      | timer_fired =>
          match rhc_forward (heartbeat request) (rhc i) with
          | returns h =>
              Some (mkInvocation h at_select (sending i)
                      (handed i ++ [(by_emitter, heartbeat request)]))
          | panics _ h => Some (mkInvocation h emitter_panicked (sending i) (handed i))
          | blocks => None
          end
      | _ => None
      end
  | take_quit =>
      match emitter_pc i, quit (rhc i) with
      | at_select, _ :: waiting =>
          Some (mkInvocation (mkRHC (parent (rhc i)) waiting)
                  emitter_returned (sending i) (handed i))
      | _, _ => None
      end
  | signal response =>
      match emitter_pc i, sending i with
      | emitter_panicked, _ => None
      | _, None =>
          match rhc_signal response (rhc i) with
          | returns h => Some (mkInvocation h (emitter_pc i) (Some response) (handed i))
          | _ => None
          end
      | _, Some _ => None
      end
  | forward =>
      match emitter_pc i, sending i with
      | emitter_panicked, _ => None
      | _, Some response =>
          match rhc_forward response (rhc i) with
          | returns h =>
              Some (mkInvocation h (emitter_pc i) None
                      (handed i ++ [(by_handler, response)]))
          | panics _ h => Some (mkInvocation h (emitter_pc i) None (handed i))
          | blocks => None
          end
      | _, None => None
      end
  end.

(** A schedule of steps, from the left. *)
Fixpoint take_steps (request : Request) (es : list step) (i : invocation S)
  : option (invocation S) :=
  match es with
  | [] => Some i
  | e :: es' =>
      match take_step request e i with
      | Some i' => take_steps request es' i'
      | None => None
      end
  end.
End Heartbeat.

(** *** Reading a run of an invocation *)

Definition is_heartbeat (x : origin * Request) : bool :=
  match x.1 with by_emitter => true | by_handler => false end.

Definition is_completed_reply (x : origin * Request) : bool :=
  match x.1 with by_emitter => false | by_handler => GetCompleted x.2 end.

(** The heartbeats among the responses handed to the parent. *)
Definition heartbeats (log : list (origin * Request)) : nat :=
  length (filter (fun x => is_heartbeat x = true) log).

(** The heartbeats handed to the parent after the first completed reply
    of the handler. *)
Fixpoint late_heartbeats (log : list (origin * Request)) : nat :=
  match log with
  | [] => 0
  | x :: rest => if is_completed_reply x then heartbeats rest else late_heartbeats rest
  end.

Definition is_timer (e : step) : bool :=
  match e with timer _ => true | _ => false end.
Definition is_beat (e : step) : bool :=
  match e with beat => true | _ => false end.
Definition timers (es : list step) : nat :=
  length (filter (fun e => is_timer e = true) es).
Definition beats (es : list step) : nat :=
  length (filter (fun e => is_beat e = true) es).

(** The handler has handed a completed reply to the parent. *)
Definition has_completed (log : list (origin * Request)) : bool :=
  existsb is_completed_reply log.

(** The goroutine of the heartbeat courier is on its way out: a signal
    waits on [quit], or it is gone. *)
Definition stopping {S : Type} (i : invocation S) : Prop :=
  quit (rhc i) <> [] \/ emitter_pc i = emitter_returned \/ emitter_pc i = emitter_panicked.

Definition is_timer_fired (pc : emitter) : bool :=
  match pc with timer_fired => true | _ => false end.
Definition is_emitter_panicked (pc : emitter) : bool :=
  match pc with emitter_panicked => true | _ => false end.

(** A timer step has waited the interval. *)
Definition waited (e : step) : Prop :=
  match e with timer ms => (heartbeat_interval_ms <= ms)%Z | _ => True end.

(** What every run of an invocation keeps, [hb] being the heartbeat of
    its request. *)
Record steady {S : Type} (hb : Request) (i : invocation S) : Prop := mkSteady {
  steady_completed : has_completed (handed i) = true -> stopping i;
  steady_sending :
    forall response, sending i = Some response ->
      GetCompleted response = true -> stopping i;
  steady_late :
    late_heartbeats (handed i) +
      (if has_completed (handed i) && is_timer_fired (emitter_pc i) then 1 else 0) <= 1;
  steady_emitted :
    forall x, x ∈ handed i -> is_heartbeat x = true -> x.2 = hb
}.

(** Heartbeats end with the first completed reply, as the design document
    words it: no run hands a heartbeat to the parent after a completed
    reply of the handler. *)
Definition stops_at_completed {S : Type} (parent_Send : ResponseSender S)
    (GenerateResponse : Request -> Request -> Request) (RouteToUri : string -> Routing)
    (request : Request) (p : S) : Prop :=
  forall es i,
    take_steps parent_Send GenerateResponse RouteToUri request es
      (NewRequestHeartbeatCourier p) = Some i ->
    late_heartbeats (handed i) = 0.

(** *** Helpers for the examples *)

(** A destination stack with the one entry [u]. *)
Definition one_hop (u : string) : Routing := mkRouting [mkRoute (Some u) None] [].
(** A response generator for the examples: the response as given, with
    the identifier and the trace of the request. *)
Definition echo_id (request response : Request) : Request :=
  mkRequest (uuid request) (routing response) (context response) (payload response)
    (completed response) (trace request).
Definition request_u1 : Request :=
  mkRequest (Some "u1") (Some (mkRouting [] [mkRoute (Some "caller") None])) [] [] None None.
Definition final_reply : Request := reply_to ["caller"].

(** *** The service *)

(** Modelled from the spec: [Getenv] is a helper of the package that is
    defined outside the files at hand.  The design document calls fault
    containment "a configuration toggle, default on": the value of the
    variable in the environment, and the given default when the variable
    is not set. *)
Definition Getenv (environ : gmap string string) (key fallback : string) : string :=
  default fallback (environ !! key).

(** [Handler]: application code.  It is handed the heartbeat courier and
    the request, and all it can do to the courier is call [Send].  What
    it does, and what the heartbeat goroutine does in the meantime, shows
    in the invocation when it returns or panics. *)
Definition Handler : Type :=
  Request -> invocation Courier -> final (invocation Courier).

(** How a call of the function that [AddHandler] subscribes ends under a
    schedule of the heartbeat goroutine. *)
Inductive wrapper_result : Type :=
| dropped (c : Courier)
    (* the delivery did not decode: [return nil] before a heartbeat
       courier is made *)
| returned_nil (i : invocation Courier)             (* [return nil] *)
| panicked (r : string) (i : invocation Courier)    (* a panic leaves the function *)
| stuck.
    (* under this schedule the function does not get to its end: the
       handler never returns, the deferred function waits on a channel
       where the schedule ends, or the schedule is not one the goroutine
       can take *)

(** The step is one of the heartbeat goroutine. *)
Definition is_emitter_step (e : step) : bool :=
  match e with
  | timer _ | beat | take_quit => true
  | signal _ | forward => false
  end.

Section Service.
Variable Marshal_Error : Error -> option bytes.
Variable Unmarshal : bytes -> option Request.
Variable GenerateResponse : Request -> Request -> Request.
Variable RouteToUri : string -> Routing.
(** What [identifyPanic()] reads off the call stack. *)
Variable identifyPanic : string.
(** The environment of the process. *)
Variable environ : gmap string string.

(** [s.publisher.Publish(topic, body)]; the courier of a service
    publishes through the same publisher. *)
Definition Publish (t : string) (body : bytes) (i : invocation Courier)
  : invocation Courier :=
  let c := parent (rhc i) in
  mkInvocation
    (mkRHC (mkCourier (responses c) (published c ++ [(t, body)]) (logged c))
       (quit (rhc i)))
    (emitter_pc i) (sending i) (handed i).

(** [fmt.Sprintf("A fatal error has occurred. %s: %s %s", path,
    identifyPanic(), r)] *)
Definition fatal_message (path r : string) : string :=
  "A fatal error has occurred. " +:+ path +:+ ": " +:+ identifyPanic +:+ " " +:+ r.

(** The response that the deferred function of the handler wrapper
    builds on a panic with value [r]; the error of [Marshal] is dropped. *)
Definition panic_reply (path : string) (request : Request) (r : string) : Request :=
  let panicErrorBytes := default [] (Marshal_Error (mkError (Some (fatal_message path r)))) in
  GenerateResponse request
    (mkRequest None (Some (RouteToUri "resource:///platform/reply/error")) []
       panicErrorBytes (Some true) None).

(** The deferred function of the wrapper once [recover()] has returned
    the value [r], from the invocation as the panic left it:
    [requestHeartbeatCourier.Send(...)] and [s.publisher.Publish("panic."
    + path, p)].  The heartbeat goroutine goes on next to it: [before]
    are the steps it takes until the signal of the response is on
    [quit], [between] those it takes from then until the response is
    handed to the courier. *)
Definition recovery (path : string) (request : Request) (r : string) (p : bytes)
    (before between : list step) (i : invocation Courier) : wrapper_result :=
  let response := panic_reply path request r in
  if forallb is_emitter_step (before ++ between) then
    match take_steps Courier_Send GenerateResponse RouteToUri request
            (before ++ signal response :: between) i with
    | None => stuck
    | Some i =>
        match emitter_pc i, sending i with
        | emitter_panicked, _ => stuck
        | _, None => stuck
        | _, Some response =>
            match rhc_forward Courier_Send response (rhc i) with
            | returns h =>
                returned_nil
                  (Publish ("panic." +:+ path) p
                     (mkInvocation h (emitter_pc i) None
                        (handed i ++ [(by_handler, response)])))
            | panics r' h => panicked r' (mkInvocation h (emitter_pc i) None (handed i))
            | blocks => stuck
            end
        end
    end
  else stuck.

(** The [ConsumerHandlerFunc] that [AddHandler(path, handler)] subscribes
    under ["microservice-" + path], on a delivery [p] and the courier of
    the service.  It returns [nil] wherever it returns. *)
Definition AddHandler (path : string) (handler : Handler) (p : bytes)
    (before between : list step) (c : Courier) : wrapper_result :=
  match Unmarshal p with
  | None => dropped c
  | Some request =>
      let requestHeartbeatCourier := NewRequestHeartbeatCourier c in
      match handler request requestHeartbeatCourier with
      | returns i => returned_nil i
      | blocks => stuck
      | panics r i =>
          if decide (Getenv environ "PLATFORM_PREVENT_PANICS" "1" = "1")
          then recovery path request r p before between i
          else panicked r i
      end
  end.
End Service.

(** *** A service for the examples *)

(** A request decodes from the bytes of its identifier; the empty body
    does not decode. *)
Definition id_Unmarshal (p : bytes) : option Request :=
  match p with
  | [] => None
  | _ => Some (mkRequest (Some (String.string_of_list_byte p))
                 (Some (mkRouting [] [mkRoute (Some "caller") None])) [] [] None None)
  end.
Definition text_Marshal_Error (e : Error) : option bytes :=
  Some (String.list_byte_of_string (default "" (message e))).
(** A handler that passes the responses [rs] to [Send], one after the
    other, and panics, with the heartbeat goroutine taking the steps
    [meanwhile] before the panic. *)
Definition sends_then_panics (rs : list Request) (meanwhile : list step) : Handler :=
  fun request i =>
    match take_steps Courier_Send echo_id one_hop request
            (concat ((fun response => [signal response; forward]) <$> rs) ++ meanwhile) i with
    | Some i' => panics "boom" i'
    | None => blocks
    end.
(** A handler that sends one intermediate reply and panics. *)
Definition faulty_handler : Handler :=
  sends_then_panics [mkRequest (Some "u1") (Some (one_hop "caller")) [] [] None None] [].
(** A handler that sends two completed replies, the goroutine taking the
    signal of the first in between, and panics. *)
Definition completes_twice : Handler := fun request i =>
  match take_steps Courier_Send echo_id one_hop request
          [signal final_reply; forward; take_quit; signal final_reply; forward] i with
  | Some i' => panics "boom" i'
  | None => blocks
  end.

(** *** The in-flight work counter and the shutdown *)

(** Where the goroutine of [Service.Run] stands. *)
Inductive lifecycle : Type :=
| serving     (* blocked in [case <-sigc] *)
| draining    (* in [for { if getConsumerWorkCount() < 1 ... } }] *)
| leaving     (* in [time.Sleep(time.Millisecond * 500)], behind the [if] *)
| exited.     (* [os.Exit(0)] *)

Global Instance lifecycle_eq_dec : EqDecision lifecycle.
Proof. solve_decision. Defined.

(** The package variables [stillConsuming] and [consumedWorkCount], the
    handler invocations in flight, and the goroutine of [Run].
    [consumedWorkCount] is a Go [int]; it counts goroutines, so the
    embedding does not wrap it. *)
Record process : Type := mkProcess {
  stillConsuming : bool;
  consumedWorkCount : Z;
  in_flight : gset nat;
  stage : lifecycle
}.

Inductive process_event : Type :=
| handler_begins (id : nat)
| handler_ends (id : nat)
| exit_signal       (* one of SIGHUP, SIGINT, SIGTERM, SIGQUIT arrives *)
| poll              (* one turn of the [for] loop *)
| sleep_over.       (* the [Sleep] returns and [os.Exit(0)] runs *)

Global Instance process_event_eq_dec : EqDecision process_event.
Proof. solve_decision. Defined.

(** Modelled from the spec: the code that changes [consumedWorkCount] and
    [getConsumerWorkCount] are outside the files at hand.  The design
    document: the counter is "incremented when a handler invocation
    begins, decremented when it ends". *)
Definition begin_work (id : nat) (p : process) : process :=
  mkProcess (stillConsuming p) (consumedWorkCount p + 1) ({[id]} ∪ in_flight p) (stage p).
(** Modelled from the spec: see [begin_work]. *)
Definition end_work (id : nat) (p : process) : process :=
  mkProcess (stillConsuming p) (consumedWorkCount p - 1) (in_flight p ∖ {[id]}) (stage p).
(** Modelled from the spec: the read of the counter under its mutex. *)
Definition getConsumerWorkCount (p : process) : Z := consumedWorkCount p.

(** The counter is the number of invocations in flight. *)
Definition counts_in_flight (p : process) : Prop :=
  consumedWorkCount p = Z.of_nat (size (in_flight p)).

(** [func (s *Service) Run()] up to [s.subscriber.Run()]. *)
Definition Service_Run : process := mkProcess true 0 ∅ serving.

(** One event of the process; [None] when it cannot happen in this
    state. *)
Definition process_step (e : process_event) (p : process) : option process :=
  if decide (stage p = exited) then None else
  match e with
  | handler_begins id =>
      if decide (id ∈ in_flight p) then None else Some (begin_work id p)
  | handler_ends id =>
      if decide (id ∈ in_flight p) then Some (end_work id p) else None
  | exit_signal =>
      match stage p with
      | serving => Some (mkProcess false (consumedWorkCount p) (in_flight p) draining)
      | _ => Some p
      end
  | poll =>
      match stage p with
      | draining =>
          if decide (getConsumerWorkCount p < 1)%Z
          then Some (mkProcess (stillConsuming p) (consumedWorkCount p) (in_flight p) leaving)
          else Some p
      | _ => None
      end
  | sleep_over =>
      match stage p with
      | leaving => Some (mkProcess (stillConsuming p) (consumedWorkCount p) (in_flight p) exited)
      | _ => None
      end
  end.

Fixpoint process_steps (es : list process_event) (p : process) : option process :=
  match es with
  | [] => Some p
  | e :: es' =>
      match process_step e p with
      | Some p' => process_steps es' p'
      | None => None
      end
  end.

Definition is_begin (e : process_event) : bool :=
  match e with handler_begins _ => true | _ => false end.
Definition is_end (e : process_event) : bool :=
  match e with handler_ends _ => true | _ => false end.
(** How many handler invocations begin, and how many end, in a run. *)
Definition begun (es : list process_event) : nat :=
  length (filter (fun e => is_begin e = true) es).
Definition ended (es : list process_event) : nat :=
  length (filter (fun e => is_end e = true) es).

(** *** The courier's goroutine over several turns *)

(** A [Request] as the channel [responses] carries it.  The channel
    holds pointers, and a [Request] holds its [Routing] behind a pointer;
    the goroutine assigns to [response.Routing.RouteTo], a field of the
    [Routing] object, and to nothing else.  So a queued response is its
    other fields together with the address of its [Routing] object
    ([None]: a nil pointer): two entries of the channel that are the same
    [Request], or two requests that share their [Routing], have the same
    address. *)
Record RequestAt : Type := mkRequestAt {
  at_uuid : option string;
  at_routing : option nat;
  at_context : bytes;
  at_payload : bytes;
  at_completed : option bool;
  at_trace : option Trace
}.

(** The [Routing] objects by address, the channel, what the publisher
    was asked to publish, and the log. *)
Record CourierMemory : Type := mkCourierMemory {
  routings : gmap nat Routing;
  channel : list RequestAt;
  mem_published : list (string * bytes);
  mem_logged : list log_line
}.

(** The request behind a queued response, as memory has it. *)
Definition resolve (m : gmap nat Routing) (response : RequestAt) : Request :=
  mkRequest (at_uuid response) (at_routing response ≫= (m !!.))
    (at_context response) (at_payload response) (at_completed response)
    (at_trace response).

(** [RouteTo = RouteTo[:len(RouteTo)-1]] on a [Routing] object. *)
Definition pop (rt : Routing) : Routing :=
  mkRouting (take (length (route_to rt) - 1) (route_to rt)) (route_from rt).

(** Memory after the stack of each of [rs] was popped once, in turn. *)
Definition popped (rs : list RequestAt) (m : gmap nat Routing) : gmap nat Routing :=
  foldl (fun m response =>
           match at_routing response with
           | Some ra => alter pop ra m
           | None => m
           end) m rs.

Section CourierRuns.
Variable Marshal : Request -> option bytes.

(** One turn of [for response := range responses] in the goroutine of
    [NewCourier], on memory. *)
Definition courier_turn_at (c : CourierMemory) : final CourierMemory :=
  match channel c with
  | [] => blocks
  | response :: waiting =>
      let c := mkCourierMemory (routings c) waiting (mem_published c)
                 (mem_logged c ++ [log_publishing (resolve (routings c) response)]) in
      match at_routing response with
      | None => panics nil_dereference c
      | Some ra =>
          match routings c !! ra with
          | None => panics nil_dereference c
          | Some rt =>
              let destinationRouteIndex := (Z.of_nat (length (route_to rt)) - 1)%Z in
              if decide (destinationRouteIndex < 0)%Z then panics index_out_of_range c
              else
                match route_to rt !! Z.to_nat destinationRouteIndex with
                | None => panics index_out_of_range c
                | Some destinationRoute =>
                    let m :=
                      <[ra := mkRouting (take (Z.to_nat destinationRouteIndex) (route_to rt))
                                (route_from rt)]> (routings c) in
                    match Marshal (resolve m response) with
                    | None =>
                        returns (mkCourierMemory m (channel c) (mem_published c)
                                   (mem_logged c ++ [log_marshal_failed]))
                    | Some body =>
                        returns (mkCourierMemory m (channel c)
                                   (mem_published c ++ [(GetUri destinationRoute, body)])
                                   (mem_logged c ++ [log_published]))
                    end
                end
          end
      end
  end.

(** [n] turns of [for response := range responses]; a panic ends the
    goroutine, and it waits on an empty channel. *)
Fixpoint courier_turns (n : nat) (c : CourierMemory) : final CourierMemory :=
  match n with
  | 0 => returns c
  | S n' => and_then (courier_turn_at c) (courier_turns n')
  end.

(** What the goroutine publishes and logs for [response] when it finds
    it alone on the channel of a new courier. *)
Definition alone (response : Request) : list (string * bytes) * list log_line :=
  match courier_turn Marshal (mkCourier [response] [] []) with
  | returns c => (published c, logged c)
  | panics _ c => (published c, logged c)
  | blocks => ([], [])
  end.
End CourierRuns.

(** [Send] for one response after the other, without the goroutine
    taking any in between. *)
Fixpoint Courier_Sends (rs : list Request) (c : Courier) : final Courier :=
  match rs with
  | [] => returns c
  | r :: rs' => and_then (Courier_Send r c) (Courier_Sends rs')
  end.

(** The destination stack of [response] is not empty. *)
Definition addressed (response : Request) : Prop :=
  exists rt stack destination,
    routing response = Some rt /\ route_to rt = stack ++ [destination].

(** *** Reading a schedule of an invocation *)

Definition is_completed_signal (e : step) : bool :=
  match e with signal response => GetCompleted response | _ => false end.
(** How many completed responses a schedule passes to [Send]. *)
Definition completed_signals (es : list step) : nat :=
  length (filter (fun e => is_completed_signal e = true) es).
(** The responses a schedule passes to [Send], in order. *)
Definition signalled (es : list step) : list Request :=
  omap (fun e => match e with signal response => Some response | _ => None end) es.
(** The responses of the handler among those handed to the parent. *)
Definition handler_handed (log : list (origin * Request)) : list Request :=
  snd <$> filter (fun x => is_heartbeat x = false) log.
Definition is_emitter_returned (pc : emitter) : bool :=
  match pc with emitter_returned => true | _ => false end.
Definition returned_count {S : Type} (i : invocation S) : nat :=
  if is_emitter_returned (emitter_pc i) then 1 else 0.
(** The parent sender never panics. *)
Definition never_panics {S : Type} (parent_Send : ResponseSender S) : Prop :=
  forall response p r p', parent_Send response p <> panics r p'.

(** *** identifyPanic *)

(** What [runtime.FuncForPC] and [FileLine] tell about a frame. *)
Record Func : Type := mkFunc {
  fn_name : string;
  fn_file : string;
  fn_line : Z
}.

(** The loop of [identifyPanic] over the frames [runtime.Callers] gave,
    [None] being a frame for which [runtime.FuncForPC] returns [nil];
    [name], [file] and [line] are the variables of the function. *)
Fixpoint identify_loop (frames : list (option Func)) (name file : string) (line : Z)
  : string * string * Z :=
  match frames with
  | [] => (name, file, line)
  | None :: rest => identify_loop rest name file line
  | Some fn :: rest =>
      let file := fn_file fn in
      let line := fn_line fn in
      let name := fn_name fn in
      if negb (String.prefix "runtime." name) then (name, file, line)
      else identify_loop rest name file line
  end.

(** [func identifyPanic() string]; [pcs] is how [%x] prints the array of
    program counters. *)
Definition identifyPanic (pcs : string) (frames : list (option Func)) : string :=
  let '(name, file, line) := identify_loop frames "" "" 0 in
  if decide (name <> "") then name +:+ ":" +:+ pretty line
  else if decide (file <> "") then file +:+ ":" +:+ pretty line
  else "pc:" +:+ pcs.

(** The frame belongs to the Go runtime. *)
Definition in_runtime (fn : Func) : bool := String.prefix "runtime." (fn_name fn).

(** *** More helpers for the examples *)

(** A response generator for the examples that loses the destination. *)
Definition strip_route (request response : Request) : Request :=
  mkRequest (uuid request) (Some (mkRouting [] [])) (context response)
    (payload response) (completed response) (trace request).
(** A handler that panics at once. *)
Definition panicking_handler : Handler := fun request i => panics "boom" i.
(** The stack of a panic in a handler: two frames of the runtime, one
    that does not resolve, the handler and its caller. *)
Definition panic_stack : list (option Func) :=
  [Some (mkFunc "runtime.gopanic" "panic.go" 491);
   Some (mkFunc "runtime.panicindex" "panic.go" 28);
   None;
   Some (mkFunc "main.handle" "handler.go" 7);
   Some (mkFunc "platform.func1" "service.go" 175)].

End service.

(** * Properties *)

(** ** The subscription multiplexer *)
Section MultiplexerFacts.
Import amqp.
Variable canHandle : subscription -> Delivery -> bool.

Lemma try_send_has_room sub msg :
  try_send sub msg =
    if has_room sub
    then Some (mkSubscription (topic sub) (deliveries sub ++ [msg]) (capacity sub))
    else None.
Proof. unfold try_send, has_room. by case_decide; case_bool_decide. Qed.

(** The scan visits every subscription: each one is left as [accept]
    says, and [handled] ends up true exactly if it was true before or
    some matching inbox had room. *)
Lemma offer_spec msg subs handled :
  offer canHandle msg subs handled =
    (accept canHandle msg <$> subs,
     handled || existsb (fun sub => canHandle sub msg && has_room sub) subs).
Proof.
  revert handled. induction subs as [|sub rest IH]; intros handled; simpl.
  - by rewrite orb_false_r.
  - unfold accept at 1. rewrite try_send_has_room.
    destruct (canHandle sub msg), (has_room sub); simpl; rewrite IH; simpl;
      f_equal; by destruct handled.
Qed.

Lemma existsb_false_iff {A} (f : A -> bool) (l : list A) :
  existsb f l = false <-> forall x, x ∈ l -> f x = false.
Proof.
  induction l as [|a l IH]; simpl.
  - split; [intros _ x Hx; inversion Hx | done].
  - rewrite orb_false_iff, IH. split.
    + intros [Ha Hl] x Hx. apply elem_of_cons in Hx as [->|Hx]; auto.
    + intros H. split; [apply H; left | intros x Hx; apply H; by right].
Qed.

(** C1 (as the code has it): the dispatch step offers the message to
    every subscription whose filter matches, not only to the first.
    Each matching subscription whose inbox has room gets the message
    appended to its inbox, every other subscription is left as it was,
    and the message is rejected with a requeue request exactly when no
    matching inbox took it; in particular when no subscription
    matches. *)
Theorem dispatch_offers_to_every_match (msg : Delivery) (subs : list subscription) :
  let '(subs', acts) := dispatch canHandle msg subs in
  subs' = accept canHandle msg <$> subs /\
  (forall i sub, subs !! i = Some sub ->
     subs' !! i = Some
       (if canHandle sub msg && has_room sub
        then mkSubscription (topic sub) (deliveries sub ++ [msg]) (capacity sub)
        else sub)) /\
  (acts = [Reject msg true] <->
     forall sub, sub ∈ subs -> canHandle sub msg && has_room sub = false) /\
  (acts = [] <->
     exists sub, sub ∈ subs /\ canHandle sub msg = true /\ has_room sub = true) /\
  ((forall sub, sub ∈ subs -> canHandle sub msg = false) -> acts = [Reject msg true]).
Proof.
  unfold dispatch. rewrite offer_spec. simpl.
  set (ex := existsb _ subs).
  assert (Hex : ex = false <->
            forall sub, sub ∈ subs -> canHandle sub msg && has_room sub = false)
    by apply existsb_false_iff.
  split; [done|]. split; [|split; [|split]].
  - intros i sub Hi. rewrite list_lookup_fmap, Hi. simpl. f_equal.
    unfold accept. rewrite try_send_has_room.
    by destruct (canHandle sub msg), (has_room sub).
  - rewrite <- Hex. by destruct ex.
  - split.
    + intros Hacts. destruct ex eqn:E; [|done].
      apply existsb_exists in E as (sub & Hin & Hsub).
      exists sub. apply andb_true_iff in Hsub as [? ?].
      by rewrite list_elem_of_In.
    + intros (sub & Hin & Hc & Hr). destruct ex eqn:E; [done|].
      exfalso. assert (Hf := proj1 Hex eq_refl sub Hin).
      by rewrite Hc, Hr in Hf.
  - intros Hnone. destruct ex eqn:E; [|done].
    apply existsb_exists in E as (sub & Hin & Hsub).
    apply list_elem_of_In, Hnone in Hin. by rewrite Hin in Hsub.
Qed.

Lemma bind_all_cases q berr subs :
  (exists acts e, bind_all q berr subs = (acts, Some e) /\
     exists sub, sub ∈ subs /\ is_Some (berr (topic sub))) \/
  (exists acts, bind_all q berr subs = (acts, None) /\
     forall sub, sub ∈ subs -> berr (topic sub) = None).
Proof.
  induction subs as [|sub rest IH]; simpl.
  - right. eexists. split; [done|]. intros sub Hin. inversion Hin.
  - destruct (berr (topic sub)) as [e|] eqn:E.
    + left. do 2 eexists. split; [done|]. exists sub. split; [left|by rewrite E].
    + destruct IH as [(acts & e & -> & sub' & Hin & Hs)|(acts & -> & Hall)].
      * left. do 2 eexists. split; [done|]. exists sub'. split; [by right|done].
      * right. eexists. split; [done|]. intros sub' Hin.
        apply elem_of_cons in Hin as [->|Hin]; auto.
Qed.

(** The dispatch loop leaves by the first case of its script that is
    not a message. *)
Lemma dispatch_loop_exit subs script :
  exists subs' acts,
    dispatch_loop canHandle subs script =
      (subs', acts,
       match first_exit script with
       | None => blocked
       | Some case_quit => returned (Some subscriberClosed)
       | Some _ => returned None
       end).
Proof.
  revert subs. induction script as [|c script IH]; intros subs; simpl.
  - by do 2 eexists.
  - destruct c; try by do 2 eexists.
    destruct (dispatch canHandle msg subs) as [subs1 acts1].
    destruct (IH subs1) as (subs2 & acts2 & ->). by do 2 eexists.
Qed.

(** What [run] returns, read off the cycle. *)
Lemma run_result_cases s c :
  exists s1 acts1 r, run canHandle s c = (s1, acts1, r) /\
    ((setup_fails s c /\ s1 = s /\ exists e, r = returned (Some (errors_New e))) \/
     (~ setup_fails s c /\
      r = match first_exit (selects c) with
          | None => blocked
          | Some case_quit => returned (Some subscriberClosed)
          | Some _ => returned None
          end)).
Proof.
  unfold run, setup_fails.
  destruct (dial_err c) as [e|] eqn:Ed.
  { do 3 eexists. split; [done|]. left. split; [left; by eexists|]. split; [done|by eexists]. }
  destruct (channel_err c) as [e|] eqn:Ec.
  { do 3 eexists. split; [done|]. left.
    split; [right; left; by eexists|]. split; [done|by eexists]. }
  destruct (declare_err c) as [e|] eqn:Eq.
  { do 3 eexists. split; [done|]. left.
    split; [right; right; left; by eexists|]. split; [done|by eexists]. }
  destruct (bind_all_cases (queue s) (bind_err c) (subscriptions s))
    as [(acts & e & -> & Hsub)|(acts & -> & Hall)].
  { do 3 eexists. split; [done|]. left.
    split; [right; right; right; left; done|]. split; [done|by eexists]. }
  destruct (consume_err c) as [e|] eqn:Eco.
  { do 3 eexists. split; [done|]. left.
    split; [repeat right; by eexists|]. split; [done|by eexists]. }
  destruct (dispatch_loop_exit (subscriptions s) (selects c)) as (subs' & acts' & ->).
  do 3 eexists. split; [done|]. right. split; [|done].
  intros [[? [=]]|[[? [=]]|[[? [=]]|[(sub & Hin & [? Hs])|[? [=]]]]]].
  rewrite (Hall sub Hin) in Hs. done.
Qed.

(** A loop whose every cycle fails in its setup calls [run] once per
    cycle and is about to call it again. *)
Lemma Run_loop_failing s cycles :
  Forall (setup_fails s) cycles ->
  let '(s', _, n, st) := Run_loop canHandle s cycles in
  s' = s /\ n = length cycles /\ st = retrying.
Proof.
  induction 1 as [|c rest Hc _ IH]; simpl; [done|].
  destruct (run_result_cases s c) as (s1 & acts1 & r & -> & [(_ & -> & e & ->)|[Hok _]]);
    [|done].
  rewrite decide_False by done.
  destruct (Run_loop canHandle s rest) as [[[s2 acts2] n] st].
  destruct IH as (-> & -> & ->). done.
Qed.

(** C5 (as the code has it): the loop of [Run] tells the exits of a
    cycle apart.  A cycle that ends because the connection or the
    channel reports closed, or because dialling, opening the channel,
    declaring the queue, binding a topic or starting to consume fails,
    does not return the sentinel, and the loop calls [run] again on the
    rest of the script.  A cycle whose setup succeeds and whose dispatch
    [select] takes the close signal returns the sentinel, and the
    goroutine returns: it has called [run] once and runs no further
    cycle whatever the broker does next.  The sentinel is returned by
    such a cycle only: the close signal is read in the [select] and
    nowhere else, so a loop whose cycles all fail in their setup calls
    [run] once per cycle and goes on, whether or not [quit] is closed. *)
Theorem reconnect_retries_until_closed
    (s : Subscriber) (c : cycle) (rest cycles : list cycle) :
  let '(s1, acts1, r) := run canHandle s c in
  (setup_fails s c \/
   first_exit (selects c) = Some case_connectionClosed \/
   first_exit (selects c) = Some case_channelInterfaceClosed ->
   r <> returned (Some subscriberClosed) /\ r <> blocked /\
   Run_loop canHandle s (c :: rest) =
     let '(s2, acts2, n, st) := Run_loop canHandle s1 rest in
     (s2, acts1 ++ acts2, S n, st)) /\
  (~ setup_fails s c -> first_exit (selects c) = Some case_quit ->
   r = returned (Some subscriberClosed) /\
   Run_loop canHandle s (c :: rest) = (s1, acts1, 1, stopped)) /\
  (r = returned (Some subscriberClosed) ->
   ~ setup_fails s c /\ first_exit (selects c) = Some case_quit) /\
  (Forall (setup_fails s) cycles ->
   let '(s', _, n, st) := Run_loop canHandle s cycles in
   s' = s /\ n = length cycles /\ st = retrying).
Proof.
  pose proof (Run_loop_failing s cycles) as Hfailing.
  simpl. destruct (run_result_cases s c) as (s1 & acts1 & r & -> & Hr).
  split; [|split; [|split]]; [| | |exact Hfailing].
  - intros Hexit. destruct Hr as [(_ & _ & e & ->)|[Hok ->]].
    + split; [done|]. split; [done|]. by rewrite decide_False.
    + destruct Hexit as [Hf|[-> | ->]]; done.
  - intros Hok Hquit. destruct Hr as [[Hf _]|[_ ->]]; [done|]. rewrite Hquit.
    split; [done|]. by rewrite decide_True.
  - intros ->. destruct Hr as [(_ & _ & e & [=])|[Hok Hr]]. split; [done|].
    destruct (first_exit (selects c)) as [[]|]; done.
Qed.
End MultiplexerFacts.

(** C1, as the design document words it, fails: with the topics ["a.1"]
    and ["#"] registered in this order, a delivery with routing key
    ["a.1"] reaches the inbox of both, the second being a later match. *)
Lemma dispatch_not_first_match_only :
  ~ amqp.first_match_only amqp.hash_or_exact amqp.msg_a1 [amqp.sub_a1; amqp.sub_all].
Proof.
  unfold amqp.first_match_only.
  change (amqp.dispatch amqp.hash_or_exact amqp.msg_a1 [amqp.sub_a1; amqp.sub_all])
    with ([amqp.mkSubscription "a.1" [amqp.msg_a1] 1;
           amqp.mkSubscription "#" [amqp.msg_a1] 1], @nil amqp.action).
  intros [Hfirst _].
  specialize (Hfirst 1). discriminate Hfirst.
  vm_compute. right. left.
Qed.

Lemma dispatch_offers_to_every_match_witness :
  (amqp.dispatch amqp.hash_or_exact amqp.msg_a1 [amqp.sub_a1; amqp.sub_b1; amqp.sub_all]).1
  = [amqp.mkSubscription "a.1" [amqp.msg_a1] 1; amqp.sub_b1;
     amqp.mkSubscription "#" [amqp.msg_a1] 1].
Proof.
  pose proof (dispatch_offers_to_every_match amqp.hash_or_exact amqp.msg_a1
                [amqp.sub_a1; amqp.sub_b1; amqp.sub_all]) as H.
  destruct (amqp.dispatch _ _ _) as [subs' acts].
  destruct H as [-> _]. reflexivity.
Defined.

(** C5, as the design document words it, fails: [Close] closes [quit]
    and sets the flag, neither of which [run] looks at before its
    [select]; with the broker refusing the dial, the loop of the closed
    multiplexer calls [run] three times on three cycles and is about to
    call it again. *)
Lemma closed_multiplexer_keeps_dialling :
  amqp.Close (amqp.mkHandle amqp.two_topics false) =
    Some (amqp.closed_two_topics,
          [amqp.close_subscription "a.1"; amqp.close_subscription "#"; amqp.close_quit]) /\
  ~ amqp.close_is_terminal amqp.hash_or_exact amqp.closed_two_topics
      [amqp.dial_refused; amqp.dial_refused; amqp.dial_refused] /\
  amqp.Run_loop amqp.hash_or_exact (amqp.subscriber amqp.closed_two_topics)
    [amqp.dial_refused; amqp.dial_refused; amqp.dial_refused] =
    (amqp.subscriber amqp.closed_two_topics, [amqp.Dial; amqp.Dial; amqp.Dial], 3,
     amqp.retrying).
Proof.
  split; [reflexivity|]. split; [|reflexivity].
  intros H. specialize (H eq_refl). vm_compute in H. lia.
Qed.

Lemma reconnect_retries_until_closed_witness :
  amqp.Run_loop amqp.hash_or_exact amqp.two_topics
    [amqp.dial_refused; amqp.connection_lost] =
    (let '(s2, acts2, n, st) :=
       amqp.Run_loop amqp.hash_or_exact amqp.two_topics [amqp.connection_lost] in
     (s2, [amqp.Dial] ++ acts2, S n, st)) /\
  (amqp.Run_loop amqp.hash_or_exact amqp.two_topics
     [amqp.closed_by_quit; amqp.connection_lost]).2 = amqp.stopped /\
  (amqp.Run_loop amqp.hash_or_exact amqp.two_topics
     [amqp.dial_refused; amqp.dial_refused]).1.2 = 2.
Proof.
  assert (Hok : ~ amqp.setup_fails amqp.two_topics amqp.closed_by_quit).
  { intros [[? [=]]|[[? [=]]|[[? [=]]|[(sub & _ & [? [=]])|[? [=]]]]]]. }
  assert (Hf : amqp.setup_fails amqp.two_topics amqp.dial_refused).
  { left. simpl. eauto. }
  pose proof (reconnect_retries_until_closed amqp.hash_or_exact amqp.two_topics
                amqp.dial_refused [amqp.connection_lost] []) as H1.
  pose proof (reconnect_retries_until_closed amqp.hash_or_exact amqp.two_topics
                amqp.closed_by_quit [amqp.connection_lost]
                [amqp.dial_refused; amqp.dial_refused]) as H2.
  cbv beta iota zeta delta [amqp.run amqp.dial_refused amqp.dial_err] in H1.
  destruct H1 as (Hretry & _ & _ & _).
  destruct (amqp.run amqp.hash_or_exact amqp.two_topics amqp.closed_by_quit)
    as [[s1 acts1] r] eqn:Erun.
  destruct H2 as (_ & Hstop & _ & Hall).
  split; [exact (proj2 (proj2 (Hretry (or_introl Hf))))|]. split.
  - destruct (Hstop Hok eq_refl) as [_ ->]. reflexivity.
  - specialize (Hall (Forall_cons_2 _ _ _ Hf (Forall_cons_2 _ _ _ Hf (Forall_nil_2 _)))).
    destruct (amqp.Run_loop amqp.hash_or_exact amqp.two_topics
                [amqp.dial_refused; amqp.dial_refused]) as [[[s' acts'] n] st].
    by destruct Hall as (_ & -> & _).
Defined.


(** ** The correlation router *)
Section RouterFacts.
Import router.
Variable Marshal : RoutedMessage -> option bytes.
Variable Unmarshal : bytes -> option RoutedMessage.

(** C8: a delivery that decodes to a message whose identifier has no
    entry in the table of pending requests is dropped: the handler
    returns [nil] and the router, its table of waiters and each
    waiter's channel included, is as before. *)
Theorem reply_for_unknown_id_is_dropped
    (body : bytes) (routedMessage : RoutedMessage) (sr : StandardRouter) :
  Unmarshal body = Some routedMessage ->
  pendingRequests sr !! GetId routedMessage = None ->
  reply_handler Unmarshal body sr = Some (sr, None).
Proof. intros Hbody Hid. unfold reply_handler. by rewrite Hbody, Hid. Qed.

(** C9: when [Marshal] fails, [Route] returns the error and no reply,
    and the router is as before: nothing was published and the table of
    pending requests is unchanged. *)
Theorem Route_marshal_error
    (sr : StandardRouter) (msg : RoutedMessage) (uuid : string)
    (before within late : list bytes) :
  Marshal (stamp sr uuid msg) = None ->
  Route Marshal Unmarshal sr msg uuid before within late =
    (sr, stamp sr uuid msg, route_returns None (Some (errors_New "MARSHAL ERROR"))).
Proof. intros Hm. unfold Route. by rewrite Hm. Qed.

Lemma reply_handler_other uuid body sr sr' e :
  (forall m, Unmarshal body = Some m -> GetId m <> uuid) ->
  reply_handler Unmarshal body sr = Some (sr', e) ->
  pendingRequests sr' !! uuid = pendingRequests sr !! uuid.
Proof.
  intros Hne. unfold reply_handler.
  destruct (Unmarshal body) as [m|]; [|by intros [= <- _]].
  specialize (Hne m eq_refl).
  destruct (pendingRequests sr !! GetId m) as [replyChan|]; [|by intros [= <- _]].
  case_decide; [|done]. intros [= <- _]. simpl. by rewrite lookup_insert_ne.
Qed.

Lemma deliver_all_app bodies1 bodies2 sr :
  deliver_all Unmarshal (bodies1 ++ bodies2) sr =
    deliver_all Unmarshal bodies1 sr ≫= deliver_all Unmarshal bodies2.
Proof.
  revert sr. induction bodies1 as [|body rest IH]; intros sr; simpl; [done|].
  destruct (reply_handler Unmarshal body sr) as [[sr' e]|]; [apply IH|done].
Qed.

(** While no reply for [uuid] comes in, its channel stays empty and the
    [select] ends with the timer. *)
Lemma await_timeout uuid within sr :
  pendingRequests sr !! uuid = Some [] ->
  no_reply_for Unmarshal uuid within ->
  is_Some (deliver_all Unmarshal within sr) ->
  exists sr', deliver_all Unmarshal within sr = Some sr' /\
    await Unmarshal uuid within sr = Some (sr', None, Some (errors_New "TIMEOUT"), []) /\
    pendingRequests sr' !! uuid = Some [].
Proof.
  revert sr. induction within as [|body rest IH]; intros sr Hempty Hno Hsome; simpl.
  - rewrite Hempty. by exists sr.
  - rewrite Hempty. simpl in Hsome.
    apply Forall_cons in Hno as [Hbody Hrest].
    destruct (reply_handler Unmarshal body sr) as [[sr1 e]|] eqn:Eh;
      [|by destruct Hsome].
    apply IH; [|done|done].
    by rewrite (reply_handler_other uuid body sr sr1 e Hbody Eh).
Qed.

(** X18: a call of [Route] whose request could be encoded, that found
    the mutex free for its insert, during whose wait no delivery decodes
    to a reply with the generated identifier, and from whose deliveries
    the reply handler returns (it sends with the mutex held, and [Route]
    needs the mutex for its [delete]), returns no reply and the error
    ["TIMEOUT"], and the table of pending requests has no entry for the
    identifier afterwards.  Whenever a call whose request could be
    encoded returns, on a reply or on the timer, the table has no entry
    for its identifier. *)
Theorem Route_timeout
    (sr sr0 : StandardRouter) (msg : RoutedMessage) (uuid : string)
    (payload : bytes) (before within late : list bytes) :
  Marshal (stamp sr uuid msg) = Some payload ->
  (deliver_all Unmarshal before sr = Some sr0 ->
   no_reply_for Unmarshal uuid within ->
   handler_returns Unmarshal (within ++ late)
     (issue sr0 (stamp sr uuid msg) payload) ->
   exists sr',
     Route Marshal Unmarshal sr msg uuid before within late =
       (sr', stamp sr uuid msg, route_returns None (Some (errors_New "TIMEOUT"))) /\
     pendingRequests sr' !! uuid = None) /\
  (forall sr' msg' response err,
     Route Marshal Unmarshal sr msg uuid before within late
       = (sr', msg', route_returns response err) ->
     pendingRequests sr' !! uuid = None).
Proof.
  intros Hm. split.
  - intros Hbefore Hno Hsome. unfold handler_returns in Hsome. unfold Route.
    rewrite Hm, Hbefore.
    change (GetId (stamp sr uuid msg)) with uuid.
    rewrite deliver_all_app in Hsome.
    set (sr1 := issue sr0 (stamp sr uuid msg) payload) in *.
    assert (Hreg : pendingRequests sr1 !! uuid = Some []).
    { subst sr1. unfold issue. simpl. apply lookup_insert_eq. }
    destruct (deliver_all Unmarshal within sr1) as [sr2|] eqn:E2;
      [|by destruct Hsome].
    destruct (await_timeout uuid within sr1 Hreg Hno) as (sr2' & Hd & -> & _);
      [by rewrite E2|].
    assert (sr2' = sr2) as -> by congruence. simpl in Hsome |- *.
    destruct (deliver_all Unmarshal late sr2) as [sr3|]; [|by destruct Hsome].
    eexists. split; [done|]. simpl. apply lookup_delete_eq.
  - intros sr' msg' response err. unfold Route. rewrite Hm.
    change (GetId (stamp sr uuid msg)) with uuid.
    destruct (deliver_all Unmarshal before sr) as [sr0'|]; [|done].
    destruct (await _ _ _ _) as [[[[sr2 resp] e] unseen]|]; [|done].
    destruct (deliver_all _ _ _) as [sr3|]; [|done].
    intros [= <- _ _ _]. simpl. apply lookup_delete_eq.
Qed.

(** C4 (where the code departs from it): the timer of a call has fired
    with no reply for its identifier, and before the call takes the
    mutex for its [delete] two deliveries that decode to replies with
    the identifier come in.  The first is put on the waiter's channel,
    which has room for one; the handler's send of the second finds the
    channel full and blocks with the mutex held, so the call blocks in
    [Lock]: it returns neither the timeout error nor anything else, and
    the entry stays in the table. *)
Theorem Route_hangs_on_late_replies
    (sr sr0 : StandardRouter) (msg m1 m2 : RoutedMessage) (uuid : string)
    (payload body1 body2 : bytes) (before within rest : list bytes) :
  Marshal (stamp sr uuid msg) = Some payload ->
  deliver_all Unmarshal before sr = Some sr0 ->
  no_reply_for Unmarshal uuid within ->
  handler_returns Unmarshal within (issue sr0 (stamp sr uuid msg) payload) ->
  Unmarshal body1 = Some m1 -> GetId m1 = uuid ->
  Unmarshal body2 = Some m2 -> GetId m2 = uuid ->
  exists sr',
    Route Marshal Unmarshal sr msg uuid before within (body1 :: body2 :: rest) =
      (sr', stamp sr uuid msg, route_hangs) /\
    pendingRequests sr' !! uuid = Some [].
Proof.
  intros Hm Hbefore Hno Hsome Hb1 Hid1 Hb2 Hid2. unfold Route. rewrite Hm, Hbefore.
  change (GetId (stamp sr uuid msg)) with uuid.
  set (sr1 := issue sr0 (stamp sr uuid msg) payload) in *.
  assert (Hreg : pendingRequests sr1 !! uuid = Some []).
  { subst sr1. unfold issue. simpl. apply lookup_insert_eq. }
  destruct (await_timeout uuid within sr1 Hreg Hno Hsome) as (sr2 & _ & -> & Hempty).
  exists sr2. split; [|done].
  cbn [app deliver_all]. unfold reply_handler at 1. rewrite Hb1, Hid1, Hempty.
  rewrite decide_True by (simpl; lia). cbn [deliver_all].
  unfold reply_handler at 1. rewrite Hb2, Hid2. cbn [with_pending pendingRequests].
  rewrite lookup_insert_eq. by rewrite decide_False by (simpl; lia).
Qed.
End RouterFacts.

Section RespawnFacts.
Import router.
Variable comes_back : Z -> bool.

Lemma Run_calls_iteration seconds trace :
  Run_calls (ev_Run :: ev_Sleep seconds :: trace) = S (Run_calls trace).
Proof.
  unfold Run_calls. rewrite filter_cons_True by done.
  by rewrite filter_cons_False by done.
Qed.

Lemma last_iteration (e1 e2 e : respawn_event) trace :
  last trace = Some e -> last (e1 :: e2 :: trace) = Some e.
Proof. intros H. by rewrite !last_cons, H. Qed.

(** From counter [i] the loop has [101 - i] iterations left. *)
Lemma respawn_loop_from (n : nat) :
  forall i : Z, (0 <= i <= 101)%Z -> n = Z.to_nat (101 - i) ->
  exists trace,
    (forall fuel, n < fuel -> respawn_loop comes_back fuel i = Some trace) /\
    Run_calls trace <= n /\
    (forall msg, ev_panic msg ∈ trace ->
       Run_calls trace = n /\
       last trace = Some (ev_panic "Final connection died. Respawning...")) /\
    ((forall j, (i <= j <= 100)%Z -> comes_back j = true) ->
       Run_calls trace = n /\
       last trace = Some (ev_panic "Final connection died. Respawning...")).
Proof.
  induction n as [|n IH]; intros i Hi Hn.
  - assert (i = 101%Z) as -> by lia.
    exists [ev_panic "Final connection died. Respawning..."].
    split; [|split; [|split]].
    + intros [|fuel] Hf; [lia|done].
    + done.
    + done.
    + done.
  - assert (Hle : (i <=? 100)%Z = true) by (apply Z.leb_le; lia).
    destruct (comes_back i) eqn:Eback.
    + destruct (IH (i + 1)%Z) as (trace & Hfuel & Hcalls & Hpanic & Hall); [lia|lia|].
      exists (ev_Run :: ev_Sleep (i `rem` 5)%Z :: trace).
      split; [|split; [|split]].
      * intros [|fuel] Hf; [lia|]. simpl. rewrite Hle, Eback.
        rewrite (Hfuel fuel) by lia. done.
      * rewrite Run_calls_iteration. lia.
      * intros msg Hin. rewrite Run_calls_iteration.
        apply elem_of_cons in Hin as [[=]|Hin].
        apply elem_of_cons in Hin as [[=]|Hin].
        destruct (Hpanic msg Hin) as [-> Hlast]. split; [done|].
        by apply last_iteration.
      * intros Hj. rewrite Run_calls_iteration.
        destruct Hall as [-> Hlast]; [intros j ?; apply Hj; lia|].
        split; [done|]. by apply last_iteration.
    + exists [ev_Run]. split; [|split; [|split]].
      * intros [|fuel] Hf; [lia|]. simpl. by rewrite Hle, Eback.
      * unfold Run_calls. simpl. lia.
      * intros msg Hin. apply elem_of_cons in Hin as [[=]|Hin]. inversion Hin.
      * intros Hj. rewrite Hj in Eback by lia. done.
Qed.

(** C10: whatever the calls of [subscription.Run] do, the goroutine
    calls it at most 101 times; it panics only after 101 calls, and
    when all 101 calls return the panic is the last thing it does. *)
Theorem respawn_at_most_101_runs :
  exists trace,
    (forall fuel, 101 < fuel -> respawn comes_back fuel = Some trace) /\
    Run_calls trace <= 101 /\
    (forall msg, ev_panic msg ∈ trace ->
       Run_calls trace = 101 /\
       last trace = Some (ev_panic "Final connection died. Respawning...")) /\
    ((forall i, (0 <= i <= 100)%Z -> comes_back i = true) ->
       Run_calls trace = 101 /\
       last trace = Some (ev_panic "Final connection died. Respawning...")).
Proof. apply (respawn_loop_from 101 0%Z); [lia|done]. Qed.
End RespawnFacts.

Lemma reply_for_unknown_id_is_dropped_witness :
  router.reply_handler router.id_Unmarshal (router.reply_for "zz") router.busy_router
  = Some (router.busy_router, None).
Proof.
  apply (reply_for_unknown_id_is_dropped router.id_Unmarshal (router.reply_for "zz")
           (router.mkRoutedMessage (Some "zz") None 0 0 [])); reflexivity.
Defined.

Lemma Route_marshal_error_witness :
  router.Route router.no_Marshal router.id_Unmarshal router.busy_router
    router.request_7_3 "u1" [router.reply_for "u0"; router.reply_for "u0"]
    [router.reply_for "u0"] []
  = (router.busy_router, router.stamp router.busy_router "u1" router.request_7_3,
     router.route_returns None (Some (errors_New "MARSHAL ERROR"))).
Proof. apply Route_marshal_error. reflexivity. Defined.

Lemma Route_timeout_witness :
  exists sr',
    router.Route router.id_Marshal router.id_Unmarshal router.busy_router
      router.request_7_3 "u1" [router.reply_for "u0"]
      [[]; router.reply_for "zz"] [router.reply_for "u1"]
    = (sr', router.stamp router.busy_router "u1" router.request_7_3,
       router.route_returns None (Some (errors_New "TIMEOUT"))) /\
    router.pendingRequests sr' !! "u1" = None.
Proof.
  assert (E : { sr0 | router.deliver_all router.id_Unmarshal [router.reply_for "u0"]
                        router.busy_router = Some sr0 })
    by (vm_compute; eexists; reflexivity).
  destruct E as [sr0 E].
  apply (proj1 (Route_timeout router.id_Marshal router.id_Unmarshal router.busy_router
                  sr0 router.request_7_3 "u1" (router.reply_for "u1")
                  [router.reply_for "u0"] [[]; router.reply_for "zz"]
                  [router.reply_for "u1"] eq_refl) E).
  - repeat constructor; intros m Hm; vm_compute in Hm; by simplify_eq.
  - vm_compute in E. injection E as <-. vm_compute. eauto.
Defined.

(** A router without a responder on which the timer of the call has
    fired, and two late replies. *)
Lemma Route_hangs_on_late_replies_witness :
  exists sr',
    router.Route router.id_Marshal router.id_Unmarshal (router.NewStandardRouter "r")
      router.request_7_3 "u1" [] [] [router.reply_for "u1"; router.reply_for "u1"]
    = (sr', router.stamp (router.NewStandardRouter "r") "u1" router.request_7_3,
       router.route_hangs) /\
    router.pendingRequests sr' !! "u1" = Some [].
Proof.
  apply (Route_hangs_on_late_replies router.id_Marshal router.id_Unmarshal
           (router.NewStandardRouter "r") (router.NewStandardRouter "r")
           router.request_7_3
           (router.mkRoutedMessage (Some "u1") None 0 0 [])
           (router.mkRoutedMessage (Some "u1") None 0 0 [])
           "u1" (router.reply_for "u1") (router.reply_for "u1") (router.reply_for "u1")
           [] [] []); try reflexivity.
  - constructor.
  - vm_compute. eauto.
Defined.

(** A reply with the generated identifier that comes in before the timer
    fires is what [Route] returns, and the waiter is gone afterwards. *)
Example Route_reply :
  let '(sr', _, r) :=
    router.Route router.id_Marshal router.id_Unmarshal router.busy_router
      router.request_7_3 "u1" [] [router.reply_for "u0"; router.reply_for "u1"] [] in
  r = router.route_returns (Some (router.mkRoutedMessage (Some "u1") None 0 0 [])) None /\
  router.pendingRequests sr' !! "u1" = None /\
  router.publisher sr' = [("7_3", router.reply_for "u1")].
Proof. vm_compute. done. Qed.

(** With every call of [Run] returning, the goroutine runs the
    subscription 101 times, sleeping [i % 5] seconds in between, and
    panics. *)
Example respawn_all_return :
  exists trace,
    router.respawn (fun _ => true) 102 = Some trace /\
    router.Run_calls trace = 101 /\
    take 4 trace = [router.ev_Run; router.ev_Sleep 0; router.ev_Run; router.ev_Sleep 1] /\
    last trace = Some (router.ev_panic "Final connection died. Respawning...").
Proof. eexists. split; [vm_compute; reflexivity|]. by vm_compute. Qed.

Lemma respawn_at_most_101_runs_witness :
  exists trace,
    router.respawn (fun _ => true) 102 = Some trace /\
    router.Run_calls trace = 101 /\
    last trace = Some (router.ev_panic "Final connection died. Respawning...").
Proof.
  destruct (respawn_at_most_101_runs (fun _ => true)) as (trace & Hfuel & _ & _ & Hall).
  exists trace. split; [apply Hfuel; lia | apply Hall; done].
Defined.

(** ** The courier *)
Section CourierFacts.
Import proto service.
Variable Marshal : Request -> option bytes.

Lemma lookup_last_snoc {A} (l : list A) (x : A) :
  (l ++ [x]) !! Z.to_nat (Z.of_nat (length (l ++ [x])) - 1) = Some x /\
  take (Z.to_nat (Z.of_nat (length (l ++ [x])) - 1)) (l ++ [x]) = l.
Proof.
  rewrite length_app. simpl.
  replace (Z.to_nat (Z.of_nat (length l + 1) - 1)) with (length l) by lia.
  split.
  - rewrite lookup_app_r by lia. by rewrite Nat.sub_diag.
  - by rewrite take_app_length.
Qed.

(** C2 (as the code has it): a response whose destination stack is not
    empty is put on the courier's channel by [Send], given room on the
    channel; the goroutine's turn on it pops the last entry of the stack
    and publishes the encoded response, which carries the remaining
    stack, to that entry's URI.  What is skipped and logged is a failure
    to encode the response: then nothing is published.  Neither step
    panics. *)
Theorem courier_pops_and_publishes
    (response : Request) (rt : Routing) (stack : list Route) (destination : Route)
    (c : Courier) :
  routing response = Some rt ->
  route_to rt = stack ++ [destination] ->
  length (responses c) < 10 ->
  (exists line,
     Courier_Send response c =
       returns (mkCourier (responses c ++ [response]) (published c) (logged c ++ [line]))) /\
  (forall waiting pub log,
     courier_turn Marshal (mkCourier (response :: waiting) pub log) =
       match Marshal (set_RouteTo response rt stack) with
       | Some body =>
           returns (mkCourier waiting (pub ++ [(GetUri destination, body)])
                      ((log ++ [log_publishing response]) ++ [log_published]))
       | None =>
           returns (mkCourier waiting pub
                      ((log ++ [log_publishing response]) ++ [log_marshal_failed]))
       end).
Proof.
  intros Hrt Hstack Hroom. split.
  - unfold Courier_Send. rewrite Hrt, Hstack.
    destruct stack as [|first rest]; simpl; rewrite decide_True by done; by eexists.
  - intros waiting pub log. unfold courier_turn. simpl. rewrite Hrt, Hstack.
    destruct (lookup_last_snoc stack destination) as [-> ->].
    rewrite decide_False by (rewrite length_app; simpl; lia).
    by destruct (Marshal _).
Qed.
End CourierFacts.

(** C2, as the design document words it, fails on an empty destination
    stack: [Send] panics on [RouteTo[0]], and the goroutine's turn on such
    a response would panic on [RouteTo[-1]] instead of skipping it. *)
Lemma courier_faults_on_empty_stack :
  ~ service.skips_empty_stack service.stack_Marshal (service.reply_to []) service.NewCourier
  /\ service.Courier_Send (service.reply_to []) service.NewCourier
     = service.panics service.index_out_of_range service.NewCourier
  /\ service.courier_turn service.stack_Marshal
       (service.mkCourier [service.reply_to []] [] [])
     = service.panics service.index_out_of_range
         (service.mkCourier [] [] [service.log_publishing (service.reply_to [])]).
Proof.
  split; [|split; reflexivity].
  intros [[c' Hsend] _]. discriminate Hsend.
Qed.

Lemma courier_pops_and_publishes_witness :
  (exists line,
     service.Courier_Send (service.reply_to ["a"; "b"]) service.NewCourier =
       service.returns (service.mkCourier [service.reply_to ["a"; "b"]] [] [line])) /\
  service.courier_turn service.stack_Marshal
    (service.mkCourier [service.reply_to ["a"; "b"]] [] [])
  = service.returns
      (service.mkCourier [] [("b", String.list_byte_of_string "u1>a")]
         [service.log_publishing (service.reply_to ["a"; "b"]); service.log_published]) /\
  service.courier_turn service.never_Marshal
    (service.mkCourier [service.reply_to ["a"; "b"]] [] [])
  = service.returns
      (service.mkCourier [] []
         [service.log_publishing (service.reply_to ["a"; "b"]); service.log_marshal_failed]).
Proof.
  assert (Hroom : length (service.responses service.NewCourier) < 10) by (simpl; lia).
  pose proof (fun M => courier_pops_and_publishes M (service.reply_to ["a"; "b"])
                (proto.mkRouting [proto.mkRoute (Some "a") None; proto.mkRoute (Some "b") None] [])
                [proto.mkRoute (Some "a") None] (proto.mkRoute (Some "b") None)
                service.NewCourier eq_refl eq_refl Hroom) as H.
  split; [exact (proj1 (H service.stack_Marshal))|].
  split.
  - exact (proj2 (H service.stack_Marshal) [] [] []).
  - exact (proj2 (H service.never_Marshal) [] [] []).
Defined.

(** ** The in-flight work counter and the shutdown *)
Section ShutdownFacts.
Import service.

Lemma process_step_counts e p p' :
  process_step e p = Some p' -> counts_in_flight p -> counts_in_flight p'.
Proof.
  unfold process_step, counts_in_flight. intros Hstep Hinv.
  case_decide; [done|].
  destruct e as [id|id| | |].
  - case_decide; [done|]. injection Hstep as <-. simpl.
    rewrite size_union by set_solver. rewrite size_singleton. lia.
  - case_decide; [|done]. injection Hstep as <-. simpl.
    assert (Hsub : ({[id]} : gset nat) ⊆ in_flight p) by set_solver.
    rewrite (size_difference _ _ Hsub), size_singleton.
    apply subseteq_size in Hsub. rewrite size_singleton in Hsub. lia.
  - destruct (stage p); by injection Hstep as <-.
  - destruct (stage p); try done. case_decide; by injection Hstep as <-.
  - destruct (stage p); try done. by injection Hstep as <-.
Qed.

Lemma process_steps_snoc es e p :
  process_steps (es ++ [e]) p = process_steps es p ≫= process_step e.
Proof.
  revert p. induction es as [|e' es IH]; intros p; simpl.
  - by destruct (process_step e p).
  - destruct (process_step e' p); [apply IH|done].
Qed.

Lemma process_steps_counts es p p' :
  process_steps es p = Some p' -> counts_in_flight p -> counts_in_flight p'.
Proof.
  revert p. induction es as [|e es IH]; intros p; simpl.
  - by intros [= <-].
  - destruct (process_step e p) as [p1|] eqn:E; [|done].
    intros Hsteps Hinv. eapply IH; [done|]. by eapply process_step_counts.
Qed.

(** The goroutine of [Run] is past the signal only if a signal came, and
    past the loop only if one of its turns found the counter at zero. *)
Lemma drain_history es p :
  process_steps es Service_Run = Some p ->
  (stage p <> serving -> exit_signal ∈ es) /\
  (stage p = leaving \/ stage p = exited ->
   exists before after p0,
     es = before ++ poll :: after /\
     process_steps before Service_Run = Some p0 /\
     exit_signal ∈ before /\
     stage p0 = draining /\
     consumedWorkCount p0 = 0%Z /\
     in_flight p0 = ∅).
Proof.
  revert p. induction es as [|e es IH] using rev_ind; intros p.
  - intros [= <-]. simpl. split; [done|]. by intros [|].
  - rewrite process_steps_snoc.
    destruct (process_steps es Service_Run) as [p1|] eqn:E1; [|done]. simpl.
    destruct (IH p1 eq_refl) as [Hsig Hpast].
    assert (Hcount : counts_in_flight p1)
      by (eapply process_steps_counts; [exact E1|done]).
    assert (Hkeep : stage p1 = leaving \/ stage p1 = exited ->
      exists before after p0,
        es ++ [e] = before ++ poll :: after /\
        process_steps before Service_Run = Some p0 /\
        exit_signal ∈ before /\ stage p0 = draining /\
        consumedWorkCount p0 = 0%Z /\ in_flight p0 = ∅).
    { intros Hst. destruct (Hpast Hst) as (before & after & p0 & -> & ?).
      exists before, (after ++ [e]), p0. by rewrite <- app_assoc. }
    unfold process_step. case_decide as Hex; [done|].
    destruct e as [id|id| | |].
    + case_decide; [done|]. intros [= <-]. simpl. split.
      * intros Hs. apply elem_of_app. left. auto.
      * done.
    + case_decide; [|done]. intros [= <-]. simpl. split.
      * intros Hs. apply elem_of_app. left. auto.
      * done.
    + intros Hstep. split.
      * intros _. apply elem_of_app. right. left.
      * destruct (stage p1) eqn:Est; injection Hstep as <-; simpl.
        all: try rewrite Est. all: try (by intros [|]). all: done.
    + destruct (stage p1) eqn:Est; try done.
      case_decide as Hzero; intros [= <-]; simpl.
      * split; [intros _; apply elem_of_app; left; by apply Hsig|].
        intros _. exists es, [], p1.
        assert (Hz : consumedWorkCount p1 = 0%Z).
        { unfold getConsumerWorkCount in Hzero. unfold counts_in_flight in Hcount. lia. }
        repeat split; try done.
        -- by apply Hsig.
        -- unfold counts_in_flight in Hcount. rewrite Hz in Hcount.
           apply leibniz_equiv, size_empty_iff. lia.
      * rewrite Est. split; [|by intros [|]].
        intros _. apply elem_of_app. left. by apply Hsig.
    + destruct (stage p1) eqn:Est; try done. intros [= <-]. simpl. split.
      * intros _. apply elem_of_app. left. by apply Hsig.
      * intros _. apply Hkeep. by left.
Qed.

Lemma begun_cons e es : begun (e :: es) = (if is_begin e then 1 else 0) + begun es.
Proof.
  unfold begun. destruct (is_begin e) eqn:E.
  - by rewrite filter_cons_True.
  - rewrite filter_cons_False; [done|]. by rewrite E.
Qed.

Lemma ended_cons e es : ended (e :: es) = (if is_end e then 1 else 0) + ended es.
Proof.
  unfold ended. destruct (is_end e) eqn:E.
  - by rewrite filter_cons_True.
  - rewrite filter_cons_False; [done|]. by rewrite E.
Qed.

(** Every event moves the counter by what it is: up by one for an
    invocation that begins, down by one for one that ends. *)
Lemma process_step_tally e p p' :
  process_step e p = Some p' ->
  consumedWorkCount p' =
    (consumedWorkCount p + (if is_begin e then 1 else 0) - (if is_end e then 1 else 0))%Z.
Proof.
  unfold process_step. case_decide; [done|].
  destruct e as [id|id| | |]; simpl.
  - case_decide; [done|]. intros [= <-]. simpl. lia.
  - case_decide; [|done]. intros [= <-]. simpl. lia.
  - destruct (stage p); intros [= <-]; simpl; lia.
  - destruct (stage p); try done. case_decide; intros [= <-]; simpl; lia.
  - destruct (stage p); try done. intros [= <-]; simpl; lia.
Qed.

Lemma process_steps_tally es p p' :
  process_steps es p = Some p' ->
  consumedWorkCount p' =
    (consumedWorkCount p + Z.of_nat (begun es) - Z.of_nat (ended es))%Z.
Proof.
  revert p. induction es as [|e es IH]; intros p; simpl.
  - intros [= <-]. unfold begun, ended. simpl. lia.
  - destruct (process_step e p) as [p1|] eqn:E; [|done]. intros Hsteps.
    rewrite (IH p1 Hsteps), (process_step_tally e p p1 E), begun_cons, ended_cons.
    destruct (is_begin e), (is_end e); lia.
Qed.

(** C3: with the counter incremented when a handler invocation begins
    and decremented when it ends, in every run of the process the counter
    is the number of invocations begun less the number ended, which is
    the number in flight, so it is never negative.  As long as the
    process has not exited, an invocation that begins adds one to the
    counter and one that ends takes one off.  After the termination
    signal, a turn of the drain loop of [Run] that finds the counter
    above zero leaves the process draining, from where it cannot exit;
    and the process has exited only if a termination signal came and a
    later turn of the loop found the counter at zero, with no invocation
    in flight. *)
Theorem counter_gates_shutdown (es : list process_event) (p : process) :
  process_steps es Service_Run = Some p ->
  consumedWorkCount p = (Z.of_nat (begun es) - Z.of_nat (ended es))%Z /\
  consumedWorkCount p = Z.of_nat (size (in_flight p)) /\
  (0 <= consumedWorkCount p)%Z /\
  (forall id, stage p <> exited -> id ∉ in_flight p ->
     process_step (handler_begins id) p =
       Some (mkProcess (stillConsuming p) (consumedWorkCount p + 1)
               ({[id]} ∪ in_flight p) (stage p))) /\
  (forall id, stage p <> exited -> id ∈ in_flight p ->
     process_step (handler_ends id) p =
       Some (mkProcess (stillConsuming p) (consumedWorkCount p - 1)
               (in_flight p ∖ {[id]}) (stage p))) /\
  (stage p = draining -> (0 < consumedWorkCount p)%Z ->
     process_step poll p = Some p /\ process_step sleep_over p = None) /\
  (stage p = draining -> consumedWorkCount p = 0%Z ->
     process_steps [poll; sleep_over] p =
       Some (mkProcess (stillConsuming p) 0 (in_flight p) exited)) /\
  (stage p = exited ->
   exists before after p0,
     es = before ++ poll :: after /\
     process_steps before Service_Run = Some p0 /\
     exit_signal ∈ before /\
     stage p0 = draining /\
     consumedWorkCount p0 = 0%Z /\
     in_flight p0 = ∅).
Proof.
  intros Hrun.
  assert (Hcount : counts_in_flight p) by (eapply process_steps_counts; [exact Hrun|done]).
  split; [by rewrite (process_steps_tally es _ p Hrun)|].
  split; [exact Hcount|]. split; [unfold counts_in_flight in Hcount; lia|].
  split; [|split; [|split; [|split]]].
  - intros id Hst Hid. unfold process_step, begin_work.
    rewrite decide_False by done. by rewrite decide_False.
  - intros id Hst Hid. unfold process_step, end_work.
    rewrite decide_False by done. by rewrite decide_True.
  - intros Hst Hpos. unfold process_step, getConsumerWorkCount. rewrite Hst.
    rewrite decide_False by done. rewrite decide_False by lia. by destruct p.
  - intros Hst Hzero. simpl. unfold process_step at 1. unfold getConsumerWorkCount.
    rewrite Hst. rewrite decide_False by done. rewrite decide_True by lia.
    unfold process_step. cbn [stage]. rewrite decide_False by done.
    cbn [stillConsuming consumedWorkCount in_flight]. by rewrite Hzero.
  - intros Hexit. apply (drain_history es p Hrun). by right.
Qed.
End ShutdownFacts.

(** ** The heartbeat courier *)
Section HeartbeatFacts.
Import proto service.
Context {S : Type}.
Variable parent_Send : ResponseSender S.
Variable GenerateResponse : Request -> Request -> Request.
Variable RouteToUri : string -> Routing.
Variable request : Request.

Local Abbreviation step_of := (take_step parent_Send GenerateResponse RouteToUri request).
Local Abbreviation steps_of := (take_steps parent_Send GenerateResponse RouteToUri request).
Local Abbreviation the_heartbeat := (heartbeat GenerateResponse RouteToUri request).

Lemma heartbeats_snoc log x :
  heartbeats (log ++ [x]) = heartbeats log + (if is_heartbeat x then 1 else 0).
Proof.
  unfold heartbeats. rewrite filter_app, length_app. f_equal.
  destruct (is_heartbeat x) eqn:E.
  - by rewrite filter_cons_True.
  - rewrite filter_cons_False; [done|]. by rewrite E.
Qed.

Lemma has_completed_snoc log x :
  has_completed (log ++ [x]) = has_completed log || is_completed_reply x.
Proof. unfold has_completed. rewrite existsb_app. simpl. by rewrite orb_false_r. Qed.

Lemma late_heartbeats_snoc log x :
  late_heartbeats (log ++ [x]) =
    late_heartbeats log + (if has_completed log && is_heartbeat x then 1 else 0).
Proof.
  induction log as [|y log IH]; simpl.
  - by destruct (is_completed_reply x).
  - destruct (is_completed_reply y); simpl; [apply heartbeats_snoc|apply IH].
Qed.

Lemma late_heartbeats_none log :
  has_completed log = false -> late_heartbeats log = 0.
Proof.
  induction log as [|y log IH]; simpl; [done|].
  destruct (is_completed_reply y); simpl; [done|apply IH].
Qed.

Lemma rhc_forward_quit response (h h' : RequestHeartbeatCourier S) :
  (rhc_forward parent_Send response h = returns h' \/
   exists r, rhc_forward parent_Send response h = panics r h') ->
  quit h' = quit h.
Proof.
  unfold rhc_forward.
  destruct (parent_Send response (parent h)) as [p|r0 p|];
    intros [H|[r1 H]]; by simplify_eq.
Qed.

Lemma rhc_signal_quit response (h h' : RequestHeartbeatCourier S) :
  rhc_signal response h = returns h' ->
  (quit h <> [] -> quit h' <> []) /\ (GetCompleted response = true -> quit h' <> []).
Proof.
  unfold rhc_signal. destruct (GetCompleted response).
  - case_decide; [|done]. intros [= <-]. simpl.
    split; intros _; by destruct (quit h).
  - intros [= <-]. done.
Qed.

Lemma steady_start (p : S) : steady the_heartbeat (NewRequestHeartbeatCourier p).
Proof.
  split; simpl; [done|done|lia|]. intros x Hx. inversion Hx.
Qed.

Lemma stopping_at_select (i : invocation S) :
  stopping i -> emitter_pc i = at_select -> quit (rhc i) <> [].
Proof. intros [H|[H|H]] Hpc; [done|congruence..]. Qed.

Lemma take_step_steady e i i' :
  step_of e i = Some i' -> steady the_heartbeat i -> steady the_heartbeat i'.
Proof.
  intros Hstep [Hc Hs Hl He]. destruct e as [ms| | |response|]; simpl in Hstep.
  - (* timer *)
    destruct (emitter_pc i) eqn:Epc; try done.
    destruct (quit (rhc i)) eqn:Eq; [|done].
    case_decide; [|done]. injection Hstep as <-.
    assert (Hnone : has_completed (handed i) = false).
    { destruct (has_completed (handed i)) eqn:E; [|done].
      destruct (stopping_at_select i (Hc eq_refl) Epc). done. }
    split; simpl.
    + by rewrite Hnone.
    + intros response Hsend Hcompl.
      destruct (stopping_at_select i (Hs response Hsend Hcompl) Epc). done.
    + rewrite Hnone, late_heartbeats_none by done. simpl. lia.
    + done.
  - (* beat *)
    destruct (emitter_pc i) eqn:Epc; try done.
    destruct (rhc_forward parent_Send the_heartbeat (rhc i)) as [h|r h|] eqn:Ef;
      [| |done]; injection Hstep as <-.
    + assert (Hq : quit h = quit (rhc i)) by (eapply rhc_forward_quit; eauto).
      split; simpl.
      * rewrite has_completed_snoc. simpl. rewrite orb_false_r. intros Hcompl.
        unfold stopping. simpl. left. rewrite Hq.
        destruct (Hc Hcompl) as [?|[?|?]]; [done|congruence..].
      * intros response Hsend Hcompl. unfold stopping. simpl. left. rewrite Hq.
        destruct (Hs response Hsend Hcompl) as [?|[?|?]]; [done|congruence..].
      * rewrite late_heartbeats_snoc, has_completed_snoc. simpl.
        rewrite orb_false_r, andb_false_r, andb_true_r.
        simpl in Hl. rewrite andb_true_r in Hl. lia.
      * intros x Hx Hhb. apply elem_of_app in Hx as [Hx|Hx]; [by apply He|].
        apply list_elem_of_singleton in Hx as ->. done.
    + split; simpl.
      * intros _. by right; right.
      * intros _ _ _. by right; right.
      * rewrite andb_false_r. simpl in Hl. lia.
      * done.
  - (* take_quit *)
    destruct (emitter_pc i) eqn:Epc; try done.
    destruct (quit (rhc i)) eqn:Eq; [done|]. injection Hstep as <-.
    split; simpl.
    + intros _. by right; left.
    + intros _ _ _. by right; left.
    + rewrite andb_false_r. simpl in Hl. rewrite andb_false_r in Hl. lia.
    + done.
  - (* signal *)
    assert (Hgo : emitter_pc i <> emitter_panicked /\ sending i = None /\
              exists h, rhc_signal response (rhc i) = returns h /\
                i' = mkInvocation h (emitter_pc i) (Some response) (handed i)).
    { destruct (emitter_pc i), (sending i); try done;
        destruct (rhc_signal response (rhc i)) eqn:E; try done;
        injection Hstep as <-; eauto. }
    destruct Hgo as (Hpc & Hnone & h & Hsig & ->).
    destruct (rhc_signal_quit response (rhc i) h Hsig) as [Hkeep Hput].
    split; simpl.
    + intros Hcompl. destruct (Hc Hcompl) as [?|[?|?]];
        [left; auto | right; by left | right; by right].
    + intros response' [= <-] Hcompl. left. auto.
    + done.
    + done.
  - (* forward *)
    assert (Hgo : emitter_pc i <> emitter_panicked /\
              exists response, sending i = Some response /\
                ((exists h, rhc_forward parent_Send response (rhc i) = returns h /\
                    i' = mkInvocation h (emitter_pc i) None
                           (handed i ++ [(by_handler, response)])) \/
                 (exists r h, rhc_forward parent_Send response (rhc i) = panics r h /\
                    i' = mkInvocation h (emitter_pc i) None (handed i)))).
    { destruct (emitter_pc i), (sending i) as [response|]; try done;
        (split; [done|]); exists response; (split; [done|]);
        destruct (rhc_forward parent_Send response (rhc i)) eqn:E; try done;
        injection Hstep as <-; eauto. }
    destruct Hgo as (Hpc & response & Hsend & [(h & Hf & ->)|(r & h & Hf & ->)]).
    + assert (Hq : quit h = quit (rhc i)) by (eapply rhc_forward_quit; eauto).
      assert (Hstop : stopping i -> stopping (mkInvocation h (emitter_pc i) None
                                     (handed i ++ [(by_handler, response)]))).
      { unfold stopping. simpl. by rewrite Hq. }
      split; simpl.
      * rewrite has_completed_snoc. intros Hcompl. apply Hstop.
        apply orb_true_iff in Hcompl as [Hcompl|Hcompl]; [by apply Hc|].
        by apply (Hs response).
      * done.
      * rewrite late_heartbeats_snoc, has_completed_snoc.
        simpl (is_heartbeat _). rewrite andb_false_r, Nat.add_0_r.
        destruct (has_completed (handed i)) eqn:E; [exact Hl|].
        rewrite late_heartbeats_none by done.
        destruct (is_completed_reply _), (is_timer_fired _); simpl; lia.
      * intros x Hx Hhb. apply elem_of_app in Hx as [Hx|Hx]; [by apply He|].
        apply list_elem_of_singleton in Hx as ->. done.
    + assert (Hq : quit h = quit (rhc i)) by (eapply rhc_forward_quit; eauto).
      split; simpl; try done.
      * intros Hcompl. unfold stopping. simpl. rewrite Hq. by apply Hc.
Qed.

Lemma take_steps_steady es i i' :
  steps_of es i = Some i' -> steady the_heartbeat i -> steady the_heartbeat i'.
Proof.
  revert i. induction es as [|e es IH]; intros i; simpl.
  - by intros [= <-].
  - destruct (step_of e i) as [i1|] eqn:E; [|done].
    intros Hsteps Hi. eapply IH; [done|]. by eapply take_step_steady.
Qed.

Lemma timers_cons e es : timers (e :: es) = (if is_timer e then 1 else 0) + timers es.
Proof.
  unfold timers. destruct (is_timer e) eqn:E.
  - by rewrite filter_cons_True.
  - rewrite filter_cons_False; [done|]. by rewrite E.
Qed.

Lemma beats_cons e es : beats (e :: es) = (if is_beat e then 1 else 0) + beats es.
Proof.
  unfold beats. destruct (is_beat e) eqn:E.
  - by rewrite filter_cons_True.
  - rewrite filter_cons_False; [done|]. by rewrite E.
Qed.

Lemma completed_signals_cons e es :
  completed_signals (e :: es) =
    (if is_completed_signal e then 1 else 0) + completed_signals es.
Proof.
  unfold completed_signals. destruct (is_completed_signal e) eqn:E.
  - by rewrite filter_cons_True.
  - rewrite filter_cons_False; [done|]. by rewrite E.
Qed.

(** Every completed signal sits on [quit] or was taken by the
    goroutine. *)
Lemma take_step_signals e i i' :
  step_of e i = Some i' ->
  length (quit (rhc i)) <= 1 ->
  (if is_completed_signal e then 1 else 0) + length (quit (rhc i)) + returned_count i =
    length (quit (rhc i')) + returned_count i' /\
  length (quit (rhc i')) <= 1.
Proof.
  unfold returned_count. intros Hstep Hlen.
  destruct e as [ms| | |response|]; simpl in Hstep |- *.
  - destruct (emitter_pc i) eqn:Epc; try done.
    destruct (quit (rhc i)) eqn:Eq; [|done]. case_decide; [|done].
    injection Hstep as <-. simpl. rewrite Eq. simpl. lia.
  - destruct (emitter_pc i) eqn:Epc; try done.
    destruct (rhc_forward parent_Send _ (rhc i)) as [h|r h|] eqn:Ef; [| |done];
      injection Hstep as <-; simpl;
      rewrite (rhc_forward_quit _ (rhc i) h) by eauto; lia.
  - destruct (emitter_pc i) eqn:Epc; try done.
    destruct (quit (rhc i)) eqn:Eq; [done|]. injection Hstep as <-. simpl in *. lia.
  - assert (Hgo : exists h, rhc_signal response (rhc i) = returns h /\
              i' = mkInvocation h (emitter_pc i) (Some response) (handed i)).
    { destruct (emitter_pc i), (sending i); try done;
        destruct (rhc_signal response (rhc i)) eqn:E; try done;
        injection Hstep as <-; eauto. }
    destruct Hgo as (h & Hsig & ->). simpl. unfold rhc_signal in Hsig.
    destruct (GetCompleted response).
    + case_decide; [|done]. injection Hsig as <-. simpl. rewrite length_app. simpl. lia.
    + injection Hsig as <-. lia.
  - assert (Hgo : exists response h,
              (rhc_forward parent_Send response (rhc i) = returns h \/
               exists r, rhc_forward parent_Send response (rhc i) = panics r h) /\
              emitter_pc i' = emitter_pc i /\ rhc i' = h).
    { destruct (emitter_pc i), (sending i) as [response|]; try done;
        destruct (rhc_forward parent_Send response (rhc i)) eqn:E; try done;
        injection Hstep as <-; eauto 10. }
    destruct Hgo as (response & h & Hf & -> & ->).
    rewrite (rhc_forward_quit response (rhc i) h Hf). lia.
Qed.

Lemma take_steps_signals es i i' :
  steps_of es i = Some i' ->
  length (quit (rhc i)) <= 1 ->
  completed_signals es + length (quit (rhc i)) + returned_count i =
    length (quit (rhc i')) + returned_count i' /\
  length (quit (rhc i')) <= 1.
Proof.
  revert i. induction es as [|e es IH]; intros i; simpl.
  - intros [= <-] Hlen. unfold completed_signals. simpl. lia.
  - destruct (step_of e i) as [i1|] eqn:E; [|done]. intros Hsteps Hlen.
    destruct (take_step_signals e i i1 E Hlen) as [H1 Hlen1].
    destruct (IH i1 Hsteps Hlen1) as [H2 Hlen2].
    rewrite completed_signals_cons. lia.
Qed.

Lemma completed_signals_none es :
  (forall response, signal response ∈ es -> GetCompleted response = false) ->
  completed_signals es = 0.
Proof.
  induction es as [|e es IH]; intros Hall; [done|].
  rewrite completed_signals_cons, IH by (intros response Hin; apply Hall; by right).
  destruct e as [| | |response|]; simpl; try done.
  by rewrite (Hall response) by left.
Qed.

Lemma completed_signals_some es response :
  signal response ∈ es -> GetCompleted response = true -> 1 <= completed_signals es.
Proof.
  induction es as [|e es IH]; intros Hin Hcompl; [by apply not_elem_of_nil in Hin|].
  rewrite completed_signals_cons. apply elem_of_cons in Hin as [<-|Hin].
  - simpl. rewrite Hcompl. lia.
  - specialize (IH Hin Hcompl). lia.
Qed.

(** Every timer that fires leads to a heartbeat: it is pending, it was
    handed to the parent, or the goroutine panicked in handing it over. *)
Lemma take_step_paced e i i' :
  step_of e i = Some i' ->
  waited e /\
  heartbeats (handed i') + (if is_timer_fired (emitter_pc i') then 1 else 0) +
    (if is_emitter_panicked (emitter_pc i') then 1 else 0) =
  heartbeats (handed i) + (if is_timer_fired (emitter_pc i) then 1 else 0) +
    (if is_emitter_panicked (emitter_pc i) then 1 else 0) + (if is_timer e then 1 else 0).
Proof.
  destruct e as [ms| | |response|]; simpl.
  - destruct (emitter_pc i) eqn:Epc; try done.
    destruct (quit (rhc i)); [|done]. case_decide; [|done].
    intros [= <-]. simpl. split; [done|lia].
  - destruct (emitter_pc i) eqn:Epc; try done.
    destruct (rhc_forward _ _ _); [| |done]; intros [= <-]; simpl.
    + rewrite heartbeats_snoc. simpl. split; [done|lia].
    + split; [done|lia].
  - destruct (emitter_pc i) eqn:Epc; try done.
    destruct (quit (rhc i)); [done|]. intros [= <-]. simpl. split; [done|lia].
  - destruct (emitter_pc i) eqn:Epc, (sending i); try done;
      destruct (rhc_signal _ _); try done; intros [= <-]; simpl;
      (split; [done|lia]).
  - destruct (emitter_pc i) eqn:Epc, (sending i); try done;
      destruct (rhc_forward _ _ _); try done; intros [= <-]; simpl;
      rewrite ?heartbeats_snoc; simpl; (split; [done|lia]).
Qed.

Lemma take_steps_paced es i i' :
  steps_of es i = Some i' ->
  Forall waited es /\
  heartbeats (handed i') + (if is_timer_fired (emitter_pc i') then 1 else 0) +
    (if is_emitter_panicked (emitter_pc i') then 1 else 0) =
  heartbeats (handed i) + (if is_timer_fired (emitter_pc i) then 1 else 0) +
    (if is_emitter_panicked (emitter_pc i) then 1 else 0) + timers es.
Proof.
  revert i. induction es as [|e es IH]; intros i; simpl.
  - intros [= <-]. split; [apply Forall_nil_2|]. unfold timers; simpl; lia.
  - destruct (step_of e i) as [i1|] eqn:E; [|done]. intros Hsteps.
    destruct (take_step_paced e i i1 E) as (Hw & Hpc).
    destruct (IH i1 Hsteps) as (Hws & Hpcs).
    rewrite timers_cons. split; [by constructor|lia].
Qed.

(** C6 (as the code has it): in every run of an invocation, whatever the
    parent sender does, every response the goroutine hands to the parent
    is the heartbeat built for the request, which is not completed when
    [GenerateResponse] leaves the flag of its template alone.  Every
    timer the goroutine takes has waited 500ms, and every timer leads to
    one heartbeat: the heartbeats handed to the parent, the one that is
    pending and the one on which the goroutine panicked add up to the
    timers taken.  As long as no completed response has gone into
    [Send], [quit] is empty and the goroutine has not returned: in its
    [select] it takes the timer once 500ms have passed and not before,
    and with the timer taken it hands the heartbeat to the parent as
    soon as the parent's [Send] returns.  Once a completed response has
    gone into [Send], the goroutine takes no timer any more, and in its
    [select] it takes the signal and returns; so at most one heartbeat,
    one whose timer had fired before the signal, is handed to the parent
    after the first completed reply of the handler. *)
Theorem heartbeats_end_with_completed
    (p : S) (es : list step) (i : invocation S) :
  steps_of es (NewRequestHeartbeatCourier p) = Some i ->
  (forall x, x ∈ handed i -> is_heartbeat x = true -> x.2 = the_heartbeat) /\
  ((forall req resp, completed (GenerateResponse req resp) = completed resp) ->
   GetCompleted the_heartbeat = false) /\
  (forall ms, timer ms ∈ es -> (500 <= ms)%Z) /\
  heartbeats (handed i) + (if is_timer_fired (emitter_pc i) then 1 else 0) +
    (if is_emitter_panicked (emitter_pc i) then 1 else 0) = timers es /\
  ((forall response, signal response ∈ es -> GetCompleted response = false) ->
   quit (rhc i) = [] /\ emitter_pc i <> emitter_returned /\
   (emitter_pc i = at_select ->
    forall ms,
      step_of (timer ms) i =
        if decide (500 <= ms)%Z
        then Some (mkInvocation (rhc i) timer_fired (sending i) (handed i))
        else None)) /\
  (emitter_pc i = timer_fired ->
   forall p', parent_Send the_heartbeat (parent (rhc i)) = returns p' ->
     step_of beat i =
       Some (mkInvocation (mkRHC p' (quit (rhc i))) at_select (sending i)
               (handed i ++ [(by_emitter, the_heartbeat)]))) /\
  ((exists response, signal response ∈ es /\ GetCompleted response = true) ->
   (forall ms, step_of (timer ms) i = None) /\
   (emitter_pc i = at_select ->
    exists i', step_of take_quit i = Some i' /\ emitter_pc i' = emitter_returned)) /\
  late_heartbeats (handed i) <= 1 /\
  (has_completed (handed i) = true -> emitter_pc i = at_select ->
   (forall ms, step_of (timer ms) i = None) /\
   exists i', step_of take_quit i = Some i' /\ emitter_pc i' = emitter_returned).
Proof.
  intros Hrun.
  destruct (take_steps_steady es _ i Hrun (steady_start p)) as [Hc Hs Hl He].
  destruct (take_steps_paced es _ i Hrun) as (Hw & Hpc).
  destruct (take_steps_signals es _ i Hrun) as [Hsig Hlen]; [simpl; lia|].
  unfold returned_count in Hsig. simpl in Hsig, Hpc.
  assert (Hstop : quit (rhc i) <> [] -> emitter_pc i = at_select ->
            (forall ms, step_of (timer ms) i = None) /\
            exists i', step_of take_quit i = Some i' /\ emitter_pc i' = emitter_returned).
  { intros Hq Hpc'. split.
    - intros ms. simpl. rewrite Hpc'. by destruct (quit (rhc i)).
    - simpl. rewrite Hpc'. destruct (quit (rhc i)); [done|]. by eexists. }
  split; [exact He|]. split; [|split; [|split; [|split; [|split; [|split; [|split]]]]]].
  - intros Hkeep. unfold GetCompleted, heartbeat. by rewrite Hkeep.
  - intros ms Hin. rewrite Forall_forall in Hw. exact (Hw _ Hin).
  - lia.
  - intros Hnone. rewrite (completed_signals_none es Hnone) in Hsig.
    assert (Hq : quit (rhc i) = []) by (destruct (quit (rhc i)); [done|simpl in Hsig; lia]).
    split; [exact Hq|]. split.
    + intros Hpc'. rewrite Hpc' in Hsig. simpl in Hsig. lia.
    + intros Hpc' ms. simpl. rewrite Hpc', Hq. unfold heartbeat_interval_ms.
      by destruct (decide (500 <= ms)%Z).
  - intros Hpc' p' Hsend. simpl. rewrite Hpc'. unfold rhc_forward. by rewrite Hsend.
  - intros (response & Hin & Hcompl).
    pose proof (completed_signals_some es response Hin Hcompl) as Hone.
    destruct (emitter_pc i) eqn:Hpc';
      try (split; [intros ms; simpl; by rewrite Hpc'|done]).
    assert (Hq : quit (rhc i) <> []).
    { intros Hq. rewrite Hq in Hsig. simpl in Hsig. lia. }
    destruct (Hstop Hq eq_refl) as [Hno Htake]. split; [exact Hno|by intros _].
  - destruct (has_completed (handed i) && is_timer_fired (emitter_pc i)); lia.
  - intros Hcompl Hpc'. apply Hstop; [|done]. by apply (stopping_at_select i (Hc Hcompl)).
Qed.
End HeartbeatFacts.

(** C6, as the design document words it, fails: the goroutine's timer
    fires, the handler's completed reply passes through [Send], signal
    and all, and the goroutine then sends the heartbeat it was about to
    send. *)
Lemma heartbeat_after_completed_reply :
  ~ service.stops_at_completed service.Courier_Send service.echo_id service.one_hop
      service.request_u1 service.NewCourier.
Proof.
  intros H.
  pose proof (H [service.timer 500; service.signal service.final_reply;
                 service.forward; service.beat]) as H'.
  vm_compute in H'. specialize (H' _ eq_refl). discriminate H'.
Qed.

Lemma heartbeats_end_with_completed_witness :
  let es := [service.timer 500; service.beat; service.timer 700;
             service.signal service.final_reply; service.forward;
             service.beat; service.take_quit] in
  exists i,
    service.take_steps service.Courier_Send service.echo_id service.one_hop
      service.request_u1 es (service.NewRequestHeartbeatCourier service.NewCourier)
    = Some i /\
    service.heartbeats (service.handed i) +
      (if service.is_timer_fired (service.emitter_pc i) then 1 else 0) +
      (if service.is_emitter_panicked (service.emitter_pc i) then 1 else 0) =
      service.timers es /\
    service.late_heartbeats (service.handed i) <= 1 /\
    (forall ms,
       service.take_step service.Courier_Send service.echo_id service.one_hop
         service.request_u1 (service.timer ms) i = None).
Proof.
  intros es.
  assert (E : { i | service.take_steps service.Courier_Send service.echo_id
                      service.one_hop service.request_u1 es
                      (service.NewRequestHeartbeatCourier service.NewCourier) = Some i })
    by (vm_compute; eexists; reflexivity).
  destruct E as [i E]. exists i. split; [exact E|].
  destruct (heartbeats_end_with_completed service.Courier_Send service.echo_id
              service.one_hop service.request_u1 service.NewCourier es i E)
    as (_ & _ & _ & Hpaced & _ & _ & Hafter & Hlate & _).
  split; [exact Hpaced|]. split; [exact Hlate|].
  apply Hafter. exists service.final_reply. split; [|reflexivity].
  by apply (list_elem_of_lookup_2 _ 3).
Defined.

(** The run of the witness: two heartbeats, the second one behind the
    completed reply, and the goroutine gone. *)
Example heartbeat_run :
  (fun i => (service.handed <$> i, service.emitter_pc <$> i))
    (service.take_steps service.Courier_Send service.echo_id service.one_hop
       service.request_u1
       [service.timer 500; service.beat; service.timer 700;
        service.signal service.final_reply; service.forward;
        service.beat; service.take_quit]
       (service.NewRequestHeartbeatCourier service.NewCourier))
  = (Some [(service.by_emitter,
            service.heartbeat service.echo_id service.one_hop service.request_u1);
           (service.by_handler, service.final_reply);
           (service.by_emitter,
            service.heartbeat service.echo_id service.one_hop service.request_u1)],
     Some service.emitter_returned).
Proof. reflexivity. Qed.

(** Three requests in flight when the signal comes: the counter stands
    at three, the process exits after the third has ended and a turn of
    the loop has seen the counter at zero, and cannot exit before. *)
Lemma counter_gates_shutdown_witness :
  let es := [service.handler_begins 1; service.handler_begins 2; service.handler_begins 3;
             service.exit_signal; service.poll; service.handler_ends 2; service.poll;
             service.handler_ends 1; service.handler_ends 3; service.poll;
             service.sleep_over] in
  let p := service.mkProcess false 0 ∅ service.exited in
  service.process_steps es service.Service_Run = Some p /\
  service.consumedWorkCount p = (3 - 3)%Z /\
  (exists p3,
     service.process_steps (take 5 es) service.Service_Run = Some p3 /\
     service.consumedWorkCount p3 = 3%Z /\
     service.process_step service.poll p3 = Some p3 /\
     service.process_step service.sleep_over p3 = None) /\
  exists before after p0,
    es = before ++ service.poll :: after /\
    service.process_steps before service.Service_Run = Some p0 /\
    service.exit_signal ∈ before /\
    service.stage p0 = service.draining /\
    service.consumedWorkCount p0 = 0%Z /\
    service.in_flight p0 = ∅.
Proof.
  intros es p.
  assert (E : service.process_steps es service.Service_Run = Some p)
    by (vm_compute; reflexivity).
  assert (E3 : { p3 | service.process_steps (take 5 es) service.Service_Run = Some p3 })
    by (vm_compute; eexists; reflexivity).
  destruct E3 as [p3 E3].
  split; [exact E|].
  destruct (counter_gates_shutdown es p E) as (Htally & _ & _ & _ & _ & _ & _ & Hexit).
  split; [exact Htally|].
  destruct (counter_gates_shutdown (take 5 es) p3 E3) as (Htally3 & _ & _ & _ & _ & Hgate & _).
  split.
  - exists p3. split; [exact E3|]. split; [exact Htally3|].
    apply Hgate; [|rewrite Htally3; vm_compute; reflexivity].
    vm_compute in E3. by injection E3 as <-.
  - apply Hexit. reflexivity.
Defined.

Example no_exit_while_in_flight :
  service.process_steps
    [service.handler_begins 1; service.handler_begins 2; service.handler_begins 3;
     service.exit_signal; service.poll; service.handler_ends 2; service.poll;
     service.sleep_over]
    service.Service_Run = None.
Proof. vm_compute. reflexivity. Qed.

(** ** The handler wrapper *)
Section ServiceFacts.
Import proto service.
Variable Marshal_Error : Error -> option bytes.
Variable Unmarshal : bytes -> option Request.
Variable GenerateResponse : Request -> Request -> Request.
Variable RouteToUri : string -> Routing.
Variable identifyPanic : string.
Variable environ : gmap string string.

Local Abbreviation the_reply :=
  (panic_reply Marshal_Error GenerateResponse RouteToUri identifyPanic).
Local Abbreviation wrapper :=
  (AddHandler Marshal_Error Unmarshal GenerateResponse RouteToUri identifyPanic environ).
Local Abbreviation steps_of := (take_steps Courier_Send GenerateResponse RouteToUri).
Local Abbreviation step_of := (take_step Courier_Send GenerateResponse RouteToUri).

Lemma take_steps_app {S : Type} (send : ResponseSender S) request es1 es2 (i : invocation S) :
  take_steps send GenerateResponse RouteToUri request (es1 ++ es2) i =
    take_steps send GenerateResponse RouteToUri request es1 i ≫=
      take_steps send GenerateResponse RouteToUri request es2.
Proof.
  revert i. induction es1 as [|e es1 IH]; intros i; simpl; [done|].
  destruct (take_step send GenerateResponse RouteToUri request e i); [apply IH|done].
Qed.

(** A goroutine that has returned takes no step. *)
Lemma returned_emitter_rests {S : Type} (send : ResponseSender S) request es
    (i i' : invocation S) :
  emitter_pc i = emitter_returned ->
  forallb is_emitter_step es = true ->
  take_steps send GenerateResponse RouteToUri request es i = Some i' ->
  es = [].
Proof.
  intros Hpc Hes. destruct es as [|e es]; [done|]. simpl in Hes |- *.
  apply andb_true_iff in Hes as [He _].
  destruct e; simpl in He |- *; try done; by rewrite Hpc.
Qed.

Lemma prevent_panics_default :
  environ !! "PLATFORM_PREVENT_PANICS" = None \/
    environ !! "PLATFORM_PREVENT_PANICS" = Some "1" ->
  Getenv environ "PLATFORM_PREVENT_PANICS" "1" = "1".
Proof. unfold Getenv. by intros [-> | ->]. Qed.

(** C7 (where the code departs from it): with [PLATFORM_PREVENT_PANICS]
    not set, or set to ["1"], a handler that has passed two completed
    responses to [Send] and then panics is not recovered from.  The
    goroutine of the heartbeat courier took the first signal and
    returned, the second signal fills [quit], and the completed error
    response of the deferred function has to put a third: its [Send]
    waits for room on [quit] that nothing will make.  Whatever the
    schedule, the function neither returns nor lets a panic out: the
    error response is never handed to the courier and the delivery is
    never published under ["panic." + path]. *)
Theorem recovery_blocks_after_two_completed
    (path : string) (handler : Handler) (p : bytes) (c : Courier)
    (request : Request) (r : string) (es : list step) (i : invocation Courier) :
  Unmarshal p = Some request ->
  environ !! "PLATFORM_PREVENT_PANICS" = None \/
    environ !! "PLATFORM_PREVENT_PANICS" = Some "1" ->
  (forall req resp, completed (GenerateResponse req resp) = completed resp) ->
  steps_of request es (NewRequestHeartbeatCourier c) = Some i ->
  completed_signals es = 2 ->
  handler request (NewRequestHeartbeatCourier c) = panics r i ->
  emitter_pc i = emitter_returned /\ length (quit (rhc i)) = 1 /\
  forall before between, wrapper path handler p before between c = stuck.
Proof.
  intros Hp Henv Hkeep Hrun Htwo Hpanic.
  destruct (take_steps_signals Courier_Send GenerateResponse RouteToUri request
              es _ i Hrun) as [Hsig Hlen]; [simpl; lia|].
  unfold returned_count in Hsig. simpl in Hsig. rewrite Htwo in Hsig.
  assert (Hpc : emitter_pc i = emitter_returned).
  { destruct (emitter_pc i); simpl in Hsig; try lia. done. }
  assert (Hfull : length (quit (rhc i)) = 1) by (rewrite Hpc in Hsig; simpl in Hsig; lia).
  split; [done|]. split; [done|].
  intros before between. unfold AddHandler. rewrite Hp, Hpanic.
  rewrite decide_True by by apply prevent_panics_default.
  unfold recovery. destruct (forallb is_emitter_step (before ++ between)) eqn:Hem; [|done].
  rewrite forallb_app in Hem. apply andb_true_iff in Hem as [Hbefore _].
  rewrite take_steps_app.
  destruct (steps_of request before i) as [i0|] eqn:E0; [|done].
  assert (before = []) as -> by (eapply (returned_emitter_rests Courier_Send); eauto).
  simpl in E0. injection E0 as <-. cbn [mbind option_bind take_steps take_step].
  rewrite Hpc. destruct (sending i); [done|].
  unfold rhc_signal, GetCompleted, panic_reply. rewrite Hkeep. cbn [completed default].
  by rewrite decide_False by lia.
Qed.

(** With the variable set to anything else the panic leaves the
    wrapper. *)
Lemma handler_fault_escapes
    (path : string) (handler : Handler) (p : bytes) (c : Courier)
    (request : Request) (r v : string) (i : invocation Courier)
    (before between : list step) :
  Unmarshal p = Some request ->
  environ !! "PLATFORM_PREVENT_PANICS" = Some v -> v <> "1" ->
  handler request (NewRequestHeartbeatCourier c) = panics r i ->
  wrapper path handler p before between c = panicked r i.
Proof.
  intros Hp Henv Hv Hpanic. unfold AddHandler. rewrite Hp, Hpanic.
  rewrite decide_False; [done|]. unfold Getenv. by rewrite Henv.
Qed.
End ServiceFacts.

(** A handler that completes twice and panics: the wrapper is stuck
    under every schedule. *)
Lemma recovery_blocks_after_two_completed_witness :
  service.AddHandler service.text_Marshal_Error service.id_Unmarshal service.echo_id
    service.one_hop "handler.go:7" ∅ "orders" service.completes_twice
    (String.list_byte_of_string "u1") [service.take_quit] [service.timer 500; service.beat]
    service.NewCourier
  = service.stuck.
Proof.
  generalize [service.take_quit] [service.timer 500; service.beat].
  assert (E : { i | service.take_steps service.Courier_Send service.echo_id service.one_hop
                      (proto.mkRequest (Some "u1")
                         (Some (proto.mkRouting [] [proto.mkRoute (Some "caller") None]))
                         [] [] None None)
                      [service.signal service.final_reply; service.forward;
                       service.take_quit; service.signal service.final_reply;
                       service.forward]
                      (service.NewRequestHeartbeatCourier service.NewCourier) = Some i })
    by (vm_compute; eexists; reflexivity).
  destruct E as [i E].
  refine (proj2 (proj2 (recovery_blocks_after_two_completed service.text_Marshal_Error
            service.id_Unmarshal service.echo_id service.one_hop "handler.go:7" ∅
            "orders" service.completes_twice (String.list_byte_of_string "u1")
            service.NewCourier _ "boom" _ i eq_refl (or_introl eq_refl) _ E eq_refl _))).
  - reflexivity.
  - unfold service.completes_twice. cbv zeta.
    change (String.string_of_list_byte (String.list_byte_of_string "u1")) with "u1".
    by rewrite E.
Defined.

(** [Run] on a broker that refuses the first dial: the second cycle binds
    both topics, releases the caller, delivers one message to both
    subscriptions and ends on the lost connection; the third is closed. *)
Example Run_three_cycles :
  let '(_, acts, n, st) :=
    amqp.Run amqp.hash_or_exact amqp.two_topics
      [amqp.dial_refused; amqp.connection_lost; amqp.closed_by_quit; amqp.connection_lost] in
  n = 3 /\ st = amqp.stopped /\
  acts = [amqp.Dial;
          amqp.Dial; amqp.GetChannelInterface;
          amqp.QueueDeclare "q" true false false false;
          amqp.QueueBind "q" "a.1" "amq.topic" false;
          amqp.QueueBind "q" "#" "amq.topic" false;
          amqp.Consume "q" "" false false false true; amqp.CloseStarted;
          amqp.Dial; amqp.GetChannelInterface;
          amqp.QueueDeclare "q" true false false false;
          amqp.QueueBind "q" "a.1" "amq.topic" false;
          amqp.QueueBind "q" "#" "amq.topic" false;
          amqp.Consume "q" "" false false false true].
Proof. vm_compute. done. Qed.

(** A router without a responder: the call times out and the table of
    pending requests is empty afterwards. *)
Example Route_no_responder :
  router.Route router.id_Marshal router.id_Unmarshal (router.NewStandardRouter "r")
    router.request_7_3 "u1" [] [] []
  = (router.mkStandardRouter [("7_3", router.reply_for "u1")] "router_r" ∅,
     router.mkRoutedMessage (Some "u1") (Some "router_r") 7 3 [],
     router.route_returns None (Some (errors_New "TIMEOUT"))).
Proof. vm_compute. reflexivity. Qed.

(** Two replies for the same identifier between the timer and the
    [delete]: the second send blocks on the full channel with the mutex
    held, and the call never returns. *)
Example Route_late_replies_hang :
  (router.Route router.id_Marshal router.id_Unmarshal (router.NewStandardRouter "r")
     router.request_7_3 "u1" [] [] [router.reply_for "u1"; router.reply_for "u1"]).2
  = router.route_hangs.
Proof. vm_compute. reflexivity. Qed.

(** * Further properties of the code *)

(** ** The multiplexer over whole runs *)
Section MultiplexerRuns.
Import amqp.
Variable canHandle : subscription -> Delivery -> bool.

Lemma accept_grows msg sub : grows [msg] sub (accept canHandle msg sub).
Proof.
  unfold grows, accept. rewrite try_send_has_room. unfold has_room.
  destruct (canHandle sub msg); [case_bool_decide|]; simpl.
  - repeat split; [by exists [msg]|]. rewrite length_app. simpl. lia.
  - repeat split; [|done]. exists []. rewrite app_nil_r. split; [done|]. apply sublist_nil_l.
  - repeat split; [|done]. exists []. rewrite app_nil_r. split; [done|]. apply sublist_nil_l.
Qed.

Lemma grows_trans ms1 ms2 a b c :
  grows ms1 a b -> grows ms2 b c -> grows (ms1 ++ ms2) a c.
Proof.
  intros (Ht1 & Hc1 & (new1 & Hd1 & Hs1) & Hb1) (Ht2 & Hc2 & (new2 & Hd2 & Hs2) & Hb2).
  repeat split; [congruence|congruence| |].
  - exists (new1 ++ new2). rewrite Hd2, Hd1, app_assoc. split; [done|].
    by apply sublist_app.
  - intros Hle. rewrite <- Hc1. apply Hb2. rewrite Hc1. by apply Hb1.
Qed.

Lemma grows_refl sub : grows [] sub sub.
Proof.
  repeat split; [|done]. exists []. by rewrite app_nil_r.
Qed.

Lemma dispatch_loop_grows_all (subs : list subscription) (script : list select_case) :
  Forall2 (grows (messages script)) subs (dispatch_loop canHandle subs script).1.1.
Proof.
  revert subs. induction script as [|c script IH]; intros subs.
  - simpl. apply Forall_Forall2_diag, Forall_forall. intros sub _. apply grows_refl.
  - destruct c as [msg| | |]; simpl;
      try (apply Forall_Forall2_diag, Forall_forall; intros sub _;
           repeat split; [|done]; exists []; rewrite app_nil_r;
           split; [done|apply sublist_nil_l]).
    unfold dispatch. rewrite offer_spec.
    specialize (IH (accept canHandle msg <$> subs)).
    destruct (dispatch_loop canHandle (accept canHandle msg <$> subs) script)
      as [[subs2 acts2] r]. simpl in *.
    rewrite Forall2_fmap_l in IH. eapply Forall2_impl; [exact IH|].
    intros sub sub' Hg. apply (grows_trans [msg] (messages script) _ _ _ (accept_grows msg sub) Hg).
Qed.

(** X1: the dispatch loop only ever adds to an inbox, and adds in the
    order of the broker: after any script there are as many
    subscriptions as before, and the one at each position has its topic
    and capacity, an inbox that is what it held followed by some of the
    script's deliveries in the order they came, and, if it was within its
    capacity, is still within it. *)
Theorem dispatch_loop_grows (subs : list subscription) (script : list select_case) :
  let subs' := (dispatch_loop canHandle subs script).1.1 in
  length subs' = length subs /\
  forall i sub, subs !! i = Some sub ->
    exists sub', subs' !! i = Some sub' /\
      topic sub' = topic sub /\ capacity sub' = capacity sub /\
      (exists new, deliveries sub' = deliveries sub ++ new /\
                   new `sublist_of` messages script) /\
      (length (deliveries sub) <= capacity sub ->
       length (deliveries sub') <= capacity sub).
Proof.
  intros subs'. pose proof (dispatch_loop_grows_all subs script) as Hall.
  fold subs' in Hall. split.
  - symmetry. by eapply Forall2_length.
  - intros i sub Hi.
    destruct (Forall2_lookup_l _ _ _ _ _ Hall Hi) as (sub' & Hi' & Hg).
    exists sub'. split; [done|]. exact Hg.
Qed.

Lemma grows_topics ms (subs subs' : list subscription) :
  Forall2 (grows ms) subs subs' -> topic <$> subs' = topic <$> subs.
Proof.
  induction 1 as [|sub sub' subs0 subs1 Hg _ IH]; [done|].
  rewrite !fmap_cons. destruct Hg as [Ht _]. by rewrite Ht, IH.
Qed.

Lemma dispatch_loop_topics subs script :
  topic <$> (dispatch_loop canHandle subs script).1.1 = topic <$> subs.
Proof. eapply grows_topics, dispatch_loop_grows_all. Qed.

Lemma dispatch_loop_rejects subs script :
  Forall (fun a => exists msg, a = Reject msg true)
    (dispatch_loop canHandle subs script).1.2.
Proof.
  revert subs. induction script as [|c script IH]; intros subs; simpl; [done|].
  destruct c as [msg| | |]; simpl; try done.
  unfold dispatch. rewrite offer_spec.
  specialize (IH (accept canHandle msg <$> subs)).
  destruct (dispatch_loop canHandle (accept canHandle msg <$> subs) script)
    as [[subs2 acts2] r]. simpl in *.
  apply Forall_app. split; [|done].
  match goal with |- context [if ?b then _ else _] => destruct b end; [done|].
  apply Forall_singleton. by eexists.
Qed.

(** [bind_all] issues the binds in registration order and stops behind
    the first that fails. *)
Lemma bind_all_shape q berr subs :
  let '(acts, r) := bind_all q berr subs in
  acts `prefix_of` (bind_of q <$> subs) /\
  (r = None -> acts = bind_of q <$> subs).
Proof.
  induction subs as [|sub rest IH]; simpl; [done|].
  destruct (berr (topic sub)).
  - split; [|done]. by exists (bind_of q <$> rest).
  - destruct (bind_all q berr rest) as [acts r]. destruct IH as [Hp Hn].
    split; [by apply prefix_cons|]. intros Hr. by rewrite (Hn Hr).
Qed.

Lemma releases_app acts1 acts2 : releases (acts1 ++ acts2) = releases acts1 + releases acts2.
Proof. unfold releases. by rewrite filter_app, length_app. Qed.

Lemma releases_none acts :
  Forall (fun a => is_CloseStarted a = false) acts -> releases acts = 0.
Proof.
  unfold releases. induction 1 as [|a acts Ha _ IH]; [done|].
  rewrite filter_cons_False; [done|]. by rewrite Ha.
Qed.

Lemma setup_of_releases s acts :
  acts `prefix_of` setup_of s -> releases acts = 0.
Proof.
  intros [rest Hrest]. apply releases_none.
  assert (Hall : Forall (fun a => is_CloseStarted a = false) (setup_of s)).
  { unfold setup_of. repeat (apply Forall_cons; split; [done|]).
    apply Forall_app. split; [|by apply Forall_singleton].
    apply Forall_fmap, Forall_forall. done. }
  rewrite Hrest in Hall. by apply Forall_app in Hall as [? _].
Qed.

Lemma permitted_setup_of s : Forall (permitted s) (setup_of s).
Proof.
  unfold setup_of. repeat (apply Forall_cons; split; [done|]).
  apply Forall_app. split; [|by apply Forall_singleton].
  apply Forall_fmap, Forall_forall. intros t Ht. simpl. done.
Qed.

(** What one call of [run] does, by whether its setup fails. *)
Lemma run_facts s c :
  let '(s1, acts, r) := run canHandle s c in
  (setup_fails s c /\ s1 = s /\ acts `prefix_of` setup_of s /\
   exists e, r = returned (Some (errors_New e))) \/
  (~ setup_fails s c /\ started s1 = false /\ same_registration s s1 /\
   Forall2 (grows (messages (selects c))) (subscriptions s) (subscriptions s1) /\
   exists acts',
     acts = setup_of s ++ (if started s then [CloseStarted] else []) ++ acts' /\
     Forall (fun a => exists msg, a = Reject msg true) acts').
Proof.
  unfold run, setup_fails, setup_of.
  destruct (dial_err c) as [e|] eqn:Ed.
  { left. split; [left; by eexists|]. split; [done|]. split; [by eexists|by eexists]. }
  destruct (channel_err c) as [e|] eqn:Ec.
  { left. split; [right; left; by eexists|]. split; [done|].
    split; [by eexists|by eexists]. }
  replace (if exclusive s then false else true) with (negb (exclusive s))
    by by destruct (exclusive s).
  replace (if autoDelete s then true else false) with (autoDelete s)
    by by destruct (autoDelete s).
  destruct (declare_err c) as [e|] eqn:Eq.
  { left. split; [right; right; left; by eexists|]. split; [done|].
    split; [by eexists|by eexists]. }
  pose proof (bind_all_shape (queue s) (bind_err c) (subscriptions s)) as Hshape.
  destruct (bind_all_cases (queue s) (bind_err c) (subscriptions s))
    as [(binds & e & Hb & Hsub)|(binds & Hb & Hall)]; rewrite Hb in Hshape |- *.
  { left. split; [right; right; right; left; done|]. split; [done|].
    split; [|by eexists]. destruct Hshape as [[rest Hrest] _].
    unfold topics. rewrite <- list_fmap_compose.
    change ((fun t => QueueBind (queue s) t "amq.topic" false) ∘ topic)
      with (bind_of (queue s)).
    rewrite Hrest. eexists. rewrite <- !app_assoc. simpl. reflexivity. }
  destruct Hshape as [_ Hbinds]. rewrite (Hbinds eq_refl).
  assert (Heq : bind_of (queue s) <$> subscriptions s =
                (fun t => QueueBind (queue s) t "amq.topic" false) <$> topics s).
  { unfold topics. by rewrite <- list_fmap_compose. }
  destruct (consume_err c) as [e|] eqn:Eco.
  { left. split; [repeat right; by eexists|]. split; [done|].
    split; [|by eexists]. rewrite Heq. by exists []; rewrite app_nil_r, <- !app_assoc. }
  pose proof (dispatch_loop_grows_all (subscriptions s) (selects c)) as Hg.
  pose proof (dispatch_loop_topics (subscriptions s) (selects c)) as Ht.
  pose proof (dispatch_loop_rejects (subscriptions s) (selects c)) as Hr.
  destruct (dispatch_loop canHandle (subscriptions s) (selects c))
    as [[subs' acts'] r]. simpl in Hg, Ht, Hr. right.
  split.
  { intros [[? [=]]|[[? [=]]|[[? [=]]|[(sub & Hin & [? Hs])|[? [=]]]]]].
    rewrite (Hall sub Hin) in Hs. done. }
  split; [done|]. split; [by repeat split|]. split; [done|].
  exists acts'. split; [|done]. rewrite Heq, <- !app_assoc. simpl. reflexivity.
Qed.

Lemma permitted_same s s1 a : same_registration s s1 -> permitted s1 a -> permitted s a.
Proof.
  intros (Hq & He & Ha & _ & Ht). destruct a; simpl; rewrite ?Hq, ?He, ?Ha, ?Ht; done.
Qed.

Lemma same_registration_trans s s1 s2 :
  same_registration s s1 -> same_registration s1 s2 -> same_registration s s2.
Proof.
  intros (? & ? & ? & ? & ?) (? & ? & ? & ? & ?). repeat split; congruence.
Qed.

Lemma run_permitted s c :
  Forall (permitted s) (run canHandle s c).1.2 /\
  same_registration s (run canHandle s c).1.1.
Proof.
  pose proof (run_facts s c) as H. destruct (run canHandle s c) as [[s1 acts] r].
  simpl. destruct H as [(_ & -> & [rest Hrest] & _)|(_ & _ & Hsame & _ & acts' & -> & Hrej)].
  - split; [|by repeat split]. pose proof (permitted_setup_of s) as Hp.
    rewrite Hrest in Hp. by apply Forall_app in Hp as [? _].
  - split; [|done]. apply Forall_app. split; [apply permitted_setup_of|].
    apply Forall_app. split; [by destruct (started s); repeat constructor|].
    eapply Forall_impl; [exact Hrej|]. by intros a [msg ->].
Qed.

(** X2: whatever the broker does, the reconnect loop asks it for nothing
    but the following: to dial and open a channel; to declare the
    multiplexer's queue, durable unless exclusive, auto-delete and
    exclusive as its flags say, without no-wait; to bind a registered
    topic to that queue on ["amq.topic"]; to consume from that queue with
    an empty consumer tag, without auto-acknowledge and no-local, with
    no-wait; and to reject a delivery with requeue.  The queue, the
    flags and the registered topics are the same after the run. *)
Theorem Run_loop_permitted (s : Subscriber) (cycles : list cycle) :
  let '(s', acts, _, _) := Run_loop canHandle s cycles in
  Forall (permitted s) acts /\ same_registration s s'.
Proof.
  revert s. induction cycles as [|c rest IH]; intros s; simpl.
  - split; [done|by repeat split].
  - destruct (run_permitted s c) as [Hp Hs].
    destruct (run canHandle s c) as [[s1 acts1] r]. simpl in Hp, Hs.
    specialize (IH s1).
    destruct (Run_loop canHandle s1 rest) as [[[s2 acts2] n] st].
    destruct IH as [Hp2 Hs2].
    assert (Hgo : Forall (permitted s) (acts1 ++ acts2) /\ same_registration s s2).
    { split; [|by eapply same_registration_trans].
      apply Forall_app. split; [done|].
      eapply Forall_impl; [exact Hp2|]. intros a. by apply permitted_same. }
    destruct r as [[err|]|]; [case_decide| |]; done.
Qed.

(** X3: a cycle on which nothing of the setup fails issues the whole
    setup in order: dial, channel, the queue declaration, one bind per
    registered topic in registration order, consume; it then releases the
    caller of [Run] if that is still waiting, and after that it only
    rejects.  The topics are still registered afterwards, so the next
    cycle binds them again. *)
Theorem cycle_binds_every_topic (s : Subscriber) (c : cycle) :
  ~ setup_fails s c ->
  exists s1 rejects r,
    run canHandle s c =
      (s1, setup_of s ++ (if started s then [CloseStarted] else []) ++ rejects, r) /\
    Forall (fun a => exists msg, a = Reject msg true) rejects /\
    started s1 = false /\ topics s1 = topics s.
Proof.
  intros Hok. pose proof (run_facts s c) as H.
  destruct (run canHandle s c) as [[s1 acts] r].
  destruct H as [(Hf & _)|(_ & Hst & Hsame & _ & rejects & -> & Hrej)]; [done|].
  exists s1, rejects, r. repeat split; try done. by destruct Hsame as (_ & _ & _ & _ & ?).
Qed.

(** The binds up to the first that fails. *)
Lemma bind_all_fails q berr pre sub post e :
  (forall sub', sub' ∈ pre -> berr (topic sub') = None) ->
  berr (topic sub) = Some e ->
  bind_all q berr (pre ++ sub :: post) = (bind_of q <$> pre ++ [sub], Some e).
Proof.
  intros Hpre Hsub. induction pre as [|sub0 pre IH]; simpl.
  - by rewrite Hsub.
  - rewrite (Hpre sub0) by left. rewrite IH; [done|].
    intros sub' Hin. apply Hpre. by right.
Qed.

Lemma bind_all_succeeds q berr subs :
  (forall sub, sub ∈ subs -> berr (topic sub) = None) ->
  bind_all q berr subs = (bind_of q <$> subs, None).
Proof.
  intros Hall. induction subs as [|sub rest IH]; simpl; [done|].
  rewrite (Hall sub) by left. rewrite IH; [done|].
  intros sub' Hin. apply Hall. by right.
Qed.

(** X4: a cycle on which some step of the setup fails returns the error
    of that step, the first that fails, made into an error value, and
    leaves the multiplexer as it was: what it asked of the broker is the
    setup sequence up to and including the step that failed, with the
    binds in registration order; nothing is delivered or rejected, and
    the caller of [Run] is not released. *)
Theorem failed_cycle_changes_nothing (s : Subscriber) (c : cycle) :
  let declare :=
    QueueDeclare (queue s) (negb (exclusive s)) (autoDelete s) (exclusive s) false in
  (forall e, dial_err c = Some e ->
     run canHandle s c = (s, [Dial], returned (Some (errors_New e)))) /\
  (forall e, dial_err c = None -> channel_err c = Some e ->
     run canHandle s c =
       (s, [Dial; GetChannelInterface], returned (Some (errors_New e)))) /\
  (forall e, dial_err c = None -> channel_err c = None -> declare_err c = Some e ->
     run canHandle s c =
       (s, [Dial; GetChannelInterface; declare], returned (Some (errors_New e)))) /\
  (forall e pre sub post,
     dial_err c = None -> channel_err c = None -> declare_err c = None ->
     subscriptions s = pre ++ sub :: post ->
     (forall sub', sub' ∈ pre -> bind_err c (topic sub') = None) ->
     bind_err c (topic sub) = Some e ->
     run canHandle s c =
       (s, [Dial; GetChannelInterface; declare] ++
             ((fun t => QueueBind (queue s) t "amq.topic" false) <$>
                (topic <$> pre ++ [sub])),
        returned (Some (errors_New e)))) /\
  (forall e, dial_err c = None -> channel_err c = None -> declare_err c = None ->
     (forall sub, sub ∈ subscriptions s -> bind_err c (topic sub) = None) ->
     consume_err c = Some e ->
     run canHandle s c = (s, setup_of s, returned (Some (errors_New e)))) /\
  (setup_fails s c ->
   (run canHandle s c).1.1 = s /\
   (run canHandle s c).1.2 `prefix_of` setup_of s /\
   releases (run canHandle s c).1.2 = 0).
Proof.
  assert (Hd : (if exclusive s then false else true) = negb (exclusive s))
    by by destruct (exclusive s).
  assert (Ha : (if autoDelete s then true else false) = autoDelete s)
    by by destruct (autoDelete s).
  intros declare. subst declare.
  split; [|split; [|split; [|split; [|split]]]].
  - intros e He. unfold run. by rewrite He.
  - intros e Hdial He. unfold run. by rewrite Hdial, He.
  - intros e Hdial Hch He. unfold run. by rewrite Hdial, Hch, He, Hd, Ha.
  - intros e pre sub post Hdial Hch Hdecl Hsubs Hpre He. unfold run.
    rewrite Hdial, Hch, Hdecl, Hd, Ha, Hsubs.
    rewrite (bind_all_fails _ _ pre sub post e Hpre He).
    by rewrite <- list_fmap_compose.
  - intros e Hdial Hch Hdecl Hall He. unfold run.
    rewrite Hdial, Hch, Hdecl, Hd, Ha, (bind_all_succeeds _ _ _ Hall), He.
    unfold setup_of, topics. by rewrite <- list_fmap_compose, <- !app_assoc.
  - intros Hf. pose proof (run_facts s c) as H.
    destruct (run canHandle s c) as [[s1 acts] r].
    destruct H as [(_ & -> & Hp & _)|(Hok & _)]; [|done]. simpl.
    split; [done|]. split; [done|]. by eapply setup_of_releases.
Qed.

(** X5: runs of the reconnect loop compose.  On a script that goes on
    behind [cycles1], the loop that is about to call [run] again carries
    on from the state it has, adding up traces and calls; a loop that has
    stopped, or that sits in a [select] the script has no case for, is
    not moved by anything that follows.  The loop calls [run] at most
    once per cycle of the script. *)
Theorem Run_loop_app (s : Subscriber) (cycles1 cycles2 : list cycle) :
  let '(s1, acts1, n1, st1) := Run_loop canHandle s cycles1 in
  n1 <= length cycles1 /\
  Run_loop canHandle s (cycles1 ++ cycles2) =
    match st1 with
    | retrying =>
        let '(s2, acts2, n2, st2) := Run_loop canHandle s1 cycles2 in
        (s2, acts1 ++ acts2, n1 + n2, st2)
    | _ => (s1, acts1, n1, st1)
    end.
Proof.
  revert s. induction cycles1 as [|c rest IH]; intros s; simpl.
  - split; [lia|]. by destruct (Run_loop canHandle s cycles2) as [[[? ?] ?] ?].
  - destruct (run canHandle s c) as [[s1 acts1] r].
    specialize (IH s1).
    destruct (Run_loop canHandle s1 rest) as [[[s2 acts2] n2] st2].
    destruct IH as [Hn IH].
    assert (Hgo :
      S n2 <= S (length rest) /\
      (let '(s3, acts3, n, st) := Run_loop canHandle s1 (rest ++ cycles2) in
       (s3, acts1 ++ acts3, S n, st)) =
      match st2 with
      | retrying =>
          let '(s3, acts3, n3, st3) := Run_loop canHandle s2 cycles2 in
          (s3, (acts1 ++ acts2) ++ acts3, S n2 + n3, st3)
      | _ => (s2, acts1 ++ acts2, S n2, st2)
      end).
    { split; [lia|]. rewrite IH. destruct st2; try done.
      destruct (Run_loop canHandle s2 cycles2) as [[[s3 acts3] n3] st3].
      by rewrite app_assoc. }
    destruct r as [[err|]|]; [case_decide| |]; try done.
    + split; [lia|done].
    + split; [lia|done].
Qed.

Lemma Run_loop_releases s cycles :
  let '(s', acts, _, _) := Run_loop canHandle s cycles in
  releases acts = (if started s then if started s' then 0 else 1 else 0) /\
  (started s = false -> started s' = false).
Proof.
  revert s. induction cycles as [|c rest IH]; intros s; simpl.
  - split; [by destruct (started s)|done].
  - pose proof (run_facts s c) as H.
    destruct (run canHandle s c) as [[s1 acts1] r].
    specialize (IH s1).
    destruct (Run_loop canHandle s1 rest) as [[[s2 acts2] n] st].
    destruct IH as [IHr IHs].
    assert (H1 : releases acts1 = (if started s then if started s1 then 0 else 1 else 0) /\
                 (started s = false -> started s1 = false)).
    { destruct H as [(_ & -> & Hp & _)|(_ & Hst & _ & _ & rejects & -> & Hrej)].
      - rewrite (setup_of_releases _ _ Hp). split; [by destruct (started s)|done].
      - rewrite Hst. split; [|done]. rewrite !releases_app.
        rewrite (setup_of_releases s (setup_of s)) by done.
        rewrite (releases_none rejects)
          by (eapply Forall_impl; [exact Hrej|]; by intros a [msg ->]).
        by destruct (started s). }
    destruct H1 as [H1r H1s].
    assert (Hgo : releases (acts1 ++ acts2) =
                    (if started s then if started s2 then 0 else 1 else 0) /\
                  (started s = false -> started s2 = false)).
    { rewrite releases_app, H1r, IHr. split; [|auto].
      destruct (started s) eqn:E0, (started s1) eqn:E1; try done.
      - rewrite (IHs eq_refl). done.
      - by specialize (H1s eq_refl). }
    destruct r as [[err|]|]; [case_decide| |]; done.
Qed.

(** X6: [Run] releases its caller at most once: the trace of the loop
    holds one [close(s.started)] if [s.started] is [nil] in the end, and
    none otherwise. *)
Theorem Run_releases_once (s : Subscriber) (cycles : list cycle) :
  let '(s', acts, _, _) := Run canHandle s cycles in
  releases acts = (if started s' then 0 else 1).
Proof.
  unfold Run.
  pose proof (Run_loop_releases
    (mkSubscriber (subscriptions s) true (closed s) (queue s) (exclusive s) (autoDelete s))
    cycles) as H.
  destruct (Run_loop canHandle _ cycles) as [[[s' acts] n] st].
  by destruct H as [-> _].
Qed.
End MultiplexerRuns.

(** ** Close *)
Section CloseFacts.
Import amqp.

Lemma close_quits_app acts1 acts2 :
  length (filter (fun a => is_close_quit a = true) (acts1 ++ acts2)) =
  length (filter (fun a => is_close_quit a = true) acts1) +
  length (filter (fun a => is_close_quit a = true) acts2).
Proof. by rewrite filter_app, length_app. Qed.

Lemma close_subscriptions_no_quit (ts : list string) :
  length (filter (fun a => is_close_quit a = true) (close_subscription <$> ts)) = 0.
Proof.
  induction ts as [|t ts IH]; [done|]. rewrite fmap_cons, filter_cons_False; done.
Qed.

(** X7: on a multiplexer whose flag [closed] agrees with the state of
    its channel [quit], as it does on a new one, no sequence of
    [Subscribe] and [Close] calls panics: [quit] is closed by the first
    [Close], if there is one, and by no other, and the flag agrees with
    the channel afterwards. *)
Theorem Close_is_idempotent (cs : list call) (h : handle) :
  closed (subscriber h) = quit_closed h ->
  exists h' acts,
    calls cs h = Some (h', acts) /\
    closed (subscriber h') = quit_closed h' /\
    quit_closed h' = quit_closed h || existsb is_call_Close cs /\
    length (filter (fun a => is_close_quit a = true) acts) =
      (if quit_closed h then 0 else if existsb is_call_Close cs then 1 else 0).
Proof.
  revert h. induction cs as [|c cs IH]; intros h Hinv; simpl.
  - exists h, []. rewrite orb_false_r. repeat split; [done|]. by destruct (quit_closed h).
  - destruct c as [cap t|].
    + destruct (IH (mkHandle (Subscribe cap (subscriber h) t) (quit_closed h)) Hinv)
        as (h' & acts & -> & ? & ? & ?).
      by exists h', acts.
    + unfold Close. rewrite <- Hinv. destruct (closed (subscriber h)) eqn:Ec.
      * assert (Hinv0 : closed (subscriber h) = quit_closed h) by by rewrite Ec.
        destruct (IH h Hinv0) as (h' & acts & -> & Hinv' & Hq & Hn).
        exists h', acts. rewrite <- Hinv in Hq, Hn.
        repeat split; done.
      * set (h1 := mkHandle _ true).
        destruct (IH h1 eq_refl) as (h' & acts & -> & Hinv' & Hq & Hn).
        eexists _, _. split; [done|]. repeat split; [done|by rewrite Hq|].
        rewrite !close_quits_app, close_subscriptions_no_quit, Hn. done.
Qed.
End CloseFacts.

(** ** The router over whole scripts *)
Section RouterRuns.
Import router.
Variable Marshal : RoutedMessage -> option bytes.
Variable Unmarshal : bytes -> option RoutedMessage.

(** What one run of the reply handler leaves alone. *)
Lemma reply_handler_frame body sr sr' e :
  reply_handler Unmarshal body sr = Some (sr', e) ->
  e = None /\ publisher sr' = publisher sr /\ topic sr' = topic sr /\
  dom (pendingRequests sr') = dom (pendingRequests sr) /\
  forall id buf, pendingRequests sr !! id = Some buf ->
    exists new, pendingRequests sr' !! id = Some (buf ++ new) /\
      Forall (fun m => GetId m = id) new /\
      (length buf <= 1 -> length (buf ++ new) <= 1) /\
      ((forall m, Unmarshal body = Some m -> GetId m <> id) -> new = []).
Proof.
  unfold reply_handler. intros H.
  assert (Hsame : sr' = sr -> e = None ->
    e = None /\ publisher sr' = publisher sr /\ topic sr' = topic sr /\
    dom (pendingRequests sr') = dom (pendingRequests sr) /\
    forall id buf, pendingRequests sr !! id = Some buf ->
      exists new, pendingRequests sr' !! id = Some (buf ++ new) /\
        Forall (fun m => GetId m = id) new /\
        (length buf <= 1 -> length (buf ++ new) <= 1) /\
        ((forall m, Unmarshal body = Some m -> GetId m <> id) -> new = [])).
  { intros -> ->. repeat split. intros id buf Hid. exists [].
    rewrite app_nil_r. repeat split; done. }
  destruct (Unmarshal body) as [m|]; [|injection H as <- <-; by apply Hsame].
  destruct (pendingRequests sr !! GetId m) as [replyChan|] eqn:Em;
    [|injection H as <- <-; by apply Hsame].
  case_decide as Hroom; [|done]. injection H as <- <-. simpl.
  repeat split.
  - apply dom_insert_lookup_L. by rewrite Em.
  - intros id buf Hid. destruct (decide (GetId m = id)) as [<-|Hne].
    + exists [m]. rewrite lookup_insert_eq. simplify_eq.
      repeat split; [by apply Forall_singleton| |].
      * intros _. rewrite length_app. simpl. lia.
      * intros Hno. by destruct (Hno m eq_refl).
    + exists []. rewrite lookup_insert_ne by done. rewrite app_nil_r. repeat split; done.
Qed.

(** X8: over any script of deliveries it returns from, the reply handler
    never publishes, never adds or removes a waiter, and only ever adds to
    a waiter's channel replies that bear that waiter's identifier; a
    waiter for which no reply came in is as before; and if no channel held
    more than one reply before, none does afterwards. *)
Theorem waiters_only_get_their_replies
    (bodies : list bytes) (sr sr' : StandardRouter) :
  deliver_all Unmarshal bodies sr = Some sr' ->
  publisher sr' = publisher sr /\ topic sr' = topic sr /\
  dom (pendingRequests sr') = dom (pendingRequests sr) /\
  (forall id buf, pendingRequests sr !! id = Some buf ->
     exists new, pendingRequests sr' !! id = Some (buf ++ new) /\
       Forall (fun m => GetId m = id) new /\
       (no_reply_for Unmarshal id bodies -> new = [])) /\
  (single_slot sr -> single_slot sr').
Proof.
  revert sr. induction bodies as [|body rest IH]; intros sr; simpl.
  - intros [= <-]. repeat split; [|done]. intros id buf Hid. exists [].
    rewrite app_nil_r. repeat split; done.
  - destruct (reply_handler Unmarshal body sr) as [[sr1 e]|] eqn:Eh; [|done].
    intros Hrest.
    destruct (reply_handler_frame body sr sr1 e Eh) as (_ & Hp1 & Ht1 & Hd1 & Hb1).
    destruct (IH sr1 Hrest) as (Hp2 & Ht2 & Hd2 & Hb2 & Hs2).
    split; [congruence|]. split; [congruence|]. split; [congruence|]. split.
    + intros id buf Hid.
      destruct (Hb1 id buf Hid) as (new1 & Hl1 & Hf1 & _ & Hn1).
      destruct (Hb2 id _ Hl1) as (new2 & Hl2 & Hf2 & Hn2).
      exists (new1 ++ new2). rewrite app_assoc. repeat split; [done| |].
      * by apply Forall_app.
      * intros Hno. apply Forall_cons in Hno as [Hbody Hno].
        by rewrite (Hn1 Hbody), (Hn2 Hno).
    + intros Hslot. apply Hs2. intros id buf1 Hid1.
      assert (Hin : id ∈ dom (pendingRequests sr)) by (rewrite <- Hd1; by apply elem_of_dom).
      apply elem_of_dom in Hin as [buf Hid].
      destruct (Hb1 id buf Hid) as (new1 & Hl1 & _ & Hlen & _).
      rewrite Hl1 in Hid1. injection Hid1 as <-. apply Hlen. by eapply Hslot.
Qed.

Lemma deliver_all_frame bodies sr sr' :
  deliver_all Unmarshal bodies sr = Some sr' ->
  publisher sr' = publisher sr /\ topic sr' = topic sr /\
  dom (pendingRequests sr') = dom (pendingRequests sr).
Proof.
  revert sr. induction bodies as [|body rest IH]; intros sr; simpl.
  - by intros [= <-].
  - destruct (reply_handler Unmarshal body sr) as [[sr1 e]|] eqn:Eh; [|done].
    intros Hrest.
    destruct (reply_handler_frame body sr sr1 e Eh) as (_ & Hp1 & Ht1 & Hd1 & _).
    destruct (IH sr1 Hrest) as (Hp2 & Ht2 & Hd2). repeat split; congruence.
Qed.

Lemma await_frame uuid within sr sr' response err unseen :
  await Unmarshal uuid within sr = Some (sr', response, err, unseen) ->
  publisher sr' = publisher sr /\ topic sr' = topic sr /\
  dom (pendingRequests sr') = dom (pendingRequests sr).
Proof.
  revert sr. induction within as [|body rest IH]; intros sr; simpl.
  - destruct (pendingRequests sr !! uuid) as [[|m buffered]|] eqn:E; intros [= <- _ _ _];
      try done.
    simpl. repeat split. apply dom_insert_lookup_L. by rewrite E.
  - destruct (pendingRequests sr !! uuid) as [[|m buffered]|] eqn:E.
    + destruct (reply_handler Unmarshal body sr) as [[sr1 e]|] eqn:Eh; [|done].
      intros Hrest.
      destruct (reply_handler_frame body sr sr1 e Eh) as (_ & Hp1 & Ht1 & Hd1 & _).
      destruct (IH sr1 Hrest) as (Hp2 & Ht2 & Hd2). repeat split; congruence.
    + intros [= <- _ _ _]. simpl. repeat split. apply dom_insert_lookup_L. by rewrite E.
    + destruct (reply_handler Unmarshal body sr) as [[sr1 e]|] eqn:Eh; [|done].
      intros Hrest.
      destruct (reply_handler_frame body sr sr1 e Eh) as (_ & Hp1 & Ht1 & Hd1 & _).
      destruct (IH sr1 Hrest) as (Hp2 & Ht2 & Hd2). repeat split; congruence.
Qed.

(** X9: a call of [Route] whose request could be encoded and that gets
    the mutex for its insert publishes once, the encoded request under
    the topic made of its method and resource, whether it returns or
    not, and does not touch the router's topic; when it returns, the
    waiters in the table are those from before the call without the one
    for its own identifier.  A call that finds the reply handler blocked
    in its send, with the mutex held, blocks in its first [Lock]: it
    publishes nothing and registers no waiter. *)
Theorem Route_publishes_once
    (sr : StandardRouter) (msg : RoutedMessage) (uuid : string)
    (payload : bytes) (before within late : list bytes) :
  Marshal (stamp sr uuid msg) = Some payload ->
  (deliver_all Unmarshal before sr = None ->
   Route Marshal Unmarshal sr msg uuid before within late =
     (sr, stamp sr uuid msg, route_hangs)) /\
  (is_Some (deliver_all Unmarshal before sr) ->
   let '(sr', _, result) := Route Marshal Unmarshal sr msg uuid before within late in
   publisher sr' =
     publisher sr ++
       [(pretty (GetMethod msg) +:+ "_" +:+ pretty (GetResource msg), payload)] /\
   topic sr' = topic sr /\
   match result with
   | route_returns _ _ =>
       dom (pendingRequests sr') = dom (pendingRequests sr) ∖ {[uuid]}
   | route_hangs => True
   end).
Proof.
  intros Hm. unfold Route. rewrite Hm. split; [by intros ->|].
  intros [sr0 Hbefore]. rewrite Hbefore.
  destruct (deliver_all_frame _ _ _ Hbefore) as (Hpb & Htb & Hdb).
  change (GetId (stamp sr uuid msg)) with uuid.
  set (sr1 := issue sr0 (stamp sr uuid msg) payload).
  assert (H0 : publisher sr1 =
                 publisher sr ++ [(pretty (GetMethod msg) +:+ "_" +:+
                                   pretty (GetResource msg), payload)] /\
               topic sr1 = topic sr /\
               dom (pendingRequests sr1) = {[uuid]} ∪ dom (pendingRequests sr)).
  { subst sr1. unfold issue. simpl. rewrite Hpb, Htb, <- Hdb.
    repeat split. apply dom_insert_L. }
  destruct H0 as (Hp0 & Ht0 & Hd0).
  destruct (await Unmarshal uuid within sr1) as [[[[sr2 response] err] unseen]|] eqn:Ea;
    [|done].
  destruct (await_frame _ _ _ _ _ _ _ Ea) as (Hp1 & Ht1 & Hd1).
  destruct (deliver_all Unmarshal (unseen ++ late) sr2) as [sr3|] eqn:Ed.
  - destruct (deliver_all_frame _ _ _ Ed) as (Hp2 & Ht2 & Hd2). simpl.
    split; [congruence|]. split; [congruence|].
    rewrite dom_delete_L, Hd2, Hd1, Hd0.
    apply set_eq. intros id. rewrite !elem_of_difference, elem_of_union. tauto.
  - split; [congruence|]. split; [congruence|done].
Qed.

Lemma await_skip uuid pre rest sr sr1 :
  pendingRequests sr !! uuid = Some [] ->
  no_reply_for Unmarshal uuid pre ->
  deliver_all Unmarshal pre sr = Some sr1 ->
  await Unmarshal uuid (pre ++ rest) sr = await Unmarshal uuid rest sr1 /\
  pendingRequests sr1 !! uuid = Some [].
Proof.
  revert sr. induction pre as [|body pre IH]; intros sr Hempty Hno; simpl.
  - by intros [= <-].
  - rewrite Hempty. apply Forall_cons in Hno as [Hbody Hno].
    destruct (reply_handler Unmarshal body sr) as [[sr' e]|] eqn:Eh; [|done].
    intros Hrest. apply IH; [|done|done].
    by rewrite (reply_handler_other Unmarshal uuid body sr sr' e Hbody Eh).
Qed.

Lemma await_ready uuid within sr m buffered :
  pendingRequests sr !! uuid = Some (m :: buffered) ->
  await Unmarshal uuid within sr =
    Some (with_pending sr (<[uuid := buffered]> (pendingRequests sr)), Some m, None, within).
Proof. intros H. destruct within; simpl; by rewrite H. Qed.

(** X10: [Route] returns the first reply that bears its identifier.
    When the reply handler returns from the deliveries it runs on before
    the call takes the mutex, the deliveries before the reply bear other
    identifiers or do not decode, and the handler returns from them and
    from those that follow, the call returns that reply and no error,
    whatever follows, and its waiter is gone from the table. *)
Theorem Route_returns_first_reply
    (sr sr0 sr1 sr2 : StandardRouter) (msg m : RoutedMessage) (uuid : string)
    (payload body : bytes) (before pre post late : list bytes) :
  Marshal (stamp sr uuid msg) = Some payload ->
  deliver_all Unmarshal before sr = Some sr0 ->
  no_reply_for Unmarshal uuid pre ->
  deliver_all Unmarshal pre (issue sr0 (stamp sr uuid msg) payload) = Some sr1 ->
  Unmarshal body = Some m ->
  GetId m = uuid ->
  deliver_all Unmarshal (post ++ late) sr1 = Some sr2 ->
  Route Marshal Unmarshal sr msg uuid before (pre ++ body :: post) late =
    (with_pending sr2 (delete uuid (pendingRequests sr2)), stamp sr uuid msg,
     route_returns (Some m) None).
Proof.
  intros Hm Hbefore Hno Hpre Hbody Hid Hpost. unfold Route. rewrite Hm, Hbefore.
  change (GetId (stamp sr uuid msg)) with uuid.
  set (sr' := issue sr0 (stamp sr uuid msg) payload) in *.
  assert (Hreg : pendingRequests sr' !! uuid = Some []).
  { subst sr'. unfold issue. simpl. apply lookup_insert_eq. }
  destruct (await_skip uuid pre (body :: post) sr' sr1 Hreg Hno Hpre) as [-> Hempty].
  simpl. rewrite Hempty. unfold reply_handler. rewrite Hbody, Hid, Hempty.
  rewrite decide_True by (simpl; lia).
  erewrite await_ready by (simpl; apply lookup_insert_eq).
  unfold with_pending. simpl.
  rewrite insert_insert_eq, (insert_id _ _ _ Hempty).
  replace (mkStandardRouter (publisher sr1) (topic sr1) (pendingRequests sr1))
    with sr1 by (by destruct sr1).
  rewrite Hpost. reflexivity.
Qed.
End RouterRuns.

(** ** The courier's goroutine over several turns *)
Section CourierOrder.
Import proto service.
Variable Marshal : Request -> option bytes.

Lemma courier_turn_addressed response rt stack destination waiting pub log :
  routing response = Some rt ->
  route_to rt = stack ++ [destination] ->
  courier_turn Marshal (mkCourier (response :: waiting) pub log) =
    match Marshal (set_RouteTo response rt stack) with
    | Some body =>
        returns (mkCourier waiting (pub ++ [(GetUri destination, body)])
                   ((log ++ [log_publishing response]) ++ [log_published]))
    | None =>
        returns (mkCourier waiting pub
                   ((log ++ [log_publishing response]) ++ [log_marshal_failed]))
    end.
Proof.
  intros Hrt Hstack. unfold courier_turn. simpl. rewrite Hrt, Hstack.
  destruct (lookup_last_snoc stack destination) as [-> ->].
  rewrite decide_False by (rewrite length_app; simpl; lia).
  by destruct (Marshal _).
Qed.

(** A turn does for a response at the head of any channel what it does
    for the response alone. *)
Lemma courier_turn_alone response waiting pub log :
  addressed response ->
  courier_turn Marshal (mkCourier (response :: waiting) pub log) =
    returns (mkCourier waiting (pub ++ (alone Marshal response).1)
               (log ++ (alone Marshal response).2)) /\
  length (alone Marshal response).1 <= 1.
Proof.
  intros (rt & stack & destination & Hrt & Hstack). unfold alone.
  rewrite !(courier_turn_addressed response rt stack destination) by done.
  destruct (Marshal _); simpl.
  - split; [|lia]. by rewrite <- app_assoc.
  - split; [|lia]. by rewrite app_nil_r, <- app_assoc.
Qed.

(** A turn on memory does for the response at the head what the turn on
    the request behind it does, and leaves the popped stack in the
    [Routing] object. *)
Lemma courier_turn_at_value m response waiting pub log ra rt :
  at_routing response = Some ra -> m !! ra = Some rt ->
  courier_turn_at Marshal (mkCourierMemory m (response :: waiting) pub log) =
    match courier_turn Marshal (mkCourier [resolve m response] pub log) with
    | returns c => returns (mkCourierMemory (alter pop ra m) waiting (published c) (logged c))
    | panics r c => panics r (mkCourierMemory m waiting (published c) (logged c))
    | blocks => blocks
    end.
Proof.
  intros Hra Hrt. unfold courier_turn_at, courier_turn.
  cbn [channel routings mem_published mem_logged responses published logged].
  rewrite Hra. cbn [routing resolve]. rewrite Hra. cbn [mbind option_bind].
  rewrite Hrt. case_decide; [done|].
  destruct (route_to rt !! _) as [destinationRoute|]; [|done].
  rewrite (alter_alt_Some _ _ _ _ Hrt). unfold pop.
  replace (Z.to_nat (Z.of_nat (length (route_to rt)) - 1))
    with (length (route_to rt) - 1) by lia.
  set (rt' := mkRouting _ _).
  assert (Hres : resolve (<[ra := rt']> m) response =
                 set_RouteTo (resolve m response) rt (route_to rt')).
  { unfold resolve, set_RouteTo. cbn. rewrite Hra. cbn. by rewrite lookup_insert_eq. }
  rewrite Hres. by destruct (Marshal _).
Qed.

Lemma resolve_addressed m response :
  addressed (resolve m response) ->
  exists ra rt, at_routing response = Some ra /\ m !! ra = Some rt.
Proof.
  intros (rt & stack & d & Hrt & _). unfold resolve in Hrt. cbn in Hrt.
  destruct (at_routing response) as [ra|]; [|done]. cbn in Hrt. by exists ra, rt.
Qed.

Lemma courier_turn_at_addressed m response waiting pub log ra :
  at_routing response = Some ra ->
  addressed (resolve m response) ->
  courier_turn_at Marshal (mkCourierMemory m (response :: waiting) pub log) =
    returns (mkCourierMemory (alter pop ra m) waiting
               (pub ++ (alone Marshal (resolve m response)).1)
               (log ++ (alone Marshal (resolve m response)).2)).
Proof.
  intros Hra Haddr.
  destruct (resolve_addressed m response Haddr) as (ra' & rt & Hra' & Hrt).
  assert (ra' = ra) as -> by congruence.
  rewrite (courier_turn_at_value m response waiting pub log ra rt Hra Hrt).
  by destruct (courier_turn_alone (resolve m response) [] pub log Haddr) as [-> _].
Qed.

Lemma resolve_alter_ne m f ra response :
  at_routing response <> Some ra -> resolve (alter f ra m) response = resolve m response.
Proof.
  intros Hne. unfold resolve. f_equal.
  destruct (at_routing response) as [ra'|]; [|done]. cbn.
  apply lookup_alter_ne. congruence.
Qed.

(** X11: the courier's goroutine publishes in the order of the channel,
    and what it publishes for a response depends on what earlier turns
    left in memory.  On a channel that starts with responses whose
    [Routing] objects are pairwise distinct and whose destination stacks
    are not empty, as many turns as there are such responses return,
    leave what was behind them on the channel and each stack popped
    once, and have published and logged, for one response after the
    other, what the goroutine publishes and logs for that response
    alone: at most one message each, none for a response that cannot be
    encoded, which does not disturb the ones behind it.  Two entries
    that share their [Routing] object are not independent: the turn on
    the second finds the stack as the turn on the first left it, and
    panics when the first took its last entry. *)
Theorem courier_publishes_in_order
    (rs waiting : list RequestAt) (m : gmap nat Routing)
    (pub : list (string * bytes)) (log : list log_line) :
  (NoDup (at_routing <$> rs) ->
   Forall (fun r => addressed (resolve m r)) rs ->
   courier_turns Marshal (length rs) (mkCourierMemory m (rs ++ waiting) pub log) =
     returns (mkCourierMemory (popped rs m) waiting
                (pub ++ concat ((fun r => (alone Marshal (resolve m r)).1) <$> rs))
                (log ++ concat ((fun r => (alone Marshal (resolve m r)).2) <$> rs))) /\
   Forall (fun r => length (alone Marshal (resolve m r)).1 <= 1) rs) /\
  (forall first second ra,
     at_routing first = Some ra -> at_routing second = Some ra ->
     addressed (resolve m first) ->
     courier_turns Marshal 2 (mkCourierMemory m (first :: second :: waiting) pub log) =
       courier_turns Marshal 1
         (mkCourierMemory (alter pop ra m) (second :: waiting)
            (pub ++ (alone Marshal (resolve m first)).1)
            (log ++ (alone Marshal (resolve m first)).2)) /\
     routing (resolve (alter pop ra m) second) = pop <$> routing (resolve m first) /\
     (forall rt d, m !! ra = Some rt -> route_to rt = [d] ->
        courier_turns Marshal 2 (mkCourierMemory m (first :: second :: waiting) pub log) =
          panics index_out_of_range
            (mkCourierMemory (alter pop ra m) waiting
               (pub ++ (alone Marshal (resolve m first)).1)
               ((log ++ (alone Marshal (resolve m first)).2) ++
                  [log_publishing (resolve (alter pop ra m) second)])))).
Proof.
  split.
  - intros Hdup Hall. revert m pub log Hdup Hall.
    induction rs as [|r rs IH]; intros m pub log Hdup Hall.
    + simpl. by rewrite !app_nil_r.
    + apply Forall_cons in Hall as [Hr Hall].
      rewrite fmap_cons in Hdup. apply NoDup_cons in Hdup as [Hnotin Hdup].
      destruct (resolve_addressed m r Hr) as (ra & rt & Hra & Hrt).
      assert (Hsame : Forall (fun r' => resolve (alter pop ra m) r' = resolve m r') rs).
      { apply Forall_forall. intros r' Hin. apply resolve_alter_ne.
        intros Heq. apply Hnotin. rewrite Hra, <- Heq. by apply list_elem_of_fmap_2. }
      assert (Hpub : (fun r' => (alone Marshal (resolve (alter pop ra m) r')).1) <$> rs =
                     (fun r' => (alone Marshal (resolve m r')).1) <$> rs).
      { apply Forall_fmap_ext_1. eapply Forall_impl; [exact Hsame|]. by intros r' ->. }
      assert (Hlog : (fun r' => (alone Marshal (resolve (alter pop ra m) r')).2) <$> rs =
                     (fun r' => (alone Marshal (resolve m r')).2) <$> rs).
      { apply Forall_fmap_ext_1. eapply Forall_impl; [exact Hsame|]. by intros r' ->. }
      cbn [length courier_turns app].
      rewrite (courier_turn_at_addressed m r (rs ++ waiting) pub log ra Hra Hr).
      cbn [and_then].
      destruct (IH (alter pop ra m) (pub ++ (alone Marshal (resolve m r)).1)
                  (log ++ (alone Marshal (resolve m r)).2) Hdup) as [-> Hone].
      { apply Forall_forall. intros r' Hin. rewrite Forall_forall in Hsame, Hall.
        rewrite (Hsame r' Hin). by apply Hall. }
      split.
      * unfold popped. cbn [foldl]. rewrite Hra, Hpub, Hlog, !fmap_cons. cbn [concat].
        by rewrite <- !app_assoc.
      * constructor.
        -- by destruct (courier_turn_alone (resolve m r) [] [] [] Hr) as [_ ?].
        -- apply Forall_forall. intros r' Hin. rewrite Forall_forall in Hsame, Hone.
           rewrite <- (Hsame r' Hin). by apply Hone.
  - intros first second ra Hfirst Hsecond Haddr. cbn [courier_turns].
    rewrite (courier_turn_at_addressed m first (second :: waiting) pub log ra Hfirst Haddr).
    cbn [and_then]. split; [reflexivity|]. split.
    + unfold resolve. cbn. rewrite Hfirst, Hsecond. cbn. apply lookup_alter_eq.
    + intros rt d Hrt Hstack. unfold courier_turn_at.
      cbn [channel routings mem_published mem_logged]. rewrite Hsecond.
      rewrite lookup_alter_eq, Hrt. cbn [fmap option_fmap option_map].
      assert (Hpop : route_to (pop rt) = []) by (unfold pop; by rewrite Hstack).
      case_decide as Hge; [reflexivity|]. rewrite Hpop in Hge. simpl in Hge. lia.
Qed.
End CourierOrder.

(** ** The courier's channel *)
Section CourierChannel.
Import proto service.

Lemma Courier_Send_addressed response c :
  addressed response ->
  exists line,
    Courier_Send response c =
      if decide (length (responses c) < 10)
      then returns (mkCourier (responses c ++ [response]) (published c)
                      (logged c ++ [line]))
      else blocks.
Proof.
  intros (rt & stack & destination & Hrt & Hstack). unfold Courier_Send.
  rewrite Hrt, Hstack.
  destruct stack as [|first stack]; simpl; eexists; reflexivity.
Qed.

(** X17: the courier's channel takes ten responses.  As long as the
    channel does not get past ten, responses with a destination that are
    sent one after the other all get onto the channel, behind what it
    held and in the order sent, with one log line each and nothing
    published by [Send]; on a channel that holds ten, [Send] blocks. *)
Theorem courier_channel_holds_ten (rs : list Request) (c : Courier) :
  Forall addressed rs ->
  (length (responses c) + length rs <= 10 ->
   exists lines,
     Courier_Sends rs c =
       returns (mkCourier (responses c ++ rs) (published c) (logged c ++ lines)) /\
     length lines = length rs) /\
  (length (responses c) = 10 ->
   forall response, addressed response -> Courier_Send response c = blocks).
Proof.
  intros Hall. split.
  - revert c. induction Hall as [|r rs Hr _ IH]; intros c Hlen; simpl.
    + exists []. rewrite !app_nil_r. by destruct c.
    + simpl in Hlen. destruct (Courier_Send_addressed r c Hr) as (line & ->).
      rewrite decide_True by lia. simpl.
      destruct (IH (mkCourier (responses c ++ [r]) (published c) (logged c ++ [line])))
        as (lines & -> & Hlines); [simpl; rewrite length_app; simpl; lia|].
      simpl. exists (line :: lines). rewrite <- !app_assoc. simpl.
      split; [reflexivity|]. by rewrite Hlines.
  - intros Hfull response Hr. destruct (Courier_Send_addressed response c Hr) as (line & ->).
    by rewrite decide_False by lia.
Qed.
End CourierChannel.

(** ** The heartbeat courier over whole schedules *)
Section HeartbeatRuns.
Import proto service.
Context {S : Type}.
Variable parent_Send : ResponseSender S.
Variable GenerateResponse : Request -> Request -> Request.
Variable RouteToUri : string -> Routing.
Variable request : Request.

Local Abbreviation step_of := (take_step parent_Send GenerateResponse RouteToUri request).
Local Abbreviation steps_of := (take_steps parent_Send GenerateResponse RouteToUri request).

(** X12: a handler gets at most two completed responses through the
    heartbeat courier.  In every run, each completed response that went
    into [Send] either waits on [quit] or is the one the goroutine took
    when it returned; [quit] holds at most one, so there are at most two,
    a third [Send] of a completed response blocks, and a goroutine that
    has returned has seen one. *)
Theorem at_most_two_completed (p : S) (es : list step) (i : invocation S) :
  steps_of es (NewRequestHeartbeatCourier p) = Some i ->
  completed_signals es =
    length (quit (rhc i)) + (if is_emitter_returned (emitter_pc i) then 1 else 0) /\
  completed_signals es <= 2 /\
  (completed_signals es = 2 ->
   forall response, GetCompleted response = true -> step_of (signal response) i = None).
Proof.
  intros Hrun.
  destruct (take_steps_signals parent_Send GenerateResponse RouteToUri request
              es _ i Hrun) as [Heq Hlen]; [simpl; lia|].
  unfold returned_count in Heq. simpl in Heq.
  split; [lia|]. split; [destruct (is_emitter_returned (emitter_pc i)); lia|].
  intros Htwo response Hcompl. simpl.
  assert (Hfull : length (quit (rhc i)) = 1)
    by (destruct (is_emitter_returned (emitter_pc i)); lia).
  unfold rhc_signal. rewrite Hcompl. rewrite decide_False by lia.
  by destruct (emitter_pc i), (sending i).
Qed.

(** X13: a goroutine that has returned stays returned: from a state in
    which it has taken the signal, no schedule brings another heartbeat
    to the parent, and none contains a timer or a beat. *)
Theorem returned_emitter_is_silent (es : list step) (i i' : invocation S) :
  steps_of es i = Some i' ->
  emitter_pc i = emitter_returned ->
  emitter_pc i' = emitter_returned /\
  heartbeats (handed i') = heartbeats (handed i) /\
  timers es = 0 /\ beats es = 0.
Proof.
  revert i. induction es as [|e es IH]; intros i; simpl.
  - intros [= <-] Hpc. done.
  - destruct (step_of e i) as [i1|] eqn:E; [|done]. intros Hsteps Hpc.
    assert (H1 : emitter_pc i1 = emitter_returned /\
                 heartbeats (handed i1) = heartbeats (handed i) /\
                 is_timer e = false /\ is_beat e = false).
    { destruct e as [ms| | |response|]; simpl in E; rewrite Hpc in E; try done.
      - destruct (sending i); [done|].
        destruct (rhc_signal response (rhc i)); try done. by injection E as <-.
      - destruct (sending i) as [response|]; [|done].
        destruct (rhc_forward parent_Send response (rhc i)); try done;
          injection E as <-; simpl; [|done].
        rewrite heartbeats_snoc. simpl. by rewrite Nat.add_0_r. }
    destruct H1 as (Hpc1 & Hhb1 & Ht & Hb).
    destruct (IH i1 Hsteps Hpc1) as (Hpc' & Hhb' & Hts & Hbs).
    rewrite timers_cons, beats_cons, Ht, Hb, Hts, Hbs. repeat split; [done|congruence].
Qed.

Lemma handler_handed_app log1 log2 :
  handler_handed (log1 ++ log2) = handler_handed log1 ++ handler_handed log2.
Proof. unfold handler_handed. by rewrite filter_app, fmap_app. Qed.

Lemma rhc_forward_panics response (h h' : RequestHeartbeatCourier S) r :
  rhc_forward parent_Send response h = panics r h' ->
  exists p', parent_Send response (parent h) = panics r p'.
Proof.
  unfold rhc_forward. destruct (parent_Send response (parent h)); try done.
  intros [= <- _]. by eexists.
Qed.

Lemma take_steps_in_order es i i' :
  steps_of es i = Some i' ->
  exists new, handed i' = handed i ++ new /\
    (handler_handed new ++ option_list (sending i'))
      `sublist_of` (option_list (sending i) ++ signalled es) /\
    (never_panics parent_Send ->
     handler_handed new ++ option_list (sending i') =
       option_list (sending i) ++ signalled es).
Proof.
  revert i. induction es as [|e es IH]; intros i; simpl.
  - intros [= <-]. exists []. rewrite !app_nil_r. simpl. done.
  - destruct (step_of e i) as [i1|] eqn:E; [|done]. intros Hsteps.
    destruct (IH i1 Hsteps) as (new & Hh & Hsub & Heq).
    destruct e as [ms| | |response|]; simpl in E.
    + destruct (emitter_pc i), (quit (rhc i)); try done. case_decide; [|done].
      injection E as <-. simpl in *. by exists new.
    + destruct (emitter_pc i); try done.
      destruct (rhc_forward parent_Send _ (rhc i)); [| |done]; injection E as <-;
        simpl in *; [|by exists new].
      eexists. rewrite Hh, <- app_assoc. split; [done|].
      rewrite handler_handed_app. done.
    + destruct (emitter_pc i), (quit (rhc i)); try done;
        injection E as <-; simpl in *; by exists new.
    + assert (Hgo : sending i = None /\ sending i1 = Some response /\
                handed i1 = handed i).
      { destruct (emitter_pc i), (sending i); try done;
          destruct (rhc_signal response (rhc i)); try done; by injection E as <-. }
      destruct Hgo as (Hn & Hs1 & Hh1). rewrite Hn, Hs1, Hh1 in *. simpl in *.
      by exists new.
    + assert (Hgo : exists response, sending i = Some response /\ sending i1 = None /\
                ((handed i1 = handed i ++ [(by_handler, response)]) \/
                 (handed i1 = handed i /\
                  exists r h, rhc_forward parent_Send response (rhc i) = panics r h))).
      { destruct (emitter_pc i), (sending i) as [response|]; try done;
          exists response;
          destruct (rhc_forward parent_Send response (rhc i)) eqn:Ef; try done;
          injection E as <-; simpl; eauto 10. }
      destruct Hgo as (response & Hs & Hs1 & [Hh1|[Hh1 (r & h & Hpanic)]]);
        rewrite Hs, Hs1, Hh1 in *; simpl in *.
      * eexists. rewrite Hh, <- app_assoc. split; [done|].
        rewrite handler_handed_app. simpl. split; [by apply sublist_skip|].
        intros Hnp. by rewrite (Heq Hnp).
      * exists new. split; [done|]. split; [by apply sublist_cons|].
        intros Hnp. destruct (rhc_forward_panics _ _ _ _ Hpanic) as [p' Hp'].
        destruct (Hnp _ _ _ _ Hp').
Qed.

(** X14: the heartbeat courier passes the handler's responses on in the
    order they went into [Send], each at most once: in every run, the
    responses of the handler that reached the parent, followed by the one
    that is between the two steps of [Send], are among the responses that
    went into [Send], in that order; and they are all of them when the
    parent sender never panics. *)
Theorem handler_replies_in_order (p : S) (es : list step) (i : invocation S) :
  steps_of es (NewRequestHeartbeatCourier p) = Some i ->
  (handler_handed (handed i) ++ option_list (sending i)) `sublist_of` signalled es /\
  (never_panics parent_Send ->
   handler_handed (handed i) ++ option_list (sending i) = signalled es).
Proof.
  intros Hrun. destruct (take_steps_in_order es _ i Hrun) as (new & Hh & Hsub & Heq).
  simpl in Hh, Hsub, Heq. rewrite Hh. split; [exact Hsub|exact Heq].
Qed.
End HeartbeatRuns.

(** ** The deferred function of the handler wrapper *)
Section RecoveryFacts.
Import proto service.
Variable Marshal_Error : Error -> option bytes.
Variable Unmarshal : bytes -> option Request.
Variable GenerateResponse : Request -> Request -> Request.
Variable RouteToUri : string -> Routing.
Variable where_ : string.
Variable environ : gmap string string.

Local Abbreviation the_reply :=
  (panic_reply Marshal_Error GenerateResponse RouteToUri where_).
Local Abbreviation wrapper :=
  (AddHandler Marshal_Error Unmarshal GenerateResponse RouteToUri where_ environ).
Local Abbreviation deferred :=
  (recovery Marshal_Error GenerateResponse RouteToUri where_).
Local Abbreviation steps_of := (take_steps Courier_Send GenerateResponse RouteToUri).
Local Abbreviation step_of := (take_step Courier_Send GenerateResponse RouteToUri).

Lemma Courier_Send_effect response c :
  match Courier_Send response c with
  | returns c' => responses c' = responses c ++ [response] /\ published c' = published c
  | panics _ c' => c' = c
  | blocks => True
  end.
Proof.
  unfold Courier_Send. destruct (routing response) as [rt|]; [|done].
  destruct (route_to rt); [done|]. simpl. by case_decide.
Qed.

Lemma rhc_forward_effect response (h : RequestHeartbeatCourier Courier) :
  match rhc_forward Courier_Send response h with
  | returns h' =>
      responses (parent h') = responses (parent h) ++ [response] /\
      published (parent h') = published (parent h) /\ quit h' = quit h
  | panics _ h' => h' = h
  | blocks => True
  end.
Proof.
  unfold rhc_forward. pose proof (Courier_Send_effect response (parent h)) as H.
  destruct (Courier_Send response (parent h)) as [c'|r c'|]; simpl; [|subst c'|done].
  - by destruct H.
  - by destruct h.
Qed.

(** What a step of an invocation does to the courier behind it: each
    response handed over is put on the channel, and nothing is
    published. *)
Lemma courier_step_frame request e i i' :
  step_of request e i = Some i' ->
  exists new, handed i' = handed i ++ new /\
    responses (parent (rhc i')) = responses (parent (rhc i)) ++ (snd <$> new) /\
    published (parent (rhc i')) = published (parent (rhc i)) /\
    (is_emitter_step e = true -> handler_handed new = [] /\ sending i' = sending i).
Proof.
  destruct e as [ms| | |response|]; simpl.
  - destruct (emitter_pc i), (quit (rhc i)); try done. case_decide; [|done].
    intros [= <-]. exists []. simpl. by rewrite !app_nil_r.
  - destruct (emitter_pc i); try done.
    pose proof (rhc_forward_effect (heartbeat GenerateResponse RouteToUri request) (rhc i)) as H.
    destruct (rhc_forward _ _ _) as [h|r h|]; [| |done]; intros [= <-]; simpl.
    + destruct H as (Hr & Hp & _). eexists [_]. simpl. done.
    + subst h. exists []. simpl. by rewrite !app_nil_r.
  - destruct (emitter_pc i), (quit (rhc i)); try done;
      intros [= <-]; exists []; simpl; by rewrite !app_nil_r.
  - intros Hstep. exists [].
    assert (Hgo : exists h, rhc_signal response (rhc i) = returns h /\
              handed i' = handed i /\ rhc i' = h).
    { destruct (emitter_pc i), (sending i); try done;
        destruct (rhc_signal response (rhc i)) eqn:E; try done;
        injection Hstep as <-; eauto. }
    destruct Hgo as (h & Hsig & -> & ->). rewrite !app_nil_r.
    unfold rhc_signal in Hsig. destruct (GetCompleted response).
    + case_decide; [|done]. by injection Hsig as <-.
    + by injection Hsig as <-.
  - intros Hstep.
    assert (Hgo : exists response,
              match rhc_forward Courier_Send response (rhc i) with
              | returns h => handed i' = handed i ++ [(by_handler, response)] /\ rhc i' = h
              | panics _ h => handed i' = handed i /\ rhc i' = h
              | blocks => False
              end).
    { destruct (emitter_pc i), (sending i) as [response|]; try done; exists response;
        destruct (rhc_forward Courier_Send response (rhc i)) eqn:E; try done;
        by injection Hstep as <-. }
    destruct Hgo as (response & Hgo).
    pose proof (rhc_forward_effect response (rhc i)) as H.
    destruct (rhc_forward Courier_Send response (rhc i)) as [h|r h|]; [| |done].
    + destruct Hgo as [-> ->]. destruct H as (Hr & Hp & _). by exists [(by_handler, response)].
    + destruct Hgo as [-> ->]. subst h. exists []. by rewrite !app_nil_r.
Qed.

Lemma courier_steps_frame request es i i' :
  steps_of request es i = Some i' ->
  exists new, handed i' = handed i ++ new /\
    responses (parent (rhc i')) = responses (parent (rhc i)) ++ (snd <$> new) /\
    published (parent (rhc i')) = published (parent (rhc i)) /\
    (forallb is_emitter_step es = true -> handler_handed new = [] /\ sending i' = sending i).
Proof.
  revert i. induction es as [|e es IH]; intros i; simpl.
  - intros [= <-]. exists []. simpl. by rewrite !app_nil_r.
  - destruct (step_of request e i) as [i1|] eqn:E; [|done]. intros Hsteps.
    destruct (courier_step_frame request e i i1 E) as (new1 & Hh1 & Hr1 & Hp1 & He1).
    destruct (IH i1 Hsteps) as (new2 & Hh2 & Hr2 & Hp2 & He2).
    exists (new1 ++ new2). rewrite Hh2, Hh1, Hr2, Hr1, Hp2, Hp1, fmap_app, !app_assoc.
    split; [done|]. split; [done|]. split; [done|].
    intros Hall. apply andb_true_iff in Hall as [Ha Hb].
    destruct (He1 Ha) as [Hn1 Hs1]. destruct (He2 Hb) as [Hn2 Hs2].
    rewrite handler_handed_app, Hn1, Hn2. split; [done|congruence].
Qed.

(** X19: what the deferred function of the wrapper does when it gets
    through.  Let [GenerateResponse] keep the completed flag and the
    payload of its template and leave the first entry of the template's
    destination stack in place, and let [RouteToUri] begin the stack
    with its URI.  With [PLATFORM_PREVENT_PANICS] not set, or set to
    ["1"], and the handler panicking with value [r], the response of the
    deferred function is completed, carries the encoded message that
    names the path, the place and the value of the panic, and has
    ["resource:///platform/reply/error"] as its first destination.
    Under every schedule of the heartbeat goroutine no panic leaves the
    wrapper, and when the wrapper returns, the handler's side has handed
    the courier exactly that one response, behind whatever heartbeats
    the goroutine still sent, and the delivery was published under
    ["panic." + path] and nothing else was.  With [quit] empty and room
    on the courier's channel the wrapper returns without any step of the
    goroutine. *)
Theorem handler_fault_is_contained
    (path : string) (handler : Handler) (p : bytes) (c : Courier)
    (request : Request) (r : string) (i : invocation Courier) :
  (forall req resp, completed (GenerateResponse req resp) = completed resp) ->
  (forall req resp, payload (GenerateResponse req resp) = payload resp) ->
  (forall req resp rt first rest,
     routing resp = Some rt -> route_to rt = first :: rest ->
     exists rt' rest',
       routing (GenerateResponse req resp) = Some rt' /\ route_to rt' = first :: rest') ->
  (forall u, exists first rest,
     route_to (RouteToUri u) = first :: rest /\ GetUri first = u) ->
  Unmarshal p = Some request ->
  environ !! "PLATFORM_PREVENT_PANICS" = None \/
    environ !! "PLATFORM_PREVENT_PANICS" = Some "1" ->
  handler request (NewRequestHeartbeatCourier c) = panics r i ->
  (GetCompleted (the_reply path request r) = true /\
   payload (the_reply path request r) =
     default [] (Marshal_Error
       (mkError (Some ("A fatal error has occurred. " +:+ path +:+ ": " +:+
                       where_ +:+ " " +:+ r)))) /\
   exists rt first rest,
     routing (the_reply path request r) = Some rt /\ route_to rt = first :: rest /\
     GetUri first = "resource:///platform/reply/error") /\
  (forall before between,
     match wrapper path handler p before between c with
     | returned_nil i' =>
         exists new,
           handed i' = handed i ++ new /\
           handler_handed new = [the_reply path request r] /\
           responses (parent (rhc i')) = responses (parent (rhc i)) ++ (snd <$> new) /\
           published (parent (rhc i')) =
             published (parent (rhc i)) ++ [("panic." +:+ path, p)]
     | panicked _ _ | dropped _ => False
     | stuck => True
     end) /\
  (sending i = None -> emitter_pc i <> emitter_panicked -> quit (rhc i) = [] ->
   length (responses (parent (rhc i))) < 10 ->
   wrapper path handler p [] [] c =
     returned_nil
       (mkInvocation
          (mkRHC
             (mkCourier
                (responses (parent (rhc i)) ++ [the_reply path request r])
                (published (parent (rhc i)) ++ [("panic." +:+ path, p)])
                (logged (parent (rhc i)) ++
                   [log_sending true (GetUuid (the_reply path request r))
                      "resource:///platform/reply/error"]))
             [true])
          (emitter_pc i) None
          (handed i ++ [(by_handler, the_reply path request r)]))).
Proof.
  intros Hkeep Hpay Hdest Huri Hp Henv Hpanic.
  set (reply := the_reply path request r).
  assert (Hcompl : GetCompleted reply = true).
  { subst reply. unfold GetCompleted, panic_reply. by rewrite Hkeep. }
  assert (Hrt : exists rt first rest,
            routing reply = Some rt /\ route_to rt = first :: rest /\
            GetUri first = "resource:///platform/reply/error").
  { destruct (Huri "resource:///platform/reply/error") as (first & rest & Hstack & Hfirst).
    subst reply. unfold panic_reply.
    destruct (Hdest request
                (mkRequest None (Some (RouteToUri "resource:///platform/reply/error")) []
                   (default [] (Marshal_Error (mkError (Some (fatal_message where_ path r)))))
                   (Some true) None)
                _ first rest eq_refl Hstack) as (rt' & rest' & Hr' & Hs').
    exists rt', first, rest'. eauto. }
  destruct Hrt as (rt & first & rest & Hrouting & Hstack & Hfirst).
  assert (Hwrap : forall before between,
            wrapper path handler p before between c =
              recovery Marshal_Error GenerateResponse RouteToUri where_
                path request r p before between i).
  { intros before between. unfold AddHandler. rewrite Hp, Hpanic.
    rewrite decide_True; [done|]. unfold Getenv. by destruct Henv as [-> | ->]. }
  split; [|split].
  - split; [exact Hcompl|]. split; [|by exists rt, first, rest].
    subst reply. unfold panic_reply. by rewrite Hpay.
  - intros before between. rewrite Hwrap. unfold recovery. fold reply.
    destruct (forallb is_emitter_step (before ++ between)) eqn:Hem; [|done].
    rewrite forallb_app in Hem. apply andb_true_iff in Hem as [Hbefore Hbetween].
    rewrite (take_steps_app GenerateResponse RouteToUri Courier_Send).
    destruct (steps_of request before i) as [i0|] eqn:E0; [|done].
    cbn [mbind option_bind take_steps].
    destruct (step_of request (signal reply) i0) as [i1|] eqn:E1; [|done].
    destruct (steps_of request between i1) as [i2|] eqn:E2; [|done].
    destruct (courier_steps_frame request before i i0 E0) as (n0 & Hh0 & Hr0 & Hp0 & He0).
    destruct (He0 Hbefore) as [Hn0 _].
    destruct (courier_step_frame request (signal reply) i0 i1 E1) as (n1 & Hh1 & Hr1 & Hp1 & _).
    destruct (courier_steps_frame request between i1 i2 E2) as (n2 & Hh2 & Hr2 & Hp2 & He2).
    destruct (He2 Hbetween) as [Hn2 Hs2].
    assert (Hsent : sending i1 = Some reply /\ n1 = []).
    { simpl in E1. destruct (emitter_pc i0), (sending i0); try done;
        destruct (rhc_signal reply (rhc i0)); try done; injection E1 as <-;
        simpl in Hh1; (split; [done|]);
        by apply (app_inv_head (handed i0)); rewrite app_nil_r. }
    destruct Hsent as [Hs1 ->]. rewrite Hs2, Hs1.
    pose proof (rhc_forward_effect reply (rhc i2)) as Hf.
    assert (Hnopanic : forall r' h, rhc_forward Courier_Send reply (rhc i2) <> panics r' h).
    { intros r' h. unfold rhc_forward, Courier_Send. rewrite Hrouting, Hstack. simpl.
      by case_decide. }
    destruct (emitter_pc i2) eqn:Epc; try done;
      destruct (rhc_forward Courier_Send reply (rhc i2)) as [h|r' h|] eqn:Ef; try done;
      try (by destruct (Hnopanic r' h));
      destruct Hf as (Hr3 & Hp3 & _);
      exists (n0 ++ n2 ++ [(by_handler, reply)]); simpl;
      rewrite Hr3, Hp3, Hh2, Hh1, Hh0, Hr2, Hr1, Hr0, Hp2, Hp1, Hp0;
      rewrite !handler_handed_app, Hn0, Hn2, !fmap_app; simpl;
      rewrite !app_nil_r, <- !app_assoc; done.
  - intros Hsending Hpc Hquit Hroom. rewrite Hwrap. unfold recovery. fold reply.
    cbn [app forallb take_steps take_step]. rewrite Hsending.
    unfold rhc_signal. rewrite Hcompl, Hquit. rewrite decide_True by (simpl; lia).
    assert (Hgo :
      match emitter_pc i with
      | emitter_panicked => None
      | _ => Some (mkInvocation (mkRHC (parent (rhc i)) ([] ++ [true])) (emitter_pc i)
                     (Some reply) (handed i))
      end = Some (mkInvocation (mkRHC (parent (rhc i)) [true]) (emitter_pc i)
                    (Some reply) (handed i))).
    { destruct (emitter_pc i); done. }
    rewrite Hgo. cbn [emitter_pc sending rhc handed].
    unfold rhc_forward, Courier_Send. cbn [parent quit]. rewrite Hrouting, Hstack, Hcompl, Hfirst.
    cbn [responses published logged]. rewrite decide_True by done.
    unfold Publish. cbn. by destruct (emitter_pc i).
Qed.

(** X15: the deferred function of the handler wrapper is itself a
    [Send] and depends on the heartbeat goroutine and on the response.
    When the completed error response comes out of [GenerateResponse]
    with an empty destination stack, then under every schedule that gets
    its signal onto [quit], the courier's [Send] panics: nothing is put
    on the courier's channel or published, and this second panic leaves
    the deferred function.  When [quit] holds a signal and the goroutine
    is in its [select], the deferred function waits until the goroutine
    has taken that signal, and goes on from there as from the invocation
    in which the goroutine has returned. *)
Theorem recovery_can_fail
    (path : string) (p : bytes) (request : Request) (r : string)
    (i : invocation Courier) :
  GetCompleted (the_reply path request r) = true ->
  ((exists rt, routing (the_reply path request r) = Some rt /\ route_to rt = []) ->
   forall before between i1,
     forallb is_emitter_step (before ++ between) = true ->
     steps_of request (before ++ signal (the_reply path request r) :: between) i = Some i1 ->
     emitter_pc i1 <> emitter_panicked ->
     deferred path request r p before between i =
       panicked index_out_of_range
         (mkInvocation (rhc i1) (emitter_pc i1) None (handed i1))) /\
  (forall waiting, emitter_pc i = at_select -> quit (rhc i) = true :: waiting ->
   (forall between, deferred path request r p [] between i = stuck) /\
   (forall before between,
      deferred path request r p (take_quit :: before) between i =
        deferred path request r p before between
          (mkInvocation (mkRHC (parent (rhc i)) waiting) emitter_returned
             (sending i) (handed i)))).
Proof.
  intros Hcompl. set (reply := the_reply path request r) in *. split.
  - intros (rt & Hrt & Hstack) before between i1 Hem Hrun Hpc.
    unfold recovery. fold reply. rewrite Hem, Hrun.
    assert (Hsent : sending i1 = Some reply).
    { rewrite forallb_app in Hem. apply andb_true_iff in Hem as [_ Hbetween].
      rewrite (take_steps_app GenerateResponse RouteToUri Courier_Send) in Hrun.
      destruct (steps_of request before i) as [i0|]; [|done].
      cbn [mbind option_bind take_steps] in Hrun.
      destruct (step_of request (signal reply) i0) as [i0'|] eqn:E1; [|done].
      destruct (courier_steps_frame request between i0' i1 Hrun) as (n & _ & _ & _ & He).
      destruct (He Hbetween) as [_ ->].
      simpl in E1. destruct (emitter_pc i0), (sending i0); try done;
        destruct (rhc_signal reply (rhc i0)); try done; by injection E1 as <-. }
    rewrite Hsent. unfold rhc_forward, Courier_Send. rewrite Hrt, Hstack.
    destruct (emitter_pc i1); try done; by destruct (rhc i1).
  - intros waiting Hpc Hquit. split.
    + intros between. unfold recovery. fold reply. cbn [app take_steps take_step].
      destruct (forallb is_emitter_step between); [|done]. rewrite Hpc.
      unfold rhc_signal. rewrite Hcompl, Hquit.
      rewrite decide_False by (simpl; lia). by destruct (sending i).
    + intros before between. unfold recovery. fold reply.
      cbn [app forallb is_emitter_step andb take_steps take_step].
      by rewrite Hpc, Hquit.
Qed.
End RecoveryFacts.

(** ** identifyPanic *)
Section IdentifyPanicFacts.
Import service.

Lemma identify_loop_first pre fn post name file line :
  (forall g, Some g ∈ pre -> in_runtime g = true) ->
  in_runtime fn = false ->
  identify_loop (pre ++ Some fn :: post) name file line =
    (fn_name fn, fn_file fn, fn_line fn).
Proof.
  revert name file line. induction pre as [|o pre IH]; intros name file line Hpre Hfn.
  - simpl. unfold in_runtime in Hfn. by rewrite Hfn.
  - destruct o as [g|]; simpl.
    + assert (Hg : in_runtime g = true) by (apply Hpre; left).
      unfold in_runtime in Hg. rewrite Hg. simpl.
      apply IH; [|done]. intros g' Hin. apply Hpre. by right.
    + apply IH; [|done]. intros g' Hin. apply Hpre. by right.
Qed.

Lemma identify_loop_runtime frames name file line :
  (forall g, Some g ∈ frames -> in_runtime g = true) ->
  identify_loop frames name file line =
    match last (omap id frames) with
    | Some g => (fn_name g, fn_file g, fn_line g)
    | None => (name, file, line)
    end.
Proof.
  revert name file line. induction frames as [|o frames IH]; intros name file line Hall.
  - done.
  - assert (Hrest : forall g, Some g ∈ frames -> in_runtime g = true)
      by (intros g Hin; apply Hall; by right).
    destruct o as [g|]; simpl.
    + assert (Hg : in_runtime g = true) by (apply Hall; left).
      unfold in_runtime in Hg. rewrite Hg. simpl.
      rewrite (IH _ _ _ Hrest), last_cons.
      change (list_omap (option Func) Func id frames) with (omap id frames).
      by destruct (last (omap id frames)).
    + by apply IH.
Qed.

Lemma in_runtime_named g : in_runtime g = true -> fn_name g <> "".
Proof. unfold in_runtime. intros H Hn. by rewrite Hn in H. Qed.

(** X16: [identifyPanic] names the first frame that resolves to a
    function outside the Go runtime: by its function name and line, by
    its file and line when the name is empty, and by the program counters
    when both are empty.  When every frame that resolves belongs to the
    runtime, it names the last of them, and when no frame resolves, the
    program counters. *)
Theorem identifyPanic_names_first_caller
    (pcs : string) (frames : list (option Func)) :
  (forall pre fn post,
     frames = pre ++ Some fn :: post ->
     (forall g, Some g ∈ pre -> in_runtime g = true) ->
     in_runtime fn = false ->
     identifyPanic pcs frames =
       if decide (fn_name fn <> "") then fn_name fn +:+ ":" +:+ pretty (fn_line fn)
       else if decide (fn_file fn <> "") then fn_file fn +:+ ":" +:+ pretty (fn_line fn)
       else "pc:" +:+ pcs) /\
  ((forall g, Some g ∈ frames -> in_runtime g = true) ->
   identifyPanic pcs frames =
     match last (omap id frames) with
     | Some g => fn_name g +:+ ":" +:+ pretty (fn_line g)
     | None => "pc:" +:+ pcs
     end).
Proof.
  split.
  - intros pre fn post -> Hpre Hfn. unfold identifyPanic.
    by rewrite (identify_loop_first pre fn post _ _ _ Hpre Hfn).
  - intros Hall. unfold identifyPanic. rewrite (identify_loop_runtime _ _ _ _ Hall).
    destruct (last (omap id frames)) as [g|] eqn:El; [|done].
    rewrite decide_True; [done|]. apply in_runtime_named, Hall.
    apply last_Some_elem_of in El. apply list_elem_of_omap in El as (o & Hin & Ho).
    destruct o; simpl in Ho; by simplify_eq.
Qed.
End IdentifyPanicFacts.

(** ** The further properties at work *)

Lemma dispatch_loop_grows_witness :
  exists sub',
    (amqp.dispatch_loop amqp.hash_or_exact [amqp.sub_a1; amqp.sub_b1]
       [amqp.case_msg amqp.msg_a1; amqp.case_msg amqp.msg_a1; amqp.case_quit]).1.1 !! 0
    = Some sub' /\
    amqp.topic sub' = "a.1" /\
    length (amqp.deliveries sub') <= 1.
Proof.
  destruct (dispatch_loop_grows amqp.hash_or_exact [amqp.sub_a1; amqp.sub_b1]
              [amqp.case_msg amqp.msg_a1; amqp.case_msg amqp.msg_a1; amqp.case_quit])
    as [_ H].
  destruct (H 0 amqp.sub_a1 eq_refl) as (sub' & Hl & Ht & Hc & _ & Hlen).
  exists sub'. split; [exact Hl|]. split; [exact Ht|]. apply Hlen. simpl. lia.
Defined.

Lemma cycle_binds_every_topic_witness :
  exists s1 rejects r,
    amqp.run amqp.hash_or_exact amqp.two_topics amqp.connection_lost =
      (s1, amqp.setup_of amqp.two_topics ++ [] ++ rejects, r) /\
    Forall (fun a => exists msg, a = amqp.Reject msg true) rejects /\
    amqp.started s1 = false /\ amqp.topics s1 = ["a.1"; "#"].
Proof.
  apply (cycle_binds_every_topic amqp.hash_or_exact amqp.two_topics amqp.connection_lost).
  intros [[? [=]]|[[? [=]]|[[? [=]]|[(sub & _ & [? [=]])|[? [=]]]]]].
Defined.

(** A multiplexer on which the bind of the second topic is refused. *)
Lemma failed_cycle_changes_nothing_witness :
  amqp.run amqp.hash_or_exact amqp.two_topics
    (amqp.mkCycle None None None
       (fun t => if decide (t = "#") then Some "access refused" else None) None
       [amqp.case_msg amqp.msg_a1]) =
    (amqp.two_topics,
     [amqp.Dial; amqp.GetChannelInterface; amqp.QueueDeclare "q" true false false false;
      amqp.QueueBind "q" "a.1" "amq.topic" false; amqp.QueueBind "q" "#" "amq.topic" false],
     amqp.returned (Some (errors_New "access refused"))).
Proof.
  refine (proj1 (proj2 (proj2 (proj2
            (failed_cycle_changes_nothing amqp.hash_or_exact amqp.two_topics
               (amqp.mkCycle None None None
                  (fun t => if decide (t = "#") then Some "access refused" else None) None
                  [amqp.case_msg amqp.msg_a1])))))
            "access refused" [amqp.mkSubscription "a.1" [] 1] (amqp.mkSubscription "#" [] 1) []
            eq_refl eq_refl eq_refl eq_refl _ eq_refl).
  intros sub' Hin. apply list_elem_of_singleton in Hin as ->. reflexivity.
Defined.

Lemma Close_is_idempotent_witness :
  exists h' acts,
    amqp.calls [amqp.call_Close; amqp.call_Subscribe 1 "late"; amqp.call_Close]
      (amqp.mkHandle amqp.two_topics false) = Some (h', acts) /\
    amqp.closed (amqp.subscriber h') = amqp.quit_closed h' /\
    amqp.quit_closed h' = true /\
    length (filter (fun a => amqp.is_close_quit a = true) acts) = 1.
Proof.
  apply (Close_is_idempotent
           [amqp.call_Close; amqp.call_Subscribe 1 "late"; amqp.call_Close]
           (amqp.mkHandle amqp.two_topics false)).
  reflexivity.
Defined.

Lemma waiters_only_get_their_replies_witness :
  exists sr',
    router.deliver_all router.id_Unmarshal
      [router.reply_for "u0"; []; router.reply_for "zz"] router.busy_router = Some sr' /\
    router.publisher sr' = [] /\
    dom (router.pendingRequests sr') = dom (router.pendingRequests router.busy_router) /\
    router.single_slot sr'.
Proof.
  assert (E : { sr' | router.deliver_all router.id_Unmarshal
                        [router.reply_for "u0"; []; router.reply_for "zz"]
                        router.busy_router = Some sr' })
    by (vm_compute; eexists; reflexivity).
  destruct E as [sr' E]. exists sr'. split; [exact E|].
  destruct (waiters_only_get_their_replies router.id_Unmarshal _ _ _ E)
    as (Hp & _ & Hd & _ & Hs).
  split; [exact Hp|]. split; [exact Hd|]. apply Hs.
  intros id buf Hid. unfold router.busy_router in Hid. simpl in Hid.
  apply lookup_singleton_Some in Hid as [_ <-]. simpl. lia.
Defined.

Lemma Route_publishes_once_witness :
  router.Route router.id_Marshal router.id_Unmarshal
    (router.mkStandardRouter [] "router_r"
       {["u0" := [router.mkRoutedMessage (Some "u0") None 0 0 []]]})
    router.request_7_3 "u1" [router.reply_for "u0"] [] []
  = (router.mkStandardRouter [] "router_r"
       {["u0" := [router.mkRoutedMessage (Some "u0") None 0 0 []]]},
     router.mkRoutedMessage (Some "u1") (Some "router_r") 7 3 [],
     router.route_hangs) /\
  (let '(sr', _, result) :=
     router.Route router.id_Marshal router.id_Unmarshal router.busy_router
       router.request_7_3 "u1" [router.reply_for "u0"] [] [] in
   router.publisher sr' =
     router.publisher router.busy_router ++
       [(pretty (router.GetMethod router.request_7_3) +:+ "_" +:+
         pretty (router.GetResource router.request_7_3), router.reply_for "u1")] /\
   router.topic sr' = router.topic router.busy_router /\
   match result with
   | router.route_returns _ _ =>
       dom (router.pendingRequests sr') =
         dom (router.pendingRequests router.busy_router) ∖ {["u1"]}
   | router.route_hangs => True
   end).
Proof.
  split.
  - apply (proj1 (Route_publishes_once router.id_Marshal router.id_Unmarshal
                    (router.mkStandardRouter [] "router_r"
                       {["u0" := [router.mkRoutedMessage (Some "u0") None 0 0 []]]})
                    router.request_7_3 "u1" (router.reply_for "u1")
                    [router.reply_for "u0"] [] [] eq_refl)).
    reflexivity.
  - apply (proj2 (Route_publishes_once router.id_Marshal router.id_Unmarshal
                    router.busy_router router.request_7_3 "u1" (router.reply_for "u1")
                    [router.reply_for "u0"] [] [] eq_refl)).
    vm_compute. eauto.
Defined.

Lemma Route_returns_first_reply_witness :
  exists sr',
    router.Route router.id_Marshal router.id_Unmarshal router.busy_router
      router.request_7_3 "u1" [[]]
      ([router.reply_for "u0"] ++ router.reply_for "u1" :: [router.reply_for "zz"]) []
    = (sr', router.stamp router.busy_router "u1" router.request_7_3,
       router.route_returns
         (Some (router.mkRoutedMessage (Some "u1") None 0 0 [])) None).
Proof.
  assert (E1 : { sr1 | router.deliver_all router.id_Unmarshal [router.reply_for "u0"]
                         (router.issue router.busy_router
                            (router.stamp router.busy_router "u1" router.request_7_3)
                            (router.reply_for "u1")) = Some sr1 })
    by (vm_compute; eexists; reflexivity).
  destruct E1 as [sr1 E1].
  assert (E2 : { sr2 | router.deliver_all router.id_Unmarshal
                         ([router.reply_for "zz"] ++ []) sr1 = Some sr2 }).
  { vm_compute in E1. injection E1 as <-. vm_compute. eexists. reflexivity. }
  destruct E2 as [sr2 E2]. eexists.
  apply (Route_returns_first_reply router.id_Marshal router.id_Unmarshal
           router.busy_router router.busy_router sr1 sr2 router.request_7_3
           (router.mkRoutedMessage (Some "u1") None 0 0 []) "u1"
           (router.reply_for "u1") (router.reply_for "u1")
           [[]] [router.reply_for "u0"] [router.reply_for "zz"] []
           eq_refl eq_refl); [|exact E1|reflexivity|reflexivity|exact E2].
  repeat constructor. intros m Hm. vm_compute in Hm. by simplify_eq.
Defined.

(** Two responses with a [Routing] object each, and a third entry that
    shares the object of the second. *)
Lemma courier_publishes_in_order_witness :
  let m : gmap nat proto.Routing :=
    {[ 0 := proto.mkRouting [proto.mkRoute (Some "a") None; proto.mkRoute (Some "b") None] [];
       1 := proto.mkRouting [proto.mkRoute (Some "c") None] [] ]} in
  let r0 := service.mkRequestAt (Some "u1") (Some 0) [] [] (Some true) None in
  let r1 := service.mkRequestAt (Some "u2") (Some 1) [] [] (Some true) None in
  service.courier_turns service.stack_Marshal 2 (service.mkCourierMemory m [r0; r1; r1] [] [])
  = service.returns
      (service.mkCourierMemory (service.popped [r0; r1] m) [r1]
         ([] ++ concat ((fun r => (service.alone service.stack_Marshal (service.resolve m r)).1)
                          <$> [r0; r1]))
         ([] ++ concat ((fun r => (service.alone service.stack_Marshal (service.resolve m r)).2)
                          <$> [r0; r1]))) /\
  (exists c,
     service.courier_turns service.stack_Marshal 2
       (service.mkCourierMemory m [r1; r1] [] [])
     = service.panics service.index_out_of_range c /\
     service.mem_published c = [("c", String.list_byte_of_string "u2")]).
Proof.
  intros m r0 r1.
  assert (Ha0 : service.addressed (service.resolve m r0)).
  { exists (proto.mkRouting [proto.mkRoute (Some "a") None; proto.mkRoute (Some "b") None] []),
      [proto.mkRoute (Some "a") None], (proto.mkRoute (Some "b") None). done. }
  assert (Ha1 : service.addressed (service.resolve m r1)).
  { exists (proto.mkRouting [proto.mkRoute (Some "c") None] []),
      [], (proto.mkRoute (Some "c") None). done. }
  split.
  - apply (proj1 (courier_publishes_in_order service.stack_Marshal [r0; r1] [r1] m [] [])).
    + simpl. apply NoDup_cons. split; [|apply NoDup_singleton].
      intros Hin. apply list_elem_of_singleton in Hin. discriminate Hin.
    + by repeat constructor.
  - destruct (proj2 (courier_publishes_in_order service.stack_Marshal [] [] m [] [])
                r1 r1 1 eq_refl eq_refl Ha1) as (_ & _ & Hpanic).
    eexists. split; [exact (Hpanic _ (proto.mkRoute (Some "c") None) eq_refl eq_refl)|].
    reflexivity.
Defined.

Lemma at_most_two_completed_witness :
  let es := [service.signal service.final_reply; service.forward; service.take_quit;
             service.signal service.final_reply; service.forward] in
  exists i,
    service.take_steps service.Courier_Send service.echo_id service.one_hop
      service.request_u1 es (service.NewRequestHeartbeatCourier service.NewCourier)
    = Some i /\
    service.completed_signals es = 2 /\
    service.take_step service.Courier_Send service.echo_id service.one_hop
      service.request_u1 (service.signal service.final_reply) i = None.
Proof.
  intros es.
  assert (E : { i | service.take_steps service.Courier_Send service.echo_id
                      service.one_hop service.request_u1 es
                      (service.NewRequestHeartbeatCourier service.NewCourier) = Some i })
    by (vm_compute; eexists; reflexivity).
  destruct E as [i E]. exists i. split; [exact E|]. split; [reflexivity|].
  destruct (at_most_two_completed service.Courier_Send service.echo_id
              service.one_hop service.request_u1 service.NewCourier es i E)
    as (_ & _ & Hblock).
  apply Hblock; reflexivity.
Defined.

Lemma returned_emitter_is_silent_witness :
  let i := service.mkInvocation (service.mkRHC service.NewCourier [])
             service.emitter_returned None [] in
  exists i',
    service.take_steps service.Courier_Send service.echo_id service.one_hop
      service.request_u1 [service.signal service.final_reply; service.forward] i
    = Some i' /\
    service.emitter_pc i' = service.emitter_returned /\
    service.heartbeats (service.handed i') = 0.
Proof.
  intros i.
  assert (E : { i' | service.take_steps service.Courier_Send service.echo_id
                       service.one_hop service.request_u1
                       [service.signal service.final_reply; service.forward] i = Some i' })
    by (vm_compute; eexists; reflexivity).
  destruct E as [i' E]. exists i'. split; [exact E|].
  destruct (returned_emitter_is_silent service.Courier_Send service.echo_id
              service.one_hop service.request_u1 _ i i' E eq_refl) as (Hpc & Hhb & _).
  split; [exact Hpc|exact Hhb].
Defined.

Lemma handler_replies_in_order_witness :
  let es := [service.timer 500; service.signal service.request_u1; service.beat;
             service.forward; service.signal service.final_reply] in
  exists i,
    service.take_steps service.Courier_Send service.echo_id service.one_hop
      service.request_u1 es (service.NewRequestHeartbeatCourier service.NewCourier)
    = Some i /\
    (service.handler_handed (service.handed i) ++ option_list (service.sending i))
      `sublist_of` [service.request_u1; service.final_reply].
Proof.
  intros es.
  assert (E : { i | service.take_steps service.Courier_Send service.echo_id
                      service.one_hop service.request_u1 es
                      (service.NewRequestHeartbeatCourier service.NewCourier) = Some i })
    by (vm_compute; eexists; reflexivity).
  destruct E as [i E]. exists i. split; [exact E|].
  exact (proj1 (handler_replies_in_order service.Courier_Send service.echo_id
                  service.one_hop service.request_u1 service.NewCourier es i E)).
Defined.

(** A response generator that loses the destination, and an invocation
    in which a signal waits on [quit]. *)
Lemma recovery_can_fail_witness :
  service.recovery service.text_Marshal_Error service.strip_route service.one_hop
    "handler.go:7" "orders" service.request_u1 "boom" (String.list_byte_of_string "u1")
    [] [] (service.NewRequestHeartbeatCourier service.NewCourier)
  = service.panicked service.index_out_of_range
      (service.mkInvocation (service.mkRHC service.NewCourier [true])
         service.at_select None []) /\
  (forall between,
     service.recovery service.text_Marshal_Error service.echo_id service.one_hop
       "handler.go:7" "orders" service.request_u1 "boom" (String.list_byte_of_string "u1")
       [] between
       (service.mkInvocation (service.mkRHC service.NewCourier [true])
          service.at_select None [])
     = service.stuck).
Proof.
  split.
  - apply (proj1 (recovery_can_fail service.text_Marshal_Error service.strip_route
                    service.one_hop "handler.go:7" "orders"
                    (String.list_byte_of_string "u1") service.request_u1 "boom"
                    (service.NewRequestHeartbeatCourier service.NewCourier) eq_refl)
             (ex_intro _ (proto.mkRouting [] []) (conj eq_refl eq_refl))
             [] []
             (service.mkInvocation (service.mkRHC service.NewCourier [true])
                service.at_select
                (Some (service.panic_reply service.text_Marshal_Error service.strip_route
                         service.one_hop "handler.go:7" "orders" service.request_u1 "boom"))
                [])
             eq_refl eq_refl).
    discriminate.
  - apply (proj1 (proj2 (recovery_can_fail service.text_Marshal_Error service.echo_id
                    service.one_hop "handler.go:7" "orders"
                    (String.list_byte_of_string "u1") service.request_u1 "boom"
                    (service.mkInvocation (service.mkRHC service.NewCourier [true])
                       service.at_select None [])
                    eq_refl) [] eq_refl eq_refl)).
Defined.

(** A handler that sends one intermediate reply and panics. *)
Lemma handler_fault_is_contained_witness :
  let request := proto.mkRequest (Some "u1")
                   (Some (proto.mkRouting [] [proto.mkRoute (Some "caller") None]))
                   [] [] None None in
  let reply := service.panic_reply service.text_Marshal_Error service.echo_id
                 service.one_hop "handler.go:7" "orders" request "boom" in
  proto.GetCompleted reply = true /\
  proto.payload reply =
    String.list_byte_of_string "A fatal error has occurred. orders: handler.go:7 boom" /\
  exists i',
    service.AddHandler service.text_Marshal_Error service.id_Unmarshal service.echo_id
      service.one_hop "handler.go:7" ∅ "orders" service.faulty_handler
      (String.list_byte_of_string "u1") [] [] service.NewCourier
    = service.returned_nil i' /\
    service.responses (service.parent (service.rhc i')) =
      [proto.mkRequest (Some "u1") (Some (service.one_hop "caller")) [] [] None None; reply] /\
    service.published (service.parent (service.rhc i')) =
      [("panic.orders", String.list_byte_of_string "u1")].
Proof.
  intros request reply.
  assert (E : { i | service.faulty_handler request
                      (service.NewRequestHeartbeatCourier service.NewCourier)
                    = service.panics "boom" i })
    by (vm_compute; eexists; reflexivity).
  destruct E as [i E].
  destruct (handler_fault_is_contained service.text_Marshal_Error service.id_Unmarshal
              service.echo_id service.one_hop "handler.go:7" ∅ "orders"
              service.faulty_handler (String.list_byte_of_string "u1")
              service.NewCourier request "boom" i) as ((Hc & Hpl & _) & _ & Hgo).
  - reflexivity.
  - reflexivity.
  - intros req resp rt first rest Hr Hs. by exists rt, rest.
  - intros u. by exists (proto.mkRoute (Some u) None), [].
  - reflexivity.
  - left. reflexivity.
  - exact E.
  - split; [exact Hc|]. split; [exact Hpl|].
    vm_compute in E. injection E as <-.
    eexists. split; [apply Hgo; [reflexivity|discriminate|reflexivity|simpl; lia]|].
    split; reflexivity.
Defined.

Lemma identifyPanic_names_first_caller_witness :
  service.identifyPanic "[4a2f10]" service.panic_stack = "main.handle:7" /\
  service.identifyPanic "[4a2f10]" (take 3 service.panic_stack) = "runtime.panicindex:28".
Proof.
  destruct (identifyPanic_names_first_caller "[4a2f10]" service.panic_stack) as [H1 _].
  destruct (identifyPanic_names_first_caller "[4a2f10]" (take 3 service.panic_stack))
    as [_ H2].
  split.
  - rewrite (H1 (take 3 service.panic_stack)
               (service.mkFunc "main.handle" "handler.go" 7)
               [Some (service.mkFunc "platform.func1" "service.go" 175)] eq_refl);
      [reflexivity| |reflexivity].
    intros g Hin. simpl in Hin. repeat (apply elem_of_cons in Hin as [Hin|Hin]);
      try (by simplify_eq); by apply not_elem_of_nil in Hin.
  - rewrite H2; [reflexivity|].
    intros g Hin. simpl in Hin. repeat (apply elem_of_cons in Hin as [Hin|Hin]);
      try (by simplify_eq); by apply not_elem_of_nil in Hin.
Defined.

Lemma courier_channel_holds_ten_witness :
  (exists lines,
     service.Courier_Sends [service.reply_to ["a"; "b"]; service.reply_to ["c"]]
       service.NewCourier =
       service.returns
         (service.mkCourier ([] ++ [service.reply_to ["a"; "b"]; service.reply_to ["c"]])
            [] ([] ++ lines)) /\
     length lines = 2) /\
  service.Courier_Send (service.reply_to ["c"])
    (service.mkCourier (replicate 10 (service.reply_to ["a"])) [] []) = service.blocks.
Proof.
  assert (Ha : forall u us, service.addressed (service.reply_to (us ++ [u]))).
  { intros u us.
    exists (proto.mkRouting ((fun x => proto.mkRoute (Some x) None) <$> (us ++ [u])) []),
      ((fun x => proto.mkRoute (Some x) None) <$> us), (proto.mkRoute (Some u) None).
    split; [reflexivity|]. simpl. by rewrite fmap_app. }
  split.
  - apply (proj1 (courier_channel_holds_ten
                    [service.reply_to ["a"; "b"]; service.reply_to ["c"]]
                    service.NewCourier
                    (Forall_cons_2 _ _ _ (Ha "b" ["a"])
                       (Forall_cons_2 _ _ _ (Ha "c" []) (Forall_nil_2 _))))).
    simpl. lia.
  - apply (proj2 (courier_channel_holds_ten []
                    (service.mkCourier (replicate 10 (service.reply_to ["a"])) [] [])
                    (Forall_nil_2 _)) eq_refl _ (Ha "c" [])).
Defined.
